(** * Linear A scoring and validation engine: a shallow embedding

    The development follows three source files:
    - [LINEAR_A_STATISTICAL_CONTROLS.py]: the scoring pipeline
      ([vowel_distance], [score_vowels], [score_features], [score_cases],
      [score_vocabulary], [score_family]) and the engines built on it
      ([run_bootstrap_test], [run_lexical_control], [run_perturbation_test]);
    - [LINEAR_A_CONTROL_VALIDATION.py]: the same pipeline with the
      vocabulary scorers [score_vocabulary_original] and
      [score_vocabulary_expanded];
    - [LINEAR_A_CROSS_DOMAIN_CONVERGENCE.py]: [bayesian_convergence].

    Modelling conventions.
    - In the scoring pipeline, Python floats and ints that flow into float
      arithmetic are real numbers ([R]); rounding error, infinities and NaN
      are not modelled there.
    - [bayesian_convergence] is written once over a class of arithmetics
      and run in two of them: [binary64], the IEEE 754 doubles of Python's
      floats, and [exact], the real numbers.  Statements about every
      rounded arithmetic assume a [rounding_contract].
    - The ablation takes the rounding of its float operations as a
      parameter; its statements hold for every rounding.
    - A Python [dict] with string keys is a [gmap string _]; a dict whose
      iteration order is observable (the score table of [score_family],
      the table of language families) is an association list.
    - A Python exception is a value of [exn]; fallible code lives in the
      [result] monad.  A top-level key of a profile that may be absent is an
      [option] field, and [d["k"]] is [getitem "k"].
    - The global generator of the [random] module is an explicit state [G]
      threaded through the randomised engines. *)

From Stdlib Require Import Reals Lra Lia ZArith Floats.
From stdpp Require Import base gmap strings list sorting.

Open Scope R_scope.
Set Warnings "-inexact-float".

(** ** Exceptions and the result monad *)

Inductive exn : Type :=
| KeyError (key : string)
| ZeroDivisionError
| IndexError
| ValueError.

Inductive result (A : Type) : Type :=
| Ok (a : A)
| Raise (e : exn).

Arguments Ok {A} a.
Arguments Raise {A} e.

#[global] Instance result_ret : MRet result := fun _ a => Ok a.
#[global] Instance result_bind : MBind result := fun _ _ f m =>
  match m with
  | Ok a => f a
  | Raise e => Raise e
  end.

Definition is_ok {A} (r : result A) : Prop :=
  match r with Ok _ => True | Raise _ => False end.

Definition raises {A} (r : result A) : Prop :=
  match r with Ok _ => False | Raise _ => True end.

(** ** Python primitives *)

#[global] Instance Rlt_decision : RelDecision Rlt := Rlt_dec.
#[global] Instance Rle_decision : RelDecision Rle := Rle_dec.
#[global] Instance Req_decision : EqDecision R := Req_dec_T.

(** [d["k"]] on a top-level key that may be absent. *)
Definition getitem {A} (key : string) (field : option A) : result A :=
  match field with
  | Some v => Ok v
  | None => Raise (KeyError key)
  end.

(** [d.get(k, 0)] on a dict of numbers. *)
Definition get0 (d : gmap string R) (k : string) : R := default 0 (d !! k).

(** [a / b]: true division, raising on a zero divisor. *)
Definition py_div (a b : R) : result R :=
  if decide (b = 0) then Raise ZeroDivisionError else Ok (a / b).

(** [sum(xs)]: left-to-right accumulation from 0. *)
Definition py_sum (xs : list R) : R := fold_left Rplus xs 0.

(** [d.values()] and [len(d)]. *)
Definition values {A} (d : gmap string A) : list A := (map_to_list d).*2.
Definition len {A} (d : gmap string A) : nat := size d.

(** Truth value of a dict: it is true when it has an entry. *)
Definition truthy {A} (d : gmap string A) : bool := bool_decide (size d ≠ 0%nat).

(** [math.log2]. *)
Definition log2 (x : R) : R := ln x / ln 2.

(** ** Profiles *)

Record family_data : Type := {
  vowels : option (gmap string R);
  (** [hattusha_vowels] is [None] both when the key is absent and when it
      is bound to Python's [None]: the only access is [.get]. *)
  hattusha_vowels : option (gmap string R);
  features : option (gmap string bool);
  case_similarity : option (gmap string R);
  vocabulary_matches : option (gmap string R);
  geographic_plausibility : option R;
  timeline_fit : option R;
  scholarly_support : option R;
  religious_parallel : option R
}.

(** The target profile [LINEAR_A] (the parts the scorers read). *)
Definition LINEAR_A_vowels : gmap string R :=
  list_to_map
    [("a", 43.3); ("i", 20.6); ("u", 17.5); ("e", 14.4); ("o", 4.1)].

Definition LINEAR_A_features : list (string * bool) :=
  [("agglutinative", true); ("sov_order", true); ("rich_case_system", true);
   ("no_grammatical_gender", true); ("possessive_enclitics", true);
   ("essive_case", true); ("no_voice_distinction", true);
   ("no_aspiration", true); ("verb_suffix_chain", true);
   ("ergative_alignment", true); ("3_vowel_system", true);
   ("prenasalized_stops", true); ("derivational_infixing", true);
   ("transitivity_vowel", true)].

(** ** Scoring engine *)

Definition vowel_distance (target reference : gmap string R) : R :=
  fold_left
    (fun dist v =>
       let t := get0 target v / 100 in
       let r := get0 reference v / 100 in
       if bool_decide (0 < t) && bool_decide (0 < r)
       then dist + t * log2 (t / r)
       else dist)
    ["a"; "i"; "u"; "e"; "o"]%string 0.

(** [family_data.get("hattusha_vowels") or family_data["vowels"]]. *)
Definition best_vowels (fd : family_data) : result (gmap string R) :=
  match hattusha_vowels fd with
  | Some alt => if truthy alt then Ok alt else getitem "vowels" (vowels fd)
  | None => getitem "vowels" (vowels fd)
  end.

Definition score_vowels (fd : family_data) : result R :=
  bv ← best_vowels fd;
  let kl_div := vowel_distance LINEAR_A_vowels bv in
  let score := Rmax 0 (100 - kl_div * 500) in
  Ok (Rmin 100 score).

(** The loop of [score_features]: [family_data["features"]] is looked up
    at every iteration. *)
Fixpoint count_feature_matches (fd : family_data)
    (target : list (string * bool)) (matches : nat) : result nat :=
  match target with
  | [] => Ok matches
  | (feat, la_val) :: rest =>
      feats ← getitem "features" (features fd);
      count_feature_matches fd rest
        (if bool_decide (feats !! feat = Some la_val)
         then S matches else matches)
  end.

Definition score_features (fd : family_data) : result R :=
  let total := length LINEAR_A_features in
  matches ← count_feature_matches fd LINEAR_A_features 0;
  q ← py_div (INR matches) (INR total);
  Ok (q * 100).

Definition score_cases (fd : family_data) : result R :=
  sims ← getitem "case_similarity" (case_similarity fd);
  py_div (py_sum (values sims)) (INR (len sims)).

(** *** The pipeline of [LINEAR_A_STATISTICAL_CONTROLS.py] *)

Module StatisticalControls.

Definition score_vocabulary (fd : family_data) : result R :=
  matches ← getitem "vocabulary_matches" (vocabulary_matches fd);
  py_div (py_sum (values matches)) (INR (len matches)).

(** [score_family] returns the score table, in insertion order, and the
    unweighted mean of its values. *)
Definition score_family (family_name : string) (fd : family_data)
    : result (list (string * R) * R) :=
  s_vowel ← score_vowels fd;
  s_feat ← score_features fd;
  s_case ← score_cases fd;
  s_vocab ← score_vocabulary fd;
  s_geo ← getitem "geographic_plausibility" (geographic_plausibility fd);
  s_time ← getitem "timeline_fit" (timeline_fit fd);
  s_schol ← getitem "scholarly_support" (scholarly_support fd);
  s_rel ← getitem "religious_parallel" (religious_parallel fd);
  let scores :=
    [("Vowel system", s_vowel); ("Structural features", s_feat);
     ("Case system", s_case); ("Vocabulary", s_vocab);
     ("Geographic", s_geo); ("Timeline", s_time);
     ("Scholarly support", s_schol); ("Religious parallel", s_rel)]%string in
  overall ← py_div (py_sum (scores.*2)) (INR (length scores));
  Ok (scores, overall).

End StatisticalControls.

(** *** The pipeline of [LINEAR_A_CONTROL_VALIDATION.py] *)

Module ControlValidation.

(** One entry of [EXPANDED_VOCABULARY]. *)
Record vocabulary_item : Type := {
  linear_a : string;
  meaning : string;
  scores : gmap string R
}.

Definition score_vocabulary_original (fd : family_data) : result R :=
  match vocabulary_matches fd with
  | Some matches => py_div (py_sum (values matches)) (INR (len matches))
  | None => Ok 0
  end.

Section Expanded.
(** The 38-item table is data; the scorers take it as a parameter. *)
Variable EXPANDED_VOCABULARY : list vocabulary_item.

Definition score_vocabulary_expanded (family_name : string) : result R :=
  let '(total, count) :=
    fold_left
      (fun '(total, count) item =>
         (total + get0 (scores item) family_name, S count))
      EXPANDED_VOCABULARY (0, 0%nat) in
  if bool_decide (0 < count)%nat then py_div total (INR count) else Ok 0.

Definition score_family (family_name : string) (fd : family_data)
    (use_expanded_vocab : bool) : result (list (string * R) * R) :=
  s_vowel ← score_vowels fd;
  s_feat ← score_features fd;
  s_case ← score_cases fd;
  s_vocab ← (if use_expanded_vocab
             then score_vocabulary_expanded family_name
             else score_vocabulary_original fd);
  s_geo ← getitem "geographic_plausibility" (geographic_plausibility fd);
  s_time ← getitem "timeline_fit" (timeline_fit fd);
  s_schol ← getitem "scholarly_support" (scholarly_support fd);
  s_rel ← getitem "religious_parallel" (religious_parallel fd);
  let scores :=
    [("Vowel system", s_vowel); ("Structural features", s_feat);
     ("Case system", s_case); ("Vocabulary", s_vocab);
     ("Geographic", s_geo); ("Timeline", s_time);
     ("Scholarly support", s_schol); ("Religious parallel", s_rel)]%string in
  overall ← py_div (py_sum (scores.*2)) (INR (length scores));
  Ok (scores, overall).
End Expanded.

End ControlValidation.

(** *** Two profiles of the source tables *)

(** [LANGUAGE_FAMILIES["Hurro-Urartian"]] of the statistical controls. *)
Definition Hurro_Urartian : family_data := {|
  vowels := Some (list_to_map
    [("a", 30); ("i", 22); ("u", 20); ("e", 18); ("o", 10)]%string);
  hattusha_vowels := Some (list_to_map
    [("a", 38); ("i", 25); ("u", 22); ("e", 10); ("o", 5)]%string);
  features := Some (list_to_map
    [("agglutinative", true); ("sov_order", true); ("rich_case_system", true);
     ("no_grammatical_gender", true); ("possessive_enclitics", true);
     ("essive_case", true); ("no_voice_distinction", true);
     ("no_aspiration", true); ("verb_suffix_chain", true);
     ("ergative_alignment", true); ("3_vowel_system", true);
     ("prenasalized_stops", false); ("derivational_infixing", true);
     ("transitivity_vowel", true)]%string);
  case_similarity := Some (list_to_map
    [("-E", 100); ("-ME", 95); ("-TI", 85); ("-NA", 85); ("-SI", 50);
     ("-JA", 45)]%string);
  vocabulary_matches := Some (list_to_map
    [("A-TA-I", 95); ("SA-SA-RA", 80); ("DA-KU-NA", 85); ("I-DA-MA-TE", 80);
     ("DU-PU2-RE", 65); ("U-NA-KA-NA-SI", 75); ("KU-RO", 25);
     ("I-PI-NA-MA", 0); ("SI-RU-TE", 0)]%string);
  geographic_plausibility := Some 80;
  timeline_fit := Some 75;
  scholarly_support := Some 70;
  religious_parallel := Some 84
|}.

(** [LINEAR_B_CONTROL] of the control validation: it has no
    ["vocabulary_matches"] key.  Its ["label"] and ["description"] keys,
    which no scorer reads, are left out. *)
Definition LINEAR_B_CONTROL : family_data := {|
  vowels := Some (list_to_map
    [("a", 22); ("e", 20); ("i", 16); ("o", 26); ("u", 16)]%string);
  hattusha_vowels := None;
  features := Some (list_to_map
    [("agglutinative", false); ("sov_order", false);
     ("rich_case_system", true); ("no_grammatical_gender", false);
     ("possessive_enclitics", true); ("essive_case", false);
     ("no_voice_distinction", false); ("no_aspiration", false);
     ("verb_suffix_chain", false); ("ergative_alignment", false);
     ("3_vowel_system", false); ("prenasalized_stops", false);
     ("derivational_infixing", false); ("transitivity_vowel", false)]%string);
  case_similarity := Some (list_to_map
    [("-E", 25); ("-ME", 15); ("-TI", 20); ("-NA", 25); ("-SI", 35);
     ("-JA", 15)]%string);
  vocabulary_matches := None;
  geographic_plausibility := Some 90;
  timeline_fit := Some 85;
  scholarly_support := Some 10;
  religious_parallel := Some 25
|}.


(** ** More Python primitives used by the engines *)

(** [int(x)] on a float: truncation toward zero.  The engines apply it to
    [0.025 * N], [0.975 * N] and [14 * r] for the rates of the sweep; on
    these, for the trial counts in use (below 10^14), the float product and
    the real product have the same integer part. *)
Definition py_int (x : R) : Z :=
  if decide (0 <= x) then Int_part x else (- Int_part (- x))%Z.

(** [l[i]] on a list, with Python's negative indices. *)
Definition py_index {A} (l : list A) (i : Z) : result A :=
  let n := Z.of_nat (length l) in
  let pos := if decide (i < 0)%Z then (n + i)%Z else i in
  if decide (0 ≤ pos < n)%Z
  then match l !! Z.to_nat pos with
       | Some x => Ok x
       | None => Raise IndexError
       end
  else Raise IndexError.

(** [sorted(xs)] on numbers: ascending. *)
Fixpoint insert_sorted (x : R) (l : list R) : list R :=
  match l with
  | [] => [x]
  | y :: l' => if decide (x <= y) then x :: l else y :: insert_sorted x l'
  end.

Definition sorted (l : list R) : list R := foldr insert_sorted [] l.

(** [sorted(d.items(), key=lambda x: x[1], reverse=True)]: descending by
    value, entries with equal values in their original order. *)
Fixpoint insert_ranked (x : string * R) (l : list (string * R))
    : list (string * R) :=
  match l with
  | [] => [x]
  | y :: l' => if decide (y.2 <= x.2) then x :: l else y :: insert_ranked x l'
  end.

Definition sorted_by_score_desc (items : list (string * R))
    : list (string * R) :=
  foldr insert_ranked [] items.

(** [names.index(name)], raising [ValueError] when absent. *)
Fixpoint list_index (name : string) (names : list string) : result nat :=
  match names with
  | [] => Raise ValueError
  | n :: rest =>
      if decide (n = name) then Ok 0%nat
      else i ← list_index name rest; Ok (S i)
  end.

(** [[f(x) for x in xs]] for a fallible [f], left to right. *)
Fixpoint map_result {A B} (f : A → result B) (xs : list A) : result (list B) :=
  match xs with
  | [] => Ok []
  | x :: rest => y ← f x; ys ← map_result f rest; Ok (y :: ys)
  end.

(** ** TEST 3: bootstrap over dimensions ([run_bootstrap_test]) *)

(** The mutable state of the trial loop. *)
Record bootstrap_state : Type := {
  bootstrap_scores : gmap string (list R);
  hurrian_rank : list nat;
  hurrian_wins : nat
}.

(** What the engine returns ([trial_scores], [win_pct]) and what it prints
    per family, in print order ([intervals]: mean, lower and upper bound;
    the minimum and maximum printed next to them are left out). *)
Record bootstrap_report : Type := {
  trial_scores : gmap string (list R);
  intervals : list (string * (R * R * R));
  win_pct : R
}.

(** The first loop: [family_dim_scores[fname] = list(scores.values())]. *)
Fixpoint score_all (families : list (string * family_data))
    (family_dim_scores : gmap string (list R)) : result (gmap string (list R)) :=
  match families with
  | [] => Ok family_dim_scores
  | (fname, fdata) :: rest =>
      '(scores, _) ← StatisticalControls.score_family fname fdata;
      score_all rest (<[fname := scores.*2]> family_dim_scores)
  end.

(** [resampled = [dims[i] for i in indices]] and its mean. *)
Definition resample_mean (dims : list R) (indices : list Z) : result R :=
  resampled ← map_result (py_index dims) indices;
  py_div (py_sum resampled) (INR (length resampled)).

(** The loop over families inside one trial. *)
Fixpoint bootstrap_families (names : list string)
    (family_dim_scores : gmap string (list R)) (indices : list Z)
    (iter_scores : list (string * R)) (scores : gmap string (list R))
    : result (list (string * R) * gmap string (list R)) :=
  match names with
  | [] => Ok (iter_scores, scores)
  | fname :: rest =>
      dims ← getitem fname (family_dim_scores !! fname);
      avg ← resample_mean dims indices;
      so_far ← getitem fname (scores !! fname);
      bootstrap_families rest family_dim_scores indices
        (iter_scores ++ [(fname, avg)]) (<[fname := so_far ++ [avg]]> scores)
  end.

(** The body of the report loop for one family. *)
Definition confidence_interval (n_iterations : nat) (trials : list R)
    : result (R * R * R) :=
  let scores := sorted trials in
  mean ← py_div (py_sum scores) (INR (length scores));
  ci_low ← py_index scores (py_int (0.025 * INR n_iterations));
  ci_high ← py_index scores (py_int (0.975 * INR n_iterations));
  Ok (mean, ci_low, ci_high).

(** The sort key of the report loop: [-sum(s)/len(s)]; sorting ascending
    by it is sorting descending by the mean. *)
Definition report_key (scores : gmap string (list R)) (fname : string)
    : result (string * R) :=
  s ← getitem fname (scores !! fname);
  m ← py_div (py_sum s) (INR (length s));
  Ok (fname, m).

Definition report_row (n_iterations : nat) (scores : gmap string (list R))
    (fname : string) : result (string * (R * R * R)) :=
  s ← getitem fname (scores !! fname);
  ci ← confidence_interval n_iterations s;
  Ok (fname, ci).

Section Bootstrap.
Context {G : Type}.

(** [random.randint(a, b)] on the generator state. *)
Variable randint : Z → Z → G → Z * G.

(** [[random.randint(0, n_dims - 1) for _ in range(k)]]. *)
Fixpoint draw_indices (n_dims k : nat) (g : G) : list Z * G :=
  match k with
  | O => ([], g)
  | S k' =>
      let '(i, g1) := randint 0 (Z.of_nat n_dims - 1) g in
      let '(rest, g2) := draw_indices n_dims k' g1 in
      (i :: rest, g2)
  end.

(** The trial loop [for _ in range(n_iterations)]. *)
Fixpoint bootstrap_trials (iterations : nat) (names : list string)
    (family_dim_scores : gmap string (list R)) (n_dims : nat)
    (st : bootstrap_state) (g : G) : result (bootstrap_state * G) :=
  match iterations with
  | O => Ok (st, g)
  | S k =>
      let '(indices, g1) := draw_indices n_dims n_dims g in
      '(iter_scores, scores) ←
        bootstrap_families names family_dim_scores indices []
          (bootstrap_scores st);
      let ranked := sorted_by_score_desc iter_scores in
      pos ← list_index "Hurro-Urartian" ranked.*1;
      let rank := S pos in
      bootstrap_trials k names family_dim_scores n_dims
        {| bootstrap_scores := scores;
           hurrian_rank := hurrian_rank st ++ [rank];
           hurrian_wins := if decide (rank = 1%nat)
                           then S (hurrian_wins st) else hurrian_wins st |}
        g1
  end.

Definition run_bootstrap_test (LANGUAGE_FAMILIES : list (string * family_data))
    (n_iterations : nat) (g : G) : result (bootstrap_report * G) :=
  let names := LANGUAGE_FAMILIES.*1 in
  family_dim_scores ← score_all LANGUAGE_FAMILIES ∅;
  hurrian ← getitem "Hurro-Urartian" (family_dim_scores !! "Hurro-Urartian");
  let n_dims := length hurrian in
  let st0 := {| bootstrap_scores := list_to_map ((λ fname, (fname, [])) <$> names);
                hurrian_rank := [];
                hurrian_wins := 0 |} in
  '(st, g') ← bootstrap_trials n_iterations names family_dim_scores n_dims st0 g;
  keyed ← map_result (report_key (bootstrap_scores st)) names;
  rows ← map_result (report_row n_iterations (bootstrap_scores st))
           (sorted_by_score_desc keyed).*1;
  wins ← py_div (INR (hurrian_wins st)) (INR n_iterations);
  Ok ({| trial_scores := bootstrap_scores st;
         intervals := rows;
         win_pct := wins * 100 |}, g').

(** The index lists of the successive trials, as the generator yields
    them: the draws of trial [k+1] start where those of trial [k] ended. *)
Fixpoint trial_draws (n_dims iterations : nat) (g : G) : list (list Z) :=
  match iterations with
  | O => []
  | S k =>
      let '(indices, g1) := draw_indices n_dims n_dims g in
      indices :: trial_draws n_dims k g1
  end.

End Bootstrap.

(** The mean of [dims] resampled at [indices], as the specification words
    it: every index is a position of [dims]. *)
Definition mean_at (dims : list R) (indices : list Z) : R :=
  py_sum ((λ i, nth (Z.to_nat i) dims 0) <$> indices) / INR (length indices).

(** ** TEST 4: lexical chance control ([phonetic_similarity]) *)

(** [set(w[i:i+2] for i in range(len(w)-1))]. *)
Definition bigrams (w : string) : gset string :=
  list_to_set ((λ i, String.substring i 2 w) <$> seq 0 (String.length w - 1)).

Definition phonetic_similarity (w1 w2 : string) : R :=
  let bg1 := bigrams w1 in
  let bg2 := bigrams w2 in
  if bool_decide (bg1 = ∅) || bool_decide (bg2 = ∅) then 0
  else
    let shared := size (bg1 ∩ bg2) in
    INR shared / INR (Nat.max (size bg1) (size bg2)).

(** The set of adjacent character pairs of a word, by recursion on the
    word: the specification's reading of "character bigram set". *)
Fixpoint adjacent_pairs (w : string) : gset string :=
  match w with
  | String a (String b _ as rest) =>
      {[ String a (String b EmptyString) ]} ∪ adjacent_pairs rest
  | _ => ∅
  end.

(** The Jaccard overlap of two bigram sets, as the specification words
    it. *)
Definition jaccard_similarity (w1 w2 : string) : R :=
  let B1 := adjacent_pairs w1 in
  let B2 := adjacent_pairs w2 in
  if bool_decide (B1 = ∅) || bool_decide (B2 = ∅) then 0
  else INR (size (B1 ∩ B2)) / INR (size (B1 ∪ B2)).

(** ** TEST 5: perturbation ([run_perturbation_test], the feature flips) *)

Definition feature_names : list string := LINEAR_A_features.*1.

Definition perturbation_levels : list R := [0.10; 0.15; 0.20; 0.25; 0.30].

(** [n_flip = int(len(feature_names) * perturb_pct)]. *)
Definition n_flip (perturb_pct : R) : Z :=
  py_int (INR (length feature_names) * perturb_pct).

(** The loop over [flip_indices]. *)
Fixpoint flip_features (flip_indices : list Z) (p_features : gmap string bool)
    : result (gmap string bool) :=
  match flip_indices with
  | [] => Ok p_features
  | idx :: rest =>
      feat ← py_index feature_names idx;
      flip_features rest
        (match p_features !! feat with
         | Some b => <[feat := negb b]> p_features
         | None => p_features
         end)
  end.

Section Perturbation.
Context {G : Type}.

(** [random.sample(range(n), k)] on the generator state. *)
Variable sample_range : nat → Z → G → result (list Z * G).

(** The feature part of the perturbation of one family: the indices drawn
    and the perturbed copy of the feature map. *)
Definition perturb_features (fdata : family_data) (perturb_pct : R) (g : G)
    : result (list Z * gmap string bool * G) :=
  p_features ← getitem "features" (features fdata);
  '(flip_indices, g') ← sample_range (length feature_names) (n_flip perturb_pct) g;
  p_features' ← flip_features flip_indices p_features;
  Ok (flip_indices, p_features', g').

End Perturbation.

(** Python's [round] on a float: to the nearest integer, a tie to the even
    one.  The source never calls it; the specification does. *)
Definition spec_round (x : R) : Z :=
  let f := Int_part x in
  let d := x - IZR f in
  if decide (d < 1 / 2) then f
  else if decide (1 / 2 < d) then (f + 1)%Z
  else if Z.even f then f else (f + 1)%Z.

(** ** Bayesian convergence ([bayesian_convergence]) *)

(** The arithmetic the engine computes in.  The code runs on Python
    floats, that is IEEE 754 binary64 with rounding to nearest
    ([binary64] below); [exact] is the arithmetic of the real numbers, in
    which the specification argues.  The fields are the numerals the
    function writes and the operations it applies to them. *)
Class Arithmetic (F : Type) : Type := {
  fl_0 : F;
  fl_1 : F;
  fl_0_10 : F;
  fl_0_5 : F;
  fl_5_0 : F;
  fl_0_95 : F;
  fl_0_85 : F;
  fl_0_70 : F;
  fl_add : F → F → F;
  fl_sub : F → F → F;
  fl_mul : F → F → F;
  fl_div : F → F → F;
  fl_lt : F → F → bool;
  fl_le : F → F → bool;
  fl_eq : F → F → bool
}.

(** Python's floats: a decimal numeral denotes the nearest binary64
    value, as it does in Python. *)
#[global] Instance binary64 : Arithmetic float := {|
  fl_0 := 0%float;
  fl_1 := 1%float;
  fl_0_10 := 0.10%float;
  fl_0_5 := 0.5%float;
  fl_5_0 := 5.0%float;
  fl_0_95 := 0.95%float;
  fl_0_85 := 0.85%float;
  fl_0_70 := 0.70%float;
  fl_add := PrimFloat.add;
  fl_sub := PrimFloat.sub;
  fl_mul := PrimFloat.mul;
  fl_div := PrimFloat.div;
  fl_lt := PrimFloat.ltb;
  fl_le := PrimFloat.leb;
  fl_eq := PrimFloat.eqb
|}.

(** The real numbers, without rounding. *)
#[global] Instance exact : Arithmetic R := {|
  fl_0 := 0;
  fl_1 := 1;
  fl_0_10 := 0.10;
  fl_0_5 := 0.5;
  fl_5_0 := 5.0;
  fl_0_95 := 0.95;
  fl_0_85 := 0.85;
  fl_0_70 := 0.70;
  fl_add := Rplus;
  fl_sub := Rminus;
  fl_mul := Rmult;
  fl_div := Rdiv;
  fl_lt := λ a b, bool_decide (a < b);
  fl_le := λ a b, bool_decide (a <= b);
  fl_eq := λ a b, bool_decide (a = b)
|}.

(** The verdict bands. *)
Inductive verdict : Type :=
| NEAR_CERTAIN
| HIGHLY_PROBABLE
| PROBABLE
| LIKELY
| UNCERTAIN.

Section Convergence.
Context {F : Type} `{Arithmetic F}.

(** [a / b] on floats: a zero divisor raises. *)
Definition py_fdiv (a b : F) : result F :=
  if fl_eq b fl_0 then Raise ZeroDivisionError else Ok (fl_div a b).

(** [max(a, b)] and [min(a, b)]: the first argument unless the second is
    strictly beyond it. *)
Definition py_max (a b : F) : F := if fl_lt a b then b else a.
Definition py_min (a b : F) : F := if fl_lt b a then b else a.

(** One pass of the loop body: the new posterior. *)
Definition bayes_update (posterior lr : F) : result F :=
  let lr_clamped := py_max fl_0_5 (py_min lr fl_5_0) in
  odds ← py_fdiv posterior (fl_sub fl_1 posterior);
  let odds := fl_mul odds lr_clamped in
  py_fdiv odds (fl_add fl_1 odds).

(** The loop over [domain_results.items()]; [printed] collects the
    posterior shown after each domain. *)
Fixpoint bayes_loop (domain_results : list (string * (F * F)))
    (posterior : F) (printed : list F) : result (F * list F) :=
  match domain_results with
  | [] => Ok (posterior, printed)
  | (name, (score, lr)) :: rest =>
      posterior' ← bayes_update posterior lr;
      bayes_loop rest posterior' (printed ++ [posterior'])
  end.

(** [bayesian_convergence] from a given prior; the source fixes
    [prior = 0.10]. *)
Definition bayesian_convergence_from (prior : F)
    (domain_results : list (string * (F * F))) : result (F * list F) :=
  bayes_loop domain_results prior [].

Definition bayesian_convergence (domain_results : list (string * (F * F)))
    : result (F * list F) :=
  bayesian_convergence_from fl_0_10 domain_results.

(** The [if]/[elif] chain on the final posterior. *)
Definition verdict_of (posterior : F) : verdict :=
  if fl_le fl_0_95 posterior then NEAR_CERTAIN
  else if fl_le fl_0_85 posterior then HIGHLY_PROBABLE
  else if fl_le fl_0_70 posterior then PROBABLE
  else if fl_le fl_0_5 posterior then LIKELY
  else UNCERTAIN.

End Convergence.


(** ** The other engines of the statistical controls *)

(** [LANGUAGE_FAMILIES["Semitic"]] of the statistical controls.  Its
    ["hattusha_vowels"] key is bound to [None]. *)
Definition Semitic : family_data := {|
  vowels := Some (list_to_map
    [("a", 35.0); ("i", 20.0); ("u", 15.0); ("e", 15.0); ("o", 15.0)]%string);
  hattusha_vowels := None;
  features := Some (list_to_map
    [("agglutinative", false); ("sov_order", true); ("rich_case_system", true);
     ("no_grammatical_gender", false); ("possessive_enclitics", true);
     ("essive_case", false); ("no_voice_distinction", false);
     ("no_aspiration", false); ("verb_suffix_chain", false);
     ("ergative_alignment", false); ("3_vowel_system", true);
     ("prenasalized_stops", false); ("derivational_infixing", true);
     ("transitivity_vowel", true)]%string);
  case_similarity := Some (list_to_map
    [("-E", 10); ("-ME", 60); ("-TI", 30); ("-NA", 40); ("-SI", 20);
     ("-JA", 15)]%string);
  vocabulary_matches := Some (list_to_map
    [("A-TA-I", 40); ("SA-SA-RA", 50); ("DA-KU-NA", 5); ("I-DA-MA-TE", 15);
     ("DU-PU2-RE", 10); ("U-NA-KA-NA-SI", 5); ("KU-RO", 10);
     ("I-PI-NA-MA", 5); ("SI-RU-TE", 5)]%string);
  geographic_plausibility := Some 55;
  timeline_fit := Some 70;
  scholarly_support := Some 25;
  religious_parallel := Some 30
|}.

(** ** Tables in insertion order and rankings *)

(** [d[name]] on a dict held as an association list. *)
Fixpoint lookup_item {A} (name : string) (items : list (string * A)) : result A :=
  match items with
  | [] => Raise (KeyError name)
  | (n, v) :: rest => if decide (n = name) then Ok v else lookup_item name rest
  end.

(** [ranked[i]] for a position written as a literal. *)
Definition ranked_at {A} (ranked : list A) (i : nat) : result A :=
  match ranked !! i with
  | Some x => Ok x
  | None => Raise IndexError
  end.

(** [sorted(d.items())] on a table with distinct names: ascending by name,
    compared character by character. *)
Fixpoint insert_by_name {A} (x : string * A) (l : list (string * A))
    : list (string * A) :=
  match l with
  | [] => [x]
  | y :: l' =>
      if String.leb x.1 y.1 then x :: l else y :: insert_by_name x l'
  end.

Definition sorted_by_name {A} (items : list (string * A)) : list (string * A) :=
  foldr insert_by_name [] items.

(** ** TEST 1: baseline ([run_baseline_comparison]) *)

Inductive significance : Type :=
| STRONG
| MODERATE_GAP
| WEAK.

(** [sorted(items, key=..., reverse=True)] for any entry type: descending
    by the key, entries with equal keys in their original order. *)
Fixpoint insert_desc_by {A} (key : A → R) (x : A) (l : list A) : list A :=
  match l with
  | [] => [x]
  | y :: l' =>
      if decide (key y <= key x) then x :: l else y :: insert_desc_by key x l'
  end.

Definition sorted_desc_by {A} (key : A → R) (items : list A) : list A :=
  foldr (insert_desc_by key) [] items.

(** An entry of [results]: the score table and the overall score. *)
Abbreviation scored := (list (string * R) * R)%type.

(** The first loop: [results[name] = (scores, overall)], in the order
    given. *)
Fixpoint score_each (families : list (string * family_data))
    (results : list (string * scored)) : result (list (string * scored)) :=
  match families with
  | [] => Ok results
  | (name, data) :: rest =>
      '(scores, overall) ← StatisticalControls.score_family name data;
      score_each rest (results ++ [(name, (scores, overall))])
  end.

(** What the baseline returns ([results], [ranked]) and the gap and
    significance band it prints. *)
Definition run_baseline_comparison
    (LANGUAGE_FAMILIES : list (string * family_data))
    : result (list (string * scored) * list (string * scored)
              * R * significance) :=
  results ← score_each (sorted_by_name LANGUAGE_FAMILIES) [];
  let ranked := sorted_desc_by (λ x : string * scored, x.2.2) results in
  top ← ranked_at ranked 0;
  let top_score := top.2.2 in
  second_score ← (if decide (1 < length ranked)%nat
                  then second ← ranked_at ranked 1; Ok second.2.2
                  else Ok 0);
  let gap := top_score - second_score in
  let sig := if decide (15 <= gap) then STRONG
             else if decide (8 <= gap) then MODERATE_GAP
             else WEAK in
  Ok (results, ranked, gap, sig).

(** ** TEST 2: ablation ([run_ablation_analysis]) *)

(** [{k: v for k, v in scores.items() if k != drop_dim}]. *)
Definition drop_dimension (drop_dim : string) (scores : list (string * R))
    : list (string * R) :=
  filter (λ p, p.1 ≠ drop_dim) scores.

(** One entry of [ablation_results]. *)
Record ablation_row : Type := {
  drop_dim : string;
  hurrian_reduced : R;
  delta : R;
  still_first : bool
}.

(** The label printed for a row. *)
Inductive impact : Type :=
| CRITICAL
| MODERATE
| MINOR.

Definition impact_of (delta : R) : impact :=
  if decide (5 < Rabs delta) then CRITICAL
  else if decide (2 < Rabs delta) then MODERATE
  else MINOR.

(** The float operations of the ablation: [sum] of a list of floats, [/]
    by a divisor that is not zero, and [-].  How they round is left open:
    the ablation is a function of them.  The scores they are applied to are
    those [score_family] returned. *)
Record float_ops : Type := {
  float_sum : list R → R;
  float_div : R → R → R;
  float_sub : R → R → R
}.

Section Ablation.
Variable ops : float_ops.

(** [a / b]: a zero divisor raises. *)
Definition rounded_div (a b : R) : result R :=
  if decide (b = 0) then Raise ZeroDivisionError else Ok (float_div ops a b).

(** The loop over families for one dropped dimension. *)
Fixpoint ablate_families (families : list (string * family_data))
    (drop_dim : string) (all_family_scores : list (string * R))
    : result (list (string * R)) :=
  match families with
  | [] => Ok all_family_scores
  | (fname, fdata) :: rest =>
      '(scores, _) ← StatisticalControls.score_family fname fdata;
      let reduced := drop_dimension drop_dim scores in
      reduced_avg ← rounded_div (float_sum ops reduced.*2) (INR (length reduced));
      ablate_families rest drop_dim (all_family_scores ++ [(fname, reduced_avg)])
  end.

(** The loop over the dimensions to drop. *)
Fixpoint ablation_loop (dims : list string)
    (families : list (string * family_data)) (full_overall : R)
    (ablation_results : list ablation_row) : result (list ablation_row) :=
  match dims with
  | [] => Ok ablation_results
  | d :: rest =>
      all_family_scores ← ablate_families families d [];
      reduced ← lookup_item "Hurro-Urartian" all_family_scores;
      let dlt := float_sub ops reduced full_overall in
      let ranked := sorted_by_score_desc all_family_scores in
      first ← ranked_at ranked 0;
      let sf := bool_decide (first.1 = "Hurro-Urartian"%string) in
      ablation_loop rest families full_overall
        (ablation_results
         ++ [{| drop_dim := d; hurrian_reduced := reduced;
                delta := dlt; still_first := sf |}])
  end.

Definition run_ablation_analysis
    (LANGUAGE_FAMILIES : list (string * family_data))
    : result (list ablation_row) :=
  hurrian_data ← lookup_item "Hurro-Urartian" LANGUAGE_FAMILIES;
  '(full_scores, full_overall) ←
    StatisticalControls.score_family "Hurro-Urartian" hurrian_data;
  ablation_loop full_scores.*1 LANGUAGE_FAMILIES full_overall [].

End Ablation.

Inductive ablation_verdict : Type :=
| ROBUST
| LARGELY_ROBUST
| FRAGILE (critical : list string).

(** The verdict printed after the table. *)
Definition verdict_of_ablation (ablation_results : list ablation_row)
    : ablation_verdict :=
  let still_first_count := length (filter (λ r, still_first r = true) ablation_results) in
  if decide (still_first_count = length ablation_results) then ROBUST
  else if decide (Z.of_nat (length ablation_results) - 1 ≤ Z.of_nat still_first_count)%Z
       then LARGELY_ROBUST
       else FRAGILE (drop_dim <$> filter (λ r, still_first r ≠ true) ablation_results).

(** ** TEST 6: cultural weight sensitivity ([run_cultural_weight_test]) *)

Definition linguistic_dims : list string :=
  ["Vowel system"; "Structural features"; "Case system"; "Vocabulary"]%string.

Definition cultural_dims : list string :=
  ["Religious parallel"; "Geographic"; "Timeline"; "Scholarly support"]%string.

Definition scenarios : list (string * R * R) :=
  [("All dimensions (current)"%string, 1.0, 1.0);
   ("Cultural at 50% weight"%string, 1.0, 0.5);
   ("Cultural at 25% weight"%string, 1.0, 0.25);
   ("Linguistic ONLY (no cultural)"%string, 1.0, 0.0)].

(** The weighted mean of one family's score table. *)
Definition weighted_score (scores : list (string * R))
    (ling_weight cult_weight : R) : R :=
  let '(weighted_sum, weight_total) :=
    fold_left
      (fun '(weighted_sum, weight_total) '(dim, val) =>
         let w := if decide (dim ∈ cultural_dims) then cult_weight
                  else if decide (dim ∈ linguistic_dims) then ling_weight
                  else 1.0 in
         (weighted_sum + val * w, weight_total + w))
      scores (0, 0) in
  if decide (0 < weight_total) then weighted_sum / weight_total else 0.

(** The loop over families inside one scenario. *)
Fixpoint weigh_families (families : list (string * family_data))
    (ling_weight cult_weight : R) (all_family_scores : list (string * R))
    : result (list (string * R)) :=
  match families with
  | [] => Ok all_family_scores
  | (fname, fdata) :: rest =>
      '(scores, _) ← StatisticalControls.score_family fname fdata;
      weigh_families rest ling_weight cult_weight
        (all_family_scores
         ++ [(fname, weighted_score scores ling_weight cult_weight)])
  end.

(** One printed line: scenario, Hurrian score, runner-up, gap, still first. *)
Record scenario_row : Type := {
  scenario_name : string;
  hurrian_score : R;
  second : string * R;
  gap : R;
  scenario_still_first : bool
}.

Definition run_scenario (families : list (string * family_data))
    (scenario : string * R * R) : result scenario_row :=
  let '(name, ling_weight, cult_weight) := scenario in
  all_family_scores ← weigh_families families ling_weight cult_weight [];
  let ranked := sorted_by_score_desc all_family_scores in
  hurrian ← lookup_item "Hurro-Urartian" all_family_scores;
  first ← ranked_at ranked 0;
  snd_entry ← (if decide (first.1 = "Hurro-Urartian"%string)
               then ranked_at ranked 1 else ranked_at ranked 0);
  Ok {| scenario_name := name; hurrian_score := hurrian; second := snd_entry;
        gap := hurrian - snd_entry.2;
        scenario_still_first := bool_decide (first.1 = "Hurro-Urartian"%string) |}.

(** The function returns [True]; the model returns the lines it prints. *)
Definition run_cultural_weight_test
    (LANGUAGE_FAMILIES : list (string * family_data))
    : result (list scenario_row) :=
  hurrian_data ← lookup_item "Hurro-Urartian" LANGUAGE_FAMILIES;
  _ ← StatisticalControls.score_family "Hurro-Urartian" hurrian_data;
  map_result (run_scenario LANGUAGE_FAMILIES) scenarios.

(** ** The perturbed copy of a profile ([run_perturbation_test]) *)

(** [p_data = dict(fdata); p_data["features"] = p_features]. *)
Definition with_features (fdata : family_data) (p_features : gmap string bool)
    : family_data :=
  {| vowels := vowels fdata; hattusha_vowels := hattusha_vowels fdata;
     features := Some p_features;
     case_similarity := case_similarity fdata;
     vocabulary_matches := vocabulary_matches fdata;
     geographic_plausibility := geographic_plausibility fdata;
     timeline_fit := timeline_fit fdata;
     scholarly_support := scholarly_support fdata;
     religious_parallel := religious_parallel fdata |}.

(** * Vocabulary of the statements

    The definitions below are not in the source: they name the properties
    the theorems state, and the concrete inputs they are evaluated on. *)

(** ** Scores and profiles *)

(** A percentage score. *)
Definition in_range (x : R) : Prop := 0 <= x <= 100.

(** The labels of the score table, in insertion order. *)
Definition dimension_labels : list string :=
  ["Vowel system"; "Structural features"; "Case system"; "Vocabulary";
   "Geographic"; "Timeline"; "Scholarly support"; "Religious parallel"].

(** The stored numeric entries of a profile are percentages. *)
Definition entries_in_range (fd : family_data) : Prop :=
  (∀ m, case_similarity fd = Some m → map_Forall (λ _ v, in_range v) m) ∧
  (∀ m, vocabulary_matches fd = Some m → map_Forall (λ _ v, in_range v) m) ∧
  (∀ x, geographic_plausibility fd = Some x → in_range x) ∧
  (∀ x, timeline_fit fd = Some x → in_range x) ∧
  (∀ x, scholarly_support fd = Some x → in_range x) ∧
  (∀ x, religious_parallel fd = Some x → in_range x).

(** Every section the pipeline reads is present, and the two averaged maps
    have an entry. *)
Definition complete (fd : family_data) : Prop :=
  is_ok (best_vowels fd) ∧
  is_Some (features fd) ∧
  (∃ m, case_similarity fd = Some m ∧ m ≠ ∅) ∧
  (∃ m, vocabulary_matches fd = Some m ∧ m ≠ ∅) ∧
  is_Some (geographic_plausibility fd) ∧
  is_Some (timeline_fit fd) ∧
  is_Some (scholarly_support fd) ∧
  is_Some (religious_parallel fd).

(** One of the three maps is absent. *)
Definition missing_section (fd : family_data) : Prop :=
  features fd = None ∨ case_similarity fd = None ∨ vocabulary_matches fd = None.

(** The score a given vowel distribution yields. *)
Definition vowel_score (reference : gmap string R) : R :=
  Rmin 100 (Rmax 0 (100 - vowel_distance LINEAR_A_vowels reference * 500)).

(** A candidate whose main distribution is the target's own and whose
    variant distribution has only ["a"], at half the target's weight. *)
Definition halved_a : gmap string R := {[ "a"%string := 21.65 ]}.

Definition variant_profile : family_data := {|
  vowels := Some LINEAR_A_vowels;
  hattusha_vowels := Some halved_a;
  features := None;
  case_similarity := None;
  vocabulary_matches := None;
  geographic_plausibility := None;
  timeline_fit := None;
  scholarly_support := None;
  religious_parallel := None
|}.

(** The candidate's value of a target feature equals the target's. *)
Definition feature_matches (feats : gmap string bool) (p : string * bool) : Prop :=
  feats !! p.1 = Some p.2.

#[global] Instance feature_matches_dec feats p : Decision (feature_matches feats p) :=
  decide (feats !! p.1 = Some p.2).

Definition matching_features (feats : gmap string bool)
    (target : list (string * bool)) : list (string * bool) :=
  filter (feature_matches feats) target.

(** ** Generators *)

(** What the engines rely on from [random.randint(a, b)]: a value of the
    closed range.  That the value is uniform is the library's business and
    is not expressed here. *)
Definition randint_contract {G} (randint : Z → Z → G → Z * G) : Prop :=
  ∀ a b g, (a ≤ b)%Z → (a ≤ (randint a b g).1 ≤ b)%Z.

(** What the engines rely on from [random.sample(range(n), k)]: [k]
    distinct positions. *)
Definition sample_contract {G} (sample_range : nat → Z → G → result (list Z * G))
    : Prop :=
  ∀ n k g, (0 ≤ k ≤ Z.of_nat n)%Z →
    ∃ l g', sample_range n k g = Ok (l, g') ∧
            Z.of_nat (length l) = k ∧ NoDup l ∧
            Forall (λ i, (0 ≤ i < Z.of_nat n)%Z) l.

(** A generator whose state is a counter: [randint a b] walks through the
    range. *)
Definition counter_randint (a b : Z) (g : nat) : Z * nat :=
  ((a + Z.of_nat g `mod` (b - a + 1))%Z, S g).

(** A generator whose state is a counter and whose results repeat within
    a range of eight: the same position is drawn more than once in a
    trial. *)
Definition quadratic_randint (a b : Z) (g : nat) : Z * nat :=
  ((a + (Z.of_nat (g * g) / 3) `mod` (b - a + 1))%Z, S g).

(** The results of [k] successive calls [random.randint(a, b)] from the
    state [g], the first call first, and the state the last call leaves. *)
Fixpoint randint_calls {G} (randint : Z → Z → G → Z * G) (a b : Z) (k : nat)
    (g : G) : list Z * G :=
  match k with
  | O => ([], g)
  | S k' =>
      let call := randint a b g in
      let later := randint_calls randint a b k' call.2 in
      (call.1 :: later.1, later.2)
  end.

(** The [i]-th block of [n] entries of a list, blocks counted from 0. *)
Definition block {A} (n i : nat) (l : list A) : list A :=
  take n (drop (i * n) l).

(** A sampler that takes the first [k] positions and leaves the state. *)
Definition sample_first (n : nat) (k : Z) (g : unit) : result (list Z * unit) :=
  if decide (0 ≤ k ≤ Z.of_nat n)%Z
  then Ok (Z.of_nat <$> seq 0 (Z.to_nat k), g)
  else Raise ValueError.

(** ** Bootstrap *)

(** An index list of one trial: as many indices as dimensions, each a
    position of the score vector. *)
Definition valid_indices (n_dims : nat) (indices : list Z) : Prop :=
  length indices = n_dims ∧
  Forall (λ i, (0 ≤ i < Z.of_nat n_dims)%Z) indices.

(** Every family of the table goes through the pipeline. *)
Definition all_scored (families : list (string * family_data)) : Prop :=
  Forall (λ p, is_ok (StatisticalControls.score_family p.1 p.2)) families.

(** A table with the one family the engine names. *)
Definition one_family : list (string * family_data) :=
  [("Hurro-Urartian"%string, Hurro_Urartian)].

(** ** Bayesian update *)

Definition open_unit (p : R) : Prop := 0 < p < 1.

(** The likelihood ratio clamped into the band, the odds of a probability
    and back, and one update, as the specification words them. *)
Definition clamp_lr (lr : R) : R := Rmax 0.5 (Rmin lr 5.0).
Definition odds (p : R) : R := p / (1 - p).
Definition of_odds (o : R) : R := o / (1 + o).
Definition posterior_step (p lr : R) : R := of_odds (odds p * clamp_lr lr).

(** The posterior after each domain in turn. *)
Fixpoint posterior_trace (p : R) (domain_results : list (string * (R * R)))
    : list R :=
  match domain_results with
  | [] => []
  | (_, (_, lr)) :: rest =>
      posterior_step p lr :: posterior_trace (posterior_step p lr) rest
  end.

(** The product of the clamped ratios of a list of domains. *)
Definition clamped_product (domain_results : list (string * (R * R))) : R :=
  foldr (λ d acc, clamp_lr d.2.2 * acc) 1 domain_results.

(** Two evidence domains: name, diagnostic score, likelihood ratio. *)
Definition two_domains : list (string * (R * R)) :=
  [("1. Linguistic"%string, (72, 3.6)); ("2. Archaeogenetic"%string, (65, 2.2))].

(** A probability, the ends included. *)
Definition closed_unit (p : R) : Prop := 0 <= p <= 1.

(** The ratio an update uses. *)
Definition clamped {F} `{Arithmetic F} (lr : F) : F :=
  py_max fl_0_5 (py_min lr fl_5_0).

(** The ratios a run uses, in order. *)
Definition clamped_ratios {F} `{Arithmetic F}
    (domain_results : list (string * (F * F))) : list F :=
  (λ d, clamped d.2.2) <$> domain_results.

(** What the engine relies on from the arithmetic, stated for IEEE 754
    binary64 on finite values without overflow: every value is a real
    number ([val]); an operation returns the exact result rounded
    ([rnd]); rounding is monotone and leaves the values of the arithmetic
    where they are; 0, 1, 0.5 and 5 are values of the arithmetic; a
    difference is zero only of equal values; comparisons are those of the
    reals.  The arithmetic of the reals meets it with no rounding at
    all. *)
Record rounding_contract {F} `{Arithmetic F} (val : F → R) (rnd : R → R)
    : Prop := {
  rnd_monotone : ∀ x y, x <= y → rnd x <= rnd y;
  rnd_value : ∀ a, rnd (val a) = val a;
  val_0 : val fl_0 = 0;
  val_1 : val fl_1 = 1;
  val_0_5 : val fl_0_5 = 0.5;
  val_5_0 : val fl_5_0 = 5;
  val_add : ∀ a b, val (fl_add a b) = rnd (val a + val b);
  val_sub : ∀ a b, val (fl_sub a b) = rnd (val a - val b);
  val_mul : ∀ a b, val (fl_mul a b) = rnd (val a * val b);
  val_div : ∀ a b, val b ≠ 0 → val (fl_div a b) = rnd (val a / val b);
  sub_zero : ∀ a b, val (fl_sub a b) = 0 → val a = val b;
  lt_val : ∀ a b, fl_lt a b = true ↔ val a < val b;
  eq_val : ∀ a b, fl_eq a b = true ↔ val a = val b
}.

(** [n] domains of likelihood ratio 5.0, named A, B, C, ... *)
Definition strong_domains (n : nat) : list (string * (float * float)) :=
  (λ i, (String (Ascii.ascii_of_nat (65 + i)) EmptyString,
         (90%float, 5.0%float))) <$> seq 0 n.

(** Two evidence domains in the code's arithmetic. *)
Definition two_float_domains : list (string * (float * float)) :=
  [("1. Linguistic"%string, (72%float, 3.6%float));
   ("2. Archaeogenetic"%string, (65%float, 2.2%float))].

(** Two domains whose ratios both exceed the band. *)
Definition capped_domains : list (string * (float * float)) :=
  [("1. Linguistic"%string, (72%float, 7.5%float));
   ("2. Archaeogenetic"%string, (65%float, 6.0%float))].

(** Two domains whose ratios multiply to 9. *)
Definition edge_domains : list (string * (float * float)) :=
  [("1. Linguistic"%string, (72%float, 4.5%float));
   ("2. Archaeogenetic"%string, (65%float, 2.0%float))].

(** A fixed-point arithmetic: the multiples of 1/1024, an operation
    rounding to the nearest one, a tie upwards. *)
Definition fixed_div (a b : Z) : Z :=
  if (0 <? b)%Z then ((2048 * a + b) / (2 * b))%Z
  else ((- 2048 * a - b) / (- 2 * b))%Z.

#[global] Instance fixed_point : Arithmetic Z := {|
  fl_0 := 0%Z;
  fl_1 := 1024%Z;
  fl_0_10 := 102%Z;
  fl_0_5 := 512%Z;
  fl_5_0 := 5120%Z;
  fl_0_95 := 973%Z;
  fl_0_85 := 870%Z;
  fl_0_70 := 717%Z;
  fl_add := Z.add;
  fl_sub := Z.sub;
  fl_mul := λ a b, ((a * b + 512) / 1024)%Z;
  fl_div := fixed_div;
  fl_lt := Z.ltb;
  fl_le := Z.leb;
  fl_eq := Z.eqb
|}.

Definition fixed_val (a : Z) : R := IZR a / 1024.
Definition fixed_rnd (x : R) : R := IZR (Int_part (x * 1024 + 1 / 2)) / 1024.

Definition fixed_domains (n : nat) : list (string * (Z * Z)) :=
  (λ i, (String (Ascii.ascii_of_nat (65 + i)) EmptyString,
         (92160, 5120)%Z)) <$> seq 0 n.

(** ** Statements about the other engines *)

(** The five vowels [vowel_distance] runs over. *)
Definition five_vowels : list string := ["a"; "i"; "u"; "e"; "o"]%string.

(** The reference weight of a vowel is absent or not positive, or it is at
    least the target's. *)
Definition dominates (target reference : gmap string R) (v : string) : Prop :=
  get0 reference v <= 0 ∨ get0 target v <= get0 reference v.

(** A candidate whose vowel weights all exceed the target's. *)
Definition generous_vowels : gmap string R :=
  list_to_map [("a", 45); ("i", 21); ("u", 18); ("e", 15); ("o", 5)]%string.

Definition generous_vowels_profile : family_data := {|
  vowels := Some generous_vowels;
  hattusha_vowels := None;
  features := None;
  case_similarity := None;
  vocabulary_matches := None;
  geographic_plausibility := None;
  timeline_fit := None;
  scholarly_support := None;
  religious_parallel := None
|}.

(** Every list of scores held in a table consists of percentages. *)
Definition lists_in_range (table : gmap string (list R)) : Prop :=
  map_Forall (λ _ l, Forall in_range l) table.

(** The operations without rounding. *)
Definition exact_ops : float_ops :=
  {| float_sum := py_sum; float_div := Rdiv; float_sub := Rminus |}.

(** Operations that round a quotient to the nearest whole number. *)
Definition whole_ops : float_ops :=
  {| float_sum := py_sum;
     float_div := λ a b, IZR (Int_part (a / b + 1 / 2));
     float_sub := Rminus |}.

(** [r] is the mean the ablation computes for the family without the
    dimension [d]: the float sum of the scores of the other dimensions,
    divided by their number. *)
Definition reduced_average (ops : float_ops) (fam : string * family_data)
    (d : string) (r : R) : Prop :=
  ∃ scores overall,
    StatisticalControls.score_family fam.1 fam.2 = Ok (scores, overall) ∧
    rounded_div ops (float_sum ops (filter (λ p, p.1 ≠ d) scores).*2)
      (INR (length (filter (λ p, p.1 ≠ d) scores))) = Ok r.

(** What a row of the ablation table says, for the table of families it
    was computed from: every mean is the one the ablation computed. *)
Definition ablation_row_ok (ops : float_ops)
    (families : list (string * family_data))
    (hurrian : string * family_data) (overall : R) (row : ablation_row) : Prop :=
  reduced_average ops hurrian (drop_dim row) (hurrian_reduced row) ∧
  delta row = float_sub ops (hurrian_reduced row) overall ∧
  (still_first row = true →
   ∀ fam r, fam ∈ families → reduced_average ops fam (drop_dim row) r →
            r <= hurrian_reduced row) ∧
  ((∀ fam r, fam ∈ families → fam.1 ≠ "Hurro-Urartian"%string →
             reduced_average ops fam (drop_dim row) r →
             r < hurrian_reduced row) →
   still_first row = true).

(** The plain mean of the scores a table holds for a group of dimensions. *)
Definition group_mean (dims : list string) (scores : list (string * R)) : R :=
  py_sum (filter (λ p, p.1 ∈ dims) scores).*2 / INR (length dims).

(** [r] is the weighted score of the family under the two weights. *)
Definition weighted_average (fam : string * family_data)
    (ling_weight cult_weight r : R) : Prop :=
  ∃ scores overall,
    StatisticalControls.score_family fam.1 fam.2 = Ok (scores, overall) ∧
    r = weighted_score scores ling_weight cult_weight.

(** What a line of the weight-sensitivity table says. *)
Definition scenario_row_ok (families : list (string * family_data))
    (hurrian : string * family_data) (scenario : string * R * R)
    (row : scenario_row) : Prop :=
  scenario_name row = scenario.1.1 ∧
  weighted_average hurrian scenario.1.2 scenario.2 (hurrian_score row) ∧
  (∃ fam, fam ∈ families ∧ fam.1 ≠ "Hurro-Urartian"%string ∧
          (second row).1 = fam.1 ∧
          weighted_average fam scenario.1.2 scenario.2 (second row).2) ∧
  (∀ fam r, fam ∈ families → fam.1 ≠ "Hurro-Urartian"%string →
            weighted_average fam scenario.1.2 scenario.2 r →
            r <= (second row).2) ∧
  gap row = hurrian_score row - (second row).2 ∧
  (0 < gap row → scenario_still_first row = true) ∧
  (scenario_still_first row = true → 0 <= gap row).

(** One pass of the flip loop on a feature name. *)
Definition flipped (feat : string) (p_features : gmap string bool)
    : gmap string bool :=
  match p_features !! feat with
  | Some b => <[feat := negb b]> p_features
  | None => p_features
  end.

(** A table with two families of the source. *)
Definition two_families : list (string * family_data) :=
  [("Hurro-Urartian"%string, Hurro_Urartian); ("Semitic"%string, Semitic)].

(** The first entry of [EXPANDED_VOCABULARY]. *)
Definition first_vocabulary_item : ControlValidation.vocabulary_item :=
  {| ControlValidation.linear_a := "A-TA-I";
     ControlValidation.meaning := "father/divine father";
     ControlValidation.scores := list_to_map
       [("Hurro-Urartian", 95); ("Semitic", 40); ("Anatolian_IE", 55);
        ("Kartvelian", 15); ("Egyptian", 20); ("Tyrsenian", 35);
        ("Linear_B", 30)]%string |}.

(** A complete profile whose case-similarity map is empty. *)
Definition no_cases_profile : family_data := {|
  vowels := vowels Hurro_Urartian;
  hattusha_vowels := hattusha_vowels Hurro_Urartian;
  features := features Hurro_Urartian;
  case_similarity := Some ∅;
  vocabulary_matches := vocabulary_matches Hurro_Urartian;
  geographic_plausibility := geographic_plausibility Hurro_Urartian;
  timeline_fit := timeline_fit Hurro_Urartian;
  scholarly_support := scholarly_support Hurro_Urartian;
  religious_parallel := religious_parallel Hurro_Urartian
|}.

(** * Proofs *)

(** ** The result monad and sums *)

Lemma bind_Ok {A B} (m : result A) (k : A → result B) (r : B) :
  m ≫= k = Ok r ↔ ∃ a, m = Ok a ∧ k a = Ok r.
Proof.
  destruct m as [a|e]; simpl; split.
  - intros H. exists a. done.
  - intros (a' & [= <-] & H). done.
  - intros H. discriminate H.
  - intros (a' & H & _). discriminate H.
Qed.

Lemma py_div_Ok a b q : py_div a b = Ok q ↔ b ≠ 0 ∧ q = a / b.
Proof.
  unfold py_div. destruct (decide (b = 0)) as [Hb|Hb]; split.
  - intros H; discriminate H.
  - intros [Hn _]. contradiction.
  - intros [= <-]. done.
  - intros [_ ->]. done.
Qed.

Lemma fold_left_Rplus_acc xs a : fold_left Rplus xs a = a + fold_left Rplus xs 0.
Proof.
  revert a. induction xs as [|x xs IH]; intros a; simpl.
  - lra.
  - rewrite (IH (a + x)), (IH (0 + x)). lra.
Qed.

Lemma py_sum_cons x xs : py_sum (x :: xs) = x + py_sum xs.
Proof.
  unfold py_sum. simpl. rewrite fold_left_Rplus_acc. lra.
Qed.

Lemma py_sum_nil : py_sum [] = 0.
Proof. reflexivity. Qed.

Lemma py_sum_bounds xs :
  Forall in_range xs → 0 <= py_sum xs <= 100 * INR (length xs).
Proof.
  induction 1 as [|x xs Hx _ IH].
  - rewrite py_sum_nil. simpl. lra.
  - rewrite py_sum_cons. rewrite length_cons, S_INR. unfold in_range in Hx. lra.
Qed.

Lemma mean_in_range xs m :
  Forall in_range xs → py_div (py_sum xs) (INR (length xs)) = Ok m → in_range m.
Proof.
  intros Hxs [Hn ->]%py_div_Ok.
  pose proof (py_sum_bounds xs Hxs) as [Hlo Hhi].
  assert (0 < INR (length xs)) as Hpos.
  { pose proof (pos_INR (length xs)). lra. }
  split.
  - apply Rmult_le_pos; [done|]. left. by apply Rinv_0_lt_compat.
  - apply (Rmult_le_reg_r (INR (length xs))); [done|].
    unfold Rdiv. rewrite Rmult_assoc, Rinv_l by done. lra.
Qed.

Lemma values_Forall {A} (P : A → Prop) (d : gmap string A) :
  map_Forall (λ _ v, P v) d → Forall P (values d).
Proof.
  intros H. unfold values. apply Forall_fmap, Forall_forall.
  intros [k v] Hin%elem_of_map_to_list. simpl. by apply (H k).
Qed.

Lemma values_length {A} (d : gmap string A) : length (values d) = len d.
Proof. unfold values, len. rewrite length_fmap. apply length_map_to_list. Qed.

(** ** The feature and vowel scorers *)

Lemma count_feature_matches_spec fd feats target m :
  features fd = Some feats →
  count_feature_matches fd target m
  = Ok (m + length (matching_features feats target))%nat.
Proof.
  intros Hf. revert m. induction target as [|[feat v] rest IH]; intros m.
  - simpl. f_equal. lia.
  - simpl. rewrite Hf. simpl. rewrite IH.
    unfold matching_features. rewrite filter_cons. unfold feature_matches at 2. simpl.
    f_equal. case_bool_decide; case_decide; try contradiction; simpl; lia.
Qed.

Lemma matching_features_length feats target :
  (length (matching_features feats target) ≤ length target)%nat.
Proof. apply length_filter. Qed.

Lemma matching_features_all feats target :
  length (matching_features feats target) = length target
  ↔ Forall (feature_matches feats) target.
Proof.
  unfold matching_features. induction target as [|p rest IH].
  - split; [constructor|done].
  - rewrite filter_cons. pose proof (length_filter (feature_matches feats) rest) as Hle.
    case_decide as Hp; simpl.
    + split.
      * intros [= H]. constructor; [done|]. by apply IH.
      * intros H. inversion H; subst. f_equal. by apply IH.
    + split.
      * intros H. lia.
      * intros H. inversion H; subst. contradiction.
Qed.

Lemma score_features_spec fd feats :
  features fd = Some feats →
  score_features fd
  = Ok (INR (length (matching_features feats LINEAR_A_features))
        / INR (length LINEAR_A_features) * 100).
Proof.
  intros Hf. unfold score_features.
  rewrite (count_feature_matches_spec fd feats _ _ Hf). simpl mbind.
  unfold mbind, result_bind.
  replace (0 + length (matching_features feats LINEAR_A_features))%nat
    with (length (matching_features feats LINEAR_A_features)) by lia.
  unfold py_div. case_decide as Hz; [|done].
  exfalso. change (length LINEAR_A_features) with 14%nat in Hz. simpl in Hz. lra.
Qed.

Lemma count_feature_matches_missing fd p rest m :
  features fd = None →
  count_feature_matches fd (p :: rest) m = Raise (KeyError "features").
Proof.
  intros H. destruct p as [feat la_val]. cbn [count_feature_matches].
  rewrite H. reflexivity.
Qed.

Lemma score_features_missing fd :
  features fd = None → score_features fd = Raise (KeyError "features").
Proof.
  intros H. unfold score_features, LINEAR_A_features.
  rewrite count_feature_matches_missing by done. reflexivity.
Qed.

Lemma score_features_in_range fd s : score_features fd = Ok s → in_range s.
Proof.
  destruct (features fd) as [feats|] eqn:Hf.
  - rewrite (score_features_spec fd feats Hf). intros [= <-].
    pose proof (matching_features_length feats LINEAR_A_features) as Hle.
    apply le_INR in Hle.
    pose proof (pos_INR (length (matching_features feats LINEAR_A_features))) as Hge.
    change (length LINEAR_A_features) with 14%nat in *.
    replace (INR 14) with 14 in * by (simpl; lra).
    unfold in_range. lra.
  - rewrite score_features_missing by done. discriminate.
Qed.

Lemma score_vowels_in_range fd s : score_vowels fd = Ok s → in_range s.
Proof.
  unfold score_vowels. intros (bv & _ & [= <-])%bind_Ok.
  split.
  - apply Rmin_glb; [lra | apply Rmax_l].
  - apply Rmin_l.
Qed.

(** ** The variant vowel distribution (C2) *)

Lemma LA_a : get0 LINEAR_A_vowels "a" = 43.3. Proof. reflexivity. Qed.
Lemma LA_i : get0 LINEAR_A_vowels "i" = 20.6. Proof. reflexivity. Qed.
Lemma LA_u : get0 LINEAR_A_vowels "u" = 17.5. Proof. reflexivity. Qed.
Lemma LA_e : get0 LINEAR_A_vowels "e" = 14.4. Proof. reflexivity. Qed.
Lemma LA_o : get0 LINEAR_A_vowels "o" = 4.1. Proof. reflexivity. Qed.

Lemma log2_1 : log2 1 = 0.
Proof. unfold log2. rewrite ln_1. lra. Qed.

Lemma log2_2 : log2 2 = 1.
Proof.
  unfold log2. apply Rinv_r.
  pose proof (ln_lt_2). lra.
Qed.

Lemma vowel_distance_self : vowel_distance LINEAR_A_vowels LINEAR_A_vowels = 0.
Proof.
  unfold vowel_distance. simpl.
  rewrite LA_a, LA_i, LA_u, LA_e, LA_o.
  repeat (rewrite bool_decide_eq_true_2 by lra). simpl.
  assert (∀ x, 0 < x → x / x = 1) as Hxx by (intros x Hx; field; lra).
  rewrite !Hxx by lra. rewrite log2_1. lra.
Qed.

Lemma vowel_distance_halved : vowel_distance LINEAR_A_vowels halved_a = 0.433.
Proof.
  unfold vowel_distance. simpl.
  rewrite LA_a, LA_i, LA_u, LA_e, LA_o.
  change (get0 halved_a "a") with 21.65.
  change (get0 halved_a "i") with 0.
  change (get0 halved_a "u") with 0.
  change (get0 halved_a "e") with 0.
  change (get0 halved_a "o") with 0.
  rewrite (bool_decide_eq_true_2 (0 < 43.3 / 100)) by lra.
  rewrite (bool_decide_eq_true_2 (0 < 21.65 / 100)) by lra.
  rewrite (bool_decide_eq_false_2 (0 < 0 / 100)) by lra.
  simpl. repeat rewrite andb_false_r.
  replace (43.3 / 100 / (21.65 / 100)) with 2 by lra.
  rewrite log2_2. lra.
Qed.

(** C2, counterexample.  The candidate [variant_profile] has the target's
    own distribution as its main one (score 100) and a variant that scores 0;
    [score_vowels] returns 0, not the maximum of the two. *)
Lemma hattusha_not_best_case :
  vowels variant_profile = Some LINEAR_A_vowels ∧
  hattusha_vowels variant_profile = Some halved_a ∧
  vowel_score LINEAR_A_vowels = 100 ∧
  vowel_score halved_a = 0 ∧
  score_vowels variant_profile = Ok 0 ∧
  score_vowels variant_profile
  ≠ Ok (Rmax (vowel_score LINEAR_A_vowels) (vowel_score halved_a)).
Proof.
  assert (vowel_score LINEAR_A_vowels = 100) as H1.
  { unfold vowel_score. rewrite vowel_distance_self.
    rewrite Rmax_right by lra. apply Rmin_left. lra. }
  assert (vowel_score halved_a = 0) as H2.
  { unfold vowel_score. rewrite vowel_distance_halved.
    rewrite Rmax_left by lra. apply Rmin_right. lra. }
  assert (score_vowels variant_profile = Ok 0) as H3.
  { unfold score_vowels.
    replace (best_vowels variant_profile) with (Ok halved_a) by reflexivity.
    simpl. f_equal. exact H2. }
  repeat split; try done.
  rewrite H3, H1, H2. rewrite Rmax_left by lra. intros [= H]. lra.
Qed.

Lemma nonempty_truthy {A} (d : gmap string A) : d ≠ ∅ → truthy d = true.
Proof.
  intros Hne. unfold truthy. apply bool_decide_eq_true_2.
  intros Hs. apply Hne. by apply map_size_empty_iff.
Qed.

Lemma empty_not_truthy {A} : truthy (∅ : gmap string A) = false.
Proof. reflexivity. Qed.

(** C2, amended.  For every candidate with a main and a variant
    distribution, the vowel score is the one the variant yields whenever the
    variant has an entry, whatever the main distribution would yield; the
    main distribution is used only when the variant is empty. *)
Theorem score_vowels_uses_hattusha (fd : family_data)
    (main alt : gmap string R) :
  vowels fd = Some main →
  hattusha_vowels fd = Some alt →
  score_vowels fd
  = Ok (if decide (alt = ∅) then vowel_score main else vowel_score alt).
Proof.
  intros Hmain Halt. unfold score_vowels, best_vowels. rewrite Halt, Hmain.
  destruct (decide (alt = ∅)) as [->|Hne].
  - rewrite empty_not_truthy. reflexivity.
  - rewrite nonempty_truthy by done. reflexivity.
Qed.

Lemma score_vowels_uses_hattusha_witness :
  ∃ main alt,
    vowels Hurro_Urartian = Some main ∧
    hattusha_vowels Hurro_Urartian = Some alt ∧
    alt !! "a"%string = Some 38 ∧
    score_vowels Hurro_Urartian = Ok (vowel_score alt).
Proof.
  eexists _, _. split; [reflexivity|]. split; [reflexivity|].
  split; [reflexivity|].
  exact (score_vowels_uses_hattusha Hurro_Urartian _ _ eq_refl eq_refl).
Defined.

(** ** Ranges of the scores (C1) *)

Lemma getitem_Ok {A} key (field : option A) v :
  getitem key field = Ok v ↔ field = Some v.
Proof. destruct field; simpl; split; intros [= ->]; done. Qed.

Lemma dict_mean_in_range (d : gmap string R) m :
  map_Forall (λ _ v, in_range v) d →
  py_div (py_sum (values d)) (INR (len d)) = Ok m → in_range m.
Proof.
  intros Hd. rewrite <- values_length. apply mean_in_range.
  by apply values_Forall.
Qed.

Lemma dict_mean_ok (d : gmap string R) :
  d ≠ ∅ → is_ok (py_div (py_sum (values d)) (INR (len d))).
Proof.
  intros Hne. unfold py_div. case_decide as Hz; [|done].
  exfalso. apply Hne. apply map_size_empty_iff.
  unfold len in Hz. apply INR_eq. simpl. exact Hz.
Qed.

Lemma score_cases_in_range fd s :
  entries_in_range fd → score_cases fd = Ok s → in_range s.
Proof.
  intros (Hc & _) (sims & Hs%getitem_Ok & Hm)%bind_Ok.
  eapply dict_mean_in_range; [|done]. by apply Hc.
Qed.

Lemma score_vocabulary_in_range fd s :
  entries_in_range fd → StatisticalControls.score_vocabulary fd = Ok s → in_range s.
Proof.
  intros (_ & Hv & _) (sims & Hs%getitem_Ok & Hm)%bind_Ok.
  eapply dict_mean_in_range; [|done]. by apply Hv.
Qed.

Lemma is_ok_Ok {A} (r : result A) : is_ok r ↔ ∃ a, r = Ok a.
Proof.
  destruct r; simpl; split; try done.
  - intros _. by eexists.
  - intros [a H]. discriminate H.
Qed.

Lemma score_features_ok fd : is_Some (features fd) → is_ok (score_features fd).
Proof.
  intros [feats Hf]. by rewrite (score_features_spec fd feats Hf).
Qed.

Lemma score_family_total (family_name : string) (fd : family_data) :
  complete fd → is_ok (StatisticalControls.score_family family_name fd).
Proof.
  intros (Hv & Hf & (mc & Hc & Hcne) & (mv & Hvo & Hvne) & Hg & Ht & Hs & Hrel).
  unfold StatisticalControls.score_family.
  apply is_ok_Ok in Hv as [bv Hbv]. unfold score_vowels. rewrite Hbv. simpl.
  apply score_features_ok, is_ok_Ok in Hf as [sf ->]. simpl.
  unfold score_cases. rewrite Hc. simpl.
  pose proof (dict_mean_ok mc Hcne) as [x ->]%is_ok_Ok. simpl.
  unfold StatisticalControls.score_vocabulary. rewrite Hvo. simpl.
  pose proof (dict_mean_ok mv Hvne) as [y ->]%is_ok_Ok. simpl.
  destruct Hg as [? ->], Ht as [? ->], Hs as [? ->], Hrel as [? ->]. simpl.
  unfold py_div. case_decide as Hz; [exfalso; lra | done].
Qed.

(** The shape of a successful run of [score_family]: the eight scores, under
    their labels, and the mean of the eight. *)
Lemma score_family_Ok (family_name : string) (fd : family_data) scores overall :
  StatisticalControls.score_family family_name fd = Ok (scores, overall) →
  ∃ s1 s2 s3 s4 s5 s6 s7 s8,
    score_vowels fd = Ok s1 ∧ score_features fd = Ok s2 ∧
    score_cases fd = Ok s3 ∧ StatisticalControls.score_vocabulary fd = Ok s4 ∧
    geographic_plausibility fd = Some s5 ∧ timeline_fit fd = Some s6 ∧
    scholarly_support fd = Some s7 ∧ religious_parallel fd = Some s8 ∧
    scores = zip dimension_labels [s1; s2; s3; s4; s5; s6; s7; s8] ∧
    py_div (py_sum [s1; s2; s3; s4; s5; s6; s7; s8]) (INR 8) = Ok overall.
Proof.
  unfold StatisticalControls.score_family.
  intros (s1 & H1 & (s2 & H2 & (s3 & H3 & (s4 & H4 & (s5 & H5%getitem_Ok &
          (s6 & H6%getitem_Ok & (s7 & H7%getitem_Ok & (s8 & H8%getitem_Ok &
          (ov & Hov & [= <- <-])%bind_Ok)%bind_Ok)%bind_Ok)%bind_Ok)%bind_Ok)
          %bind_Ok)%bind_Ok)%bind_Ok)%bind_Ok.
  exists s1, s2, s3, s4, s5, s6, s7, s8. by repeat split.
Qed.

(** C1.  For every candidate profile whose stored numeric entries (case
    similarities, vocabulary matches, the four contextual scalars) lie in
    [0,100]: a complete profile is scored; every score a dimension scorer
    returns lies in [0,100]; and whenever [score_family] returns, its table
    holds the eight dimension scores, each in [0,100], and the unweighted
    overall mean lies in [0,100]. *)
Theorem score_family_in_range (family_name : string) (fd : family_data) :
  entries_in_range fd →
  (complete fd → is_ok (StatisticalControls.score_family family_name fd)) ∧
  (∀ s, score_vowels fd = Ok s ∨ score_features fd = Ok s ∨
        score_cases fd = Ok s ∨ StatisticalControls.score_vocabulary fd = Ok s →
        in_range s) ∧
  (∀ scores overall,
     StatisticalControls.score_family family_name fd = Ok (scores, overall) →
     scores.*1 = dimension_labels ∧
     Forall (λ p, in_range p.2) scores ∧
     in_range overall).
Proof.
  intros Hr. split; [apply score_family_total|]. split.
  - intros s [H|[H|[H|H]]].
    + by eapply score_vowels_in_range.
    + by eapply score_features_in_range.
    + by eapply score_cases_in_range.
    + by eapply score_vocabulary_in_range.
  - intros scores overall
      (s1 & s2 & s3 & s4 & s5 & s6 & s7 & s8 & H1 & H2 & H3 & H4 & H5 & H6 &
       H7 & H8 & -> & Hov)%score_family_Ok.
    pose proof Hr as (Hc & Hv & Hg & Ht & Hs & Hrel).
    assert (Forall in_range [s1; s2; s3; s4; s5; s6; s7; s8]) as Hall.
    { repeat (apply List.Forall_cons); try apply List.Forall_nil.
      - by eapply score_vowels_in_range.
      - by eapply score_features_in_range.
      - by eapply score_cases_in_range.
      - by eapply score_vocabulary_in_range.
      - by apply Hg.
      - by apply Ht.
      - by apply Hs.
      - by apply Hrel. }
    split; [reflexivity|]. split.
    + cbn [zip zip_with dimension_labels].
      repeat (apply List.Forall_cons); try apply List.Forall_nil; cbn [snd];
        rewrite Forall_forall in Hall; apply Hall; set_solver.
    + eapply mean_in_range; [exact Hall|exact Hov].
Qed.

Lemma map_Forall_list_to_map {A} (P : A → Prop) (l : list (string * A)) :
  Forall (λ p, P p.2) l → map_Forall (λ _ v, P v) (list_to_map l : gmap string A).
Proof.
  intros Hl k v Hkv. apply elem_of_list_to_map_2 in Hkv.
  rewrite Forall_forall in Hl. by apply (Hl (k, v)).
Qed.

Lemma Hurro_Urartian_in_range : entries_in_range Hurro_Urartian.
Proof.
  unfold entries_in_range, Hurro_Urartian;
    cbn [case_similarity vocabulary_matches geographic_plausibility
         timeline_fit scholarly_support religious_parallel].
  refine (conj _ (conj _ (conj _ (conj _ (conj _ _)))));
    try (intros ? [= <-]; unfold in_range; lra).
  all: intros m [= <-]; repeat (apply map_Forall_insert_2);
       try apply map_Forall_empty; unfold in_range; lra.
Qed.

Lemma Hurro_Urartian_complete : complete Hurro_Urartian.
Proof.
  unfold complete, Hurro_Urartian; simpl.
  repeat split; by eexists.
Qed.

(** The hypotheses of C1 hold of the Hurro-Urartian profile, which is
    scored. *)
Lemma score_family_in_range_witness :
  entries_in_range Hurro_Urartian ∧
  is_ok (StatisticalControls.score_family "Hurro-Urartian" Hurro_Urartian) ∧
  (∀ scores overall,
     StatisticalControls.score_family "Hurro-Urartian" Hurro_Urartian
     = Ok (scores, overall) →
     scores.*1 = dimension_labels ∧
     Forall (λ p, in_range p.2) scores ∧ in_range overall).
Proof.
  pose proof (score_family_in_range "Hurro-Urartian" Hurro_Urartian
                Hurro_Urartian_in_range) as (Hok & _ & Hrange).
  split; [exact Hurro_Urartian_in_range|].
  split; [exact (Hok Hurro_Urartian_complete) | exact Hrange].
Defined.

(** ** The feature-overlap ratio (C3) *)

(** C3.  For every candidate profile with a feature map, the
    feature-overlap score is [100 * k / n], where [n] is the number of
    features of the target and [k] the number of them whose candidate value
    equals the target's (a feature absent from the candidate's map does not
    match); the score is 100 exactly when every target feature matches. *)
Theorem score_features_ratio (fd : family_data) (feats : gmap string bool) :
  features fd = Some feats →
  let n := length LINEAR_A_features in
  let k := length (matching_features feats LINEAR_A_features) in
  score_features fd = Ok (100 * INR k / INR n) ∧
  (score_features fd = Ok 100 ↔
   ∀ feat la_val, (feat, la_val) ∈ LINEAR_A_features → feats !! feat = Some la_val).
Proof.
  intros Hf n k.
  assert (score_features fd = Ok (100 * INR k / INR n)) as Hs.
  { rewrite (score_features_spec fd feats Hf). f_equal. subst n k.
    change (length LINEAR_A_features) with 14%nat.
    replace (INR 14) with 14 by (simpl; lra). lra. }
  split; [exact Hs|]. rewrite Hs.
  assert (INR n = 14) as Hn by (subst n; simpl; lra).
  split.
  - intros Heq. assert (100 * INR k / INR n = 100) as Heq'.
    { clear -Heq. by injection Heq. }
    clear Heq. rename Heq' into Heq. rewrite Hn in Heq.
    assert (INR k = INR n) as Hk by lra.
    apply INR_eq in Hk. subst n k.
    apply matching_features_all in Hk. rewrite Forall_forall in Hk.
    intros feat la_val Hin. exact (Hk (feat, la_val) Hin).
  - intros Hall.
    assert (k = n) as ->.
    { subst n k. apply matching_features_all, Forall_forall.
      intros [feat la_val] Hin. by apply Hall. }
    f_equal. rewrite Hn. lra.
Qed.

Lemma Hurro_Urartian_matches_13 :
  ∀ feats, features Hurro_Urartian = Some feats →
  length (matching_features feats LINEAR_A_features) = 13%nat.
Proof. intros feats [= <-]. vm_compute. reflexivity. Qed.

(** The Hurro-Urartian profile matches 13 of the 14 target features. *)
Lemma score_features_ratio_witness :
  ∃ feats,
    features Hurro_Urartian = Some feats ∧
    score_features Hurro_Urartian = Ok (100 * INR 13 / INR 14) ∧
    score_features Hurro_Urartian ≠ Ok 100.
Proof.
  eexists. split; [reflexivity|].
  destruct (score_features_ratio Hurro_Urartian _ eq_refl) as [Hs Hiff].
  rewrite (Hurro_Urartian_matches_13 _ eq_refl) in Hs.
  split; [exact Hs|].
  intros H100. destruct Hiff as [Hfwd _].
  assert (("prenasalized_stops"%string, true) ∈ LINEAR_A_features) as Hin
    by (unfold LINEAR_A_features;
        repeat (first [apply list_elem_of_here | apply list_elem_of_further])).
  pose proof (Hfwd H100 "prenasalized_stops"%string true Hin) as Hp.
  vm_compute in Hp. discriminate Hp.
Defined.

(** ** Evaluation on the Hurro-Urartian profile *)

Lemma py_sum_perm xs ys : xs ≡ₚ ys → py_sum xs = py_sum ys.
Proof.
  induction 1 as [|x l1 l2 _ IH|x y l|l1 l2 l3 _ IH1 _ IH2].
  - reflexivity.
  - rewrite !py_sum_cons. by rewrite IH.
  - rewrite !py_sum_cons. lra.
  - by rewrite IH1.
Qed.

Lemma values_list_to_map (l : list (string * R)) :
  NoDup l.*1 → values (list_to_map l : gmap string R) ≡ₚ l.*2.
Proof.
  intros Hnd. unfold values. by rewrite map_to_list_to_map.
Qed.

(** The mean over a dict literal with distinct keys. *)
Lemma dict_mean_list_to_map (l : list (string * R)) :
  NoDup l.*1 → l ≠ [] →
  py_div (py_sum (values (list_to_map l : gmap string R)))
         (INR (len (list_to_map l : gmap string R)))
  = Ok (py_sum l.*2 / INR (length l)).
Proof.
  intros Hnd Hne.
  rewrite <- values_length, (py_sum_perm _ _ (values_list_to_map l Hnd)).
  rewrite (values_list_to_map l Hnd), length_fmap.
  unfold py_div. rewrite decide_False; [done|].
  destruct l; [done|]. rewrite length_cons, S_INR.
  pose proof (pos_INR (length l)). lra.
Qed.

Example score_features_Hurro_Urartian :
  score_features Hurro_Urartian = Ok (INR 13 / INR 14 * 100).
Proof.
  rewrite (score_features_spec Hurro_Urartian _ eq_refl).
  by rewrite (Hurro_Urartian_matches_13 _ eq_refl).
Qed.

Example score_cases_Hurro_Urartian :
  score_cases Hurro_Urartian = Ok (460 / 6).
Proof.
  unfold score_cases.
  cbn [Hurro_Urartian case_similarity getitem mbind result_bind].
  rewrite dict_mean_list_to_map.
  - f_equal. unfold py_sum. cbn [fmap list_fmap snd fold_left length].
    replace (INR 6) with 6 by (simpl; lra). lra.
  - apply (bool_decide_unpack _). vm_compute. exact I.
  - discriminate.
Qed.

Example score_vocabulary_Hurro_Urartian :
  StatisticalControls.score_vocabulary Hurro_Urartian = Ok (505 / 9).
Proof.
  unfold StatisticalControls.score_vocabulary.
  cbn [Hurro_Urartian vocabulary_matches getitem mbind result_bind].
  rewrite dict_mean_list_to_map.
  - f_equal. unfold py_sum. cbn [fmap list_fmap snd fold_left length].
    replace (INR 9) with 9 by (simpl; lra). lra.
  - apply (bool_decide_unpack _). vm_compute. exact I.
  - discriminate.
Qed.

(** ** Absent sections (C4) *)

Lemma raises_bind {A B} (m : result A) (k : A → result B) :
  raises m → raises (m ≫= k).
Proof. destruct m; simpl; done. Qed.

Lemma raises_bind_k {A B} (m : result A) (k : A → result B) :
  (∀ a, raises (k a)) → raises (m ≫= k).
Proof. destruct m; simpl; [auto|done]. Qed.

Lemma score_cases_missing fd :
  case_similarity fd = None → score_cases fd = Raise (KeyError "case_similarity").
Proof. intros H. unfold score_cases. by rewrite H. Qed.

Lemma score_vocabulary_missing fd :
  vocabulary_matches fd = None →
  StatisticalControls.score_vocabulary fd = Raise (KeyError "vocabulary_matches").
Proof. intros H. unfold StatisticalControls.score_vocabulary. by rewrite H. Qed.

Lemma score_vocabulary_original_missing fd :
  vocabulary_matches fd = None →
  ControlValidation.score_vocabulary_original fd = Ok 0.
Proof. intros H. unfold ControlValidation.score_vocabulary_original. by rewrite H. Qed.

(** C4, amended.  For every candidate profile with no feature map, no
    case-similarity map or no vocabulary-match map, [score_family] of the
    statistical controls raises.  Each scorer reading an absent map raises
    [KeyError] with the name of the map, and [score_family] raises the
    exception of the first scorer that fails, in the order vowels,
    features, cases, vocabulary: [KeyError] on ["features"] when the vowels
    are scored; on ["case_similarity"] when moreover the feature map is
    present; on ["vocabulary_matches"] when moreover the cases are scored.
    [score_family] of the control validation does the same for the feature
    and the case-similarity map, but its [score_vocabulary_original]
    returns 0 for an absent vocabulary map.  In a feature map that is
    present, a target feature without an entry counts as a non-match and
    the feature score is returned. *)
Theorem missing_section_behaviour (family_name : string) (fd : family_data)
    (EXPANDED_VOCABULARY : list ControlValidation.vocabulary_item)
    (use_expanded_vocab : bool) :
  missing_section fd →
  raises (StatisticalControls.score_family family_name fd) ∧
  (features fd = None →
   score_features fd = Raise (KeyError "features") ∧
   (is_ok (score_vowels fd) →
    StatisticalControls.score_family family_name fd
    = Raise (KeyError "features") ∧
    ControlValidation.score_family EXPANDED_VOCABULARY family_name fd
      use_expanded_vocab = Raise (KeyError "features"))) ∧
  (case_similarity fd = None →
   score_cases fd = Raise (KeyError "case_similarity") ∧
   (is_ok (score_vowels fd) → is_Some (features fd) →
    StatisticalControls.score_family family_name fd
    = Raise (KeyError "case_similarity") ∧
    ControlValidation.score_family EXPANDED_VOCABULARY family_name fd
      use_expanded_vocab = Raise (KeyError "case_similarity"))) ∧
  (vocabulary_matches fd = None →
   StatisticalControls.score_vocabulary fd
   = Raise (KeyError "vocabulary_matches") ∧
   ControlValidation.score_vocabulary_original fd = Ok 0 ∧
   (is_ok (score_vowels fd) → is_Some (features fd) →
    is_ok (score_cases fd) →
    StatisticalControls.score_family family_name fd
    = Raise (KeyError "vocabulary_matches"))) ∧
  (features fd = None ∨ case_similarity fd = None →
   raises (ControlValidation.score_family EXPANDED_VOCABULARY family_name fd
             use_expanded_vocab)) ∧
  (∀ feats, features fd = Some feats →
     score_features fd
     = Ok (INR (length (matching_features feats LINEAR_A_features))
           / INR (length LINEAR_A_features) * 100) ∧
     ∀ p, p ∈ LINEAR_A_features → feats !! p.1 = None →
          p ∉ matching_features feats LINEAR_A_features).
Proof.
  intros Hmiss. split; [|split; [|split; [|split; [|split]]]].
  - unfold StatisticalControls.score_family.
    apply raises_bind_k; intros s1.
    destruct Hmiss as [H|[H|H]].
    + apply raises_bind. by rewrite score_features_missing.
    + apply raises_bind_k; intros s2. apply raises_bind.
      by rewrite score_cases_missing.
    + apply raises_bind_k; intros s2. apply raises_bind_k; intros s3.
      apply raises_bind. by rewrite score_vocabulary_missing.
  - intros H. split; [by apply score_features_missing|].
    intros [s1 H1]%is_ok_Ok.
    unfold StatisticalControls.score_family, ControlValidation.score_family.
    rewrite H1, (score_features_missing fd H). done.
  - intros H. split; [by apply score_cases_missing|].
    intros [s1 H1]%is_ok_Ok [s2 H2]%score_features_ok%is_ok_Ok.
    unfold StatisticalControls.score_family, ControlValidation.score_family.
    rewrite H1, H2, (score_cases_missing fd H). done.
  - intros H. split; [by apply score_vocabulary_missing|].
    split; [by apply score_vocabulary_original_missing|].
    intros [s1 H1]%is_ok_Ok [s2 H2]%score_features_ok%is_ok_Ok
           [s3 H3]%is_ok_Ok.
    unfold StatisticalControls.score_family.
    rewrite H1, H2, H3, (score_vocabulary_missing fd H). done.
  - intros H. unfold ControlValidation.score_family.
    apply raises_bind_k; intros s1. destruct H as [H|H].
    + apply raises_bind. by rewrite score_features_missing.
    + apply raises_bind_k; intros s2. apply raises_bind.
      by rewrite score_cases_missing.
  - intros feats Hf. split; [by apply score_features_spec|].
    intros p Hp Hnone Hin. unfold matching_features in Hin.
    apply list_elem_of_filter in Hin as [Hm _].
    unfold feature_matches in Hm. rewrite Hnone in Hm. discriminate Hm.
Qed.

Lemma LINEAR_B_CONTROL_cases_scored : is_ok (score_cases LINEAR_B_CONTROL).
Proof.
  unfold score_cases.
  cbn [LINEAR_B_CONTROL case_similarity getitem mbind result_bind].
  apply dict_mean_ok. done.
Qed.

(** [LINEAR_B_CONTROL] has no vocabulary map, and nothing else missing. *)
Lemma missing_section_behaviour_witness :
  missing_section LINEAR_B_CONTROL ∧
  StatisticalControls.score_family "Linear_B_Control" LINEAR_B_CONTROL
  = Raise (KeyError "vocabulary_matches") ∧
  ControlValidation.score_vocabulary_original LINEAR_B_CONTROL = Ok 0.
Proof.
  assert (missing_section LINEAR_B_CONTROL) as Hm.
  { right. right. reflexivity. }
  pose proof (missing_section_behaviour "Linear_B_Control" LINEAR_B_CONTROL [] false Hm)
    as (_ & _ & _ & H4 & _).
  destruct (H4 eq_refl) as (_ & H0 & Hfam).
  split; [exact Hm|]. split; [|exact H0].
  apply Hfam.
  - reflexivity.
  - eexists. reflexivity.
  - exact LINEAR_B_CONTROL_cases_scored.
Defined.

(** C4, counterexample.  [LINEAR_B_CONTROL] has no vocabulary-match map,
    and the control-validation pipeline scores it all the same, with 0 for
    the vocabulary dimension. *)
Lemma linear_b_scored_without_vocabulary :
  vocabulary_matches LINEAR_B_CONTROL = None ∧
  ControlValidation.score_vocabulary_original LINEAR_B_CONTROL = Ok 0 ∧
  ∃ scores overall,
    ControlValidation.score_family [] "Linear_B_Control" LINEAR_B_CONTROL false
    = Ok (scores, overall) ∧
    scores !! 3%nat = Some ("Vocabulary"%string, 0).
Proof.
  split; [reflexivity|]. split; [reflexivity|].
  unfold ControlValidation.score_family.
  destruct (score_vowels LINEAR_B_CONTROL) as [s1|] eqn:H1; [|discriminate H1].
  rewrite (score_features_spec LINEAR_B_CONTROL _ eq_refl).
  assert (is_ok (score_cases LINEAR_B_CONTROL)) as [s3 H3]%is_ok_Ok.
  { unfold score_cases. cbn [LINEAR_B_CONTROL case_similarity getitem mbind result_bind].
    apply dict_mean_ok. done. }
  rewrite H3.
  cbn [mbind result_bind ControlValidation.score_vocabulary_original
       LINEAR_B_CONTROL vocabulary_matches geographic_plausibility timeline_fit
       scholarly_support religious_parallel getitem].
  unfold py_div at 1. case_decide as Hz.
  - exfalso. simpl in Hz. lra.
  - eexists _, _. split; [reflexivity|]. reflexivity.
Qed.

(** ** Bigram similarity (C7) *)

Lemma bigrams_cons2 a b rest :
  bigrams (String a (String b rest))
  = {[ String a (String b EmptyString) ]} ∪ bigrams (String b rest).
Proof.
  unfold bigrams.
  replace (String.length (String a (String b rest)) - 1)%nat
    with (S (String.length (String b rest) - 1)) by (simpl; lia).
  rewrite <- cons_seq, fmap_cons, list_to_set_cons.
  f_equal.
  - simpl. destruct rest; reflexivity.
  - rewrite <- fmap_S_seq, <- list_fmap_compose. reflexivity.
Qed.

Lemma bigrams_adjacent_pairs w : bigrams w = adjacent_pairs w.
Proof.
  induction w as [|a w IH]; [reflexivity|].
  destruct w as [|b rest]; [reflexivity|].
  rewrite bigrams_cons2, IH. reflexivity.
Qed.

(** C7, counterexample.  The bigram sets of "abc" and "abd" share one
    bigram of three: the Jaccard overlap is 1/3, [phonetic_similarity]
    returns 1/2. *)
Lemma shared_over_larger_not_jaccard :
  phonetic_similarity "abc" "abd" = 1 / 2 ∧
  jaccard_similarity "abc" "abd" = 1 / 3 ∧
  phonetic_similarity "abc" "abd" ≠ jaccard_similarity "abc" "abd".
Proof.
  assert (phonetic_similarity "abc" "abd" = 1 / 2) as H1.
  { unfold phonetic_similarity.
    replace (bool_decide (bigrams "abc" = ∅) || bool_decide (bigrams "abd" = ∅))
      with false by (vm_compute; reflexivity).
    replace (size (bigrams "abc" ∩ bigrams "abd")) with 1%nat
      by (vm_compute; reflexivity).
    replace (size (bigrams "abc") `max` size (bigrams "abd"))%nat with 2%nat
      by (vm_compute; reflexivity).
    simpl. lra. }
  assert (jaccard_similarity "abc" "abd" = 1 / 3) as H2.
  { unfold jaccard_similarity.
    replace (bool_decide (adjacent_pairs "abc" = ∅)
             || bool_decide (adjacent_pairs "abd" = ∅))
      with false by (vm_compute; reflexivity).
    replace (size (adjacent_pairs "abc" ∩ adjacent_pairs "abd")) with 1%nat
      by (vm_compute; reflexivity).
    replace (size (adjacent_pairs "abc" ∪ adjacent_pairs "abd")) with 3%nat
      by (vm_compute; reflexivity).
    simpl. lra. }
  split; [exact H1|]. split; [exact H2|]. rewrite H1, H2. lra.
Qed.

Lemma nonempty_size_pos (B : gset string) : B ≠ ∅ → (0 < size B)%nat.
Proof.
  intros Hne. assert (size B ≠ 0%nat); [|lia].
  intros Hs. apply Hne. by apply size_empty_iff, leibniz_equiv in Hs.
Qed.

(** C7, amended.  For every pair of words, with [B1] and [B2] their sets
    of adjacent character pairs, [phonetic_similarity] is 0 when either set
    is empty and otherwise [|B1 ∩ B2| / max(|B1|, |B2|)], a quotient whose
    divisor is positive. *)
Theorem phonetic_similarity_shared_over_larger (w1 w2 : string) :
  let B1 := adjacent_pairs w1 in
  let B2 := adjacent_pairs w2 in
  phonetic_similarity w1 w2
  = (if decide (B1 = ∅ ∨ B2 = ∅) then 0
     else INR (size (B1 ∩ B2)) / INR (Nat.max (size B1) (size B2))) ∧
  (¬ (B1 = ∅ ∨ B2 = ∅) → (0 < Nat.max (size B1) (size B2))%nat).
Proof.
  intros B1 B2. subst B1 B2. unfold phonetic_similarity.
  rewrite !bigrams_adjacent_pairs. split.
  - destruct (decide (adjacent_pairs w1 = ∅ ∨ adjacent_pairs w2 = ∅))
      as [[H|H]|H].
    + rewrite H. reflexivity.
    + rewrite H. rewrite (bool_decide_eq_true_2 (∅ = ∅)) by done.
      by rewrite orb_true_r.
    + rewrite !bool_decide_eq_false_2 by tauto. reflexivity.
  - intros H.
    assert (adjacent_pairs w1 ≠ ∅) as H1 by tauto.
    apply nonempty_size_pos in H1. lia.
Qed.

(** Two words of the source lists: "atai" and "attai" share three bigrams
    of three and four. *)
Example phonetic_similarity_atai_attai :
  phonetic_similarity "atai" "attai" = 3 / 4.
Proof.
  unfold phonetic_similarity.
  replace (bool_decide (bigrams "atai" = ∅) || bool_decide (bigrams "attai" = ∅))
    with false by (vm_compute; reflexivity).
  replace (size (bigrams "atai" ∩ bigrams "attai")) with 3%nat
    by (vm_compute; reflexivity).
  replace (size (bigrams "atai") `max` size (bigrams "attai"))%nat with 4%nat
    by (vm_compute; reflexivity).
  simpl. lra.
Qed.

(** ** The number of flipped features (C6) *)

Lemma py_int_floor x z : 0 <= x → IZR z <= x < IZR z + 1 → py_int x = z.
Proof.
  intros Hx Hz. unfold py_int. rewrite decide_True by done.
  symmetry. apply Int_part_spec. lra.
Qed.

Lemma py_int_floor_spec x : 0 <= x → IZR (py_int x) <= x < IZR (py_int x) + 1.
Proof.
  intros Hx. unfold py_int. rewrite decide_True by done.
  pose proof (base_Int_part x). lra.
Qed.

Lemma feature_count : INR (length feature_names) = 14.
Proof. change (length feature_names) with 14%nat. simpl. lra. Qed.

Lemma n_flip_sweep : n_flip <$> perturbation_levels = [1; 2; 2; 3; 4]%Z.
Proof.
  unfold perturbation_levels. rewrite !fmap_cons, fmap_nil.
  unfold n_flip. rewrite feature_count.
  repeat f_equal; apply py_int_floor; simpl; lra.
Qed.

Lemma spec_round_sweep :
  (λ r, spec_round (INR (length feature_names) * r)) <$> perturbation_levels
  = [1; 2; 3; 4; 4]%Z.
Proof.
  unfold perturbation_levels. rewrite !fmap_cons, fmap_nil.
  rewrite feature_count.
  assert (∀ x z, IZR z <= x < IZR z + 1 → Int_part x = z) as Hip.
  { intros x z H. symmetry. apply Int_part_spec. lra. }
  unfold spec_round.
  rewrite (Hip (14 * 0.10) 1%Z), (Hip (14 * 0.15) 2%Z), (Hip (14 * 0.20) 2%Z),
    (Hip (14 * 0.25) 3%Z), (Hip (14 * 0.30) 4%Z) by (simpl; lra).
  repeat f_equal; repeat case_decide; try reflexivity; exfalso; lra.
Qed.

Lemma py_index_Ok {A} (l : list A) (i : Z) :
  (0 ≤ i < Z.of_nat (length l))%Z → ∃ x, py_index l i = Ok x ∧ l !! Z.to_nat i = Some x.
Proof.
  intros Hi. unfold py_index.
  rewrite (decide_False (P := (i < 0)%Z)) by lia.
  rewrite decide_True by done.
  destruct (l !! Z.to_nat i) as [x|] eqn:Hx.
  - by exists x.
  - apply lookup_ge_None in Hx. lia.
Qed.

Lemma flip_features_ok flip_indices p :
  Forall (λ i, (0 ≤ i < Z.of_nat (length feature_names))%Z) flip_indices →
  is_ok (flip_features flip_indices p).
Proof.
  intros H. revert p. induction H as [|i l Hi _ IH]; intros p; simpl; [done|].
  destruct (py_index_Ok feature_names i Hi) as (feat & -> & _). simpl. apply IH.
Qed.

Section PerturbationFacts.
Context {G : Type} (sample_range : nat → Z → G → result (list Z * G)).
Hypothesis sample_ok : sample_contract sample_range.

Lemma n_flip_bounds pct :
  pct ∈ perturbation_levels → (0 ≤ n_flip pct ≤ Z.of_nat (length feature_names))%Z.
Proof.
  intros Hin. pose proof n_flip_sweep as Hs. unfold perturbation_levels in *.
  simpl in Hs. injection Hs as H1 H2 H3 H4 H5.
  change (length feature_names) with 14%nat.
  repeat (apply elem_of_cons in Hin as [->|Hin]); try lia.
  by apply elem_of_nil in Hin.
Qed.

(** C6, amended.  For every corruption rate [r] of the sweep and every
    candidate with a feature map, the number of features selected for
    flipping is [r * feature_count] truncated to an integer, that is its
    floor; over the sweep 0.10, 0.15, 0.20, 0.25, 0.30 with 14 features it
    is 1, 2, 2, 3, 4. *)
Theorem flip_count_truncates (fdata : family_data) (feats : gmap string bool)
    (perturb_pct : R) (g : G) :
  features fdata = Some feats →
  perturb_pct ∈ perturbation_levels →
  (∃ flip_indices p_features g',
     perturb_features sample_range fdata perturb_pct g
     = Ok (flip_indices, p_features, g') ∧
     Z.of_nat (length flip_indices) = n_flip perturb_pct ∧
     IZR (n_flip perturb_pct) <= INR (length feature_names) * perturb_pct
       < IZR (n_flip perturb_pct) + 1) ∧
  n_flip <$> perturbation_levels = [1; 2; 2; 3; 4]%Z.
Proof.
  intros Hf Hin. split; [|exact n_flip_sweep].
  unfold perturb_features. rewrite Hf.
  cbn [getitem mbind result_bind].
  destruct (sample_ok (length feature_names) (n_flip perturb_pct) g
              (n_flip_bounds _ Hin)) as (l & g' & -> & Hlen & _ & Hall).
  cbn [mbind result_bind].
  pose proof (flip_features_ok l feats Hall) as [p' ->]%is_ok_Ok.
  cbn [mbind result_bind].
  exists l, p', g'. split; [done|]. split; [done|].
  apply py_int_floor_spec. rewrite feature_count.
  unfold perturbation_levels in Hin.
  repeat (apply elem_of_cons in Hin as [->|Hin]); try lra.
  by apply elem_of_nil in Hin.
Qed.
End PerturbationFacts.

Lemma sample_first_contract : sample_contract sample_first.
Proof.
  intros n k g Hk. unfold sample_first. rewrite decide_True by done.
  eexists _, _. split; [reflexivity|]. split; [|split].
  - rewrite length_fmap, length_seq. lia.
  - apply NoDup_fmap; [apply _|]. apply NoDup_seq.
  - apply Forall_fmap, Forall_forall. intros i Hi%elem_of_seq. simpl. lia.
Qed.

Lemma n_flip_quarter : n_flip 0.25 = 3%Z.
Proof. unfold n_flip. rewrite feature_count. apply py_int_floor; lra. Qed.

Lemma spec_round_quarter :
  spec_round (INR (length feature_names) * 0.25) = 4%Z.
Proof.
  rewrite feature_count. unfold spec_round.
  replace (Int_part (14 * 0.25)) with 3%Z by (apply Int_part_spec; lra).
  repeat case_decide; try reflexivity; exfalso; lra.
Qed.

(** At the rate 0.20 the first-positions sampler selects two of the 14
    features of the Hurro-Urartian profile. *)
Lemma flip_count_truncates_witness :
  sample_contract sample_first ∧
  0.20 ∈ perturbation_levels ∧
  ∃ flip_indices p_features g',
    perturb_features sample_first Hurro_Urartian 0.20 tt
    = Ok (flip_indices, p_features, g') ∧
    Z.of_nat (length flip_indices) = n_flip 0.20.
Proof.
  assert (0.20 ∈ perturbation_levels) as Hin.
  { unfold perturbation_levels. do 2 apply list_elem_of_further.
    apply list_elem_of_here. }
  split; [exact sample_first_contract|]. split; [exact Hin|].
  destruct (flip_count_truncates sample_first sample_first_contract
              Hurro_Urartian _ 0.20 tt eq_refl Hin)
    as [(l & p' & g' & Hrun & Hlen & _) _].
  exists l, p', g'. exact (conj Hrun Hlen).
Defined.

(** C6, counterexample.  At the rate 0.25 with 14 features the code
    selects [int(3.5) = 3] features, where [round(3.5) = 4]. *)
Lemma quarter_rate_flips_three :
  0.25 ∈ perturbation_levels ∧
  n_flip 0.25 = 3%Z ∧
  spec_round (INR (length feature_names) * 0.25) = 4%Z ∧
  ∃ flip_indices p_features g',
    perturb_features sample_first Hurro_Urartian 0.25 tt
    = Ok (flip_indices, p_features, g') ∧
    length flip_indices = 3%nat ∧
    Z.of_nat (length flip_indices)
    ≠ spec_round (INR (length feature_names) * 0.25).
Proof.
  pose proof n_flip_quarter as Hn. pose proof spec_round_quarter as Hr.
  split.
  { unfold perturbation_levels. do 3 apply list_elem_of_further.
    apply list_elem_of_here. }
  split; [exact Hn|]. split; [exact Hr|].
  unfold perturb_features. cbn [Hurro_Urartian features getitem mbind result_bind].
  rewrite Hn.
  replace (sample_first (length feature_names) 3 ())
    with (Ok (Z.of_nat <$> seq 0 (Z.to_nat 3), ()) : result (list Z * unit))
    by reflexivity.
  cbn [mbind result_bind].
  match goal with |- context [flip_features ?l ?p] =>
    pose proof (flip_features_ok l p) as [p' Hp]%is_ok_Ok end.
  - rewrite Hp. eexists _, _, _. split; [reflexivity|].
    split; [reflexivity|]. rewrite Hr. rewrite length_fmap, length_seq. lia.
  - repeat (apply List.Forall_cons); try apply List.Forall_nil; simpl; lia.
Qed.

(** ** The Bayesian update (C8, C9) *)

Lemma clamp_lr_band lr : 0.5 <= clamp_lr lr <= 5.0.
Proof.
  unfold clamp_lr. split; [apply Rmax_l|].
  apply Rmax_lub; [lra|apply Rmin_r].
Qed.

Lemma odds_pos p : open_unit p → 0 < odds p.
Proof.
  intros [H0 H1]. unfold odds. apply Rdiv_lt_0_compat; lra.
Qed.

Lemma of_odds_open o : 0 < o → open_unit (of_odds o).
Proof.
  intros Ho. unfold of_odds, open_unit. split.
  - apply Rdiv_lt_0_compat; lra.
  - apply (Rmult_lt_reg_r (1 + o)); [lra|].
    unfold Rdiv. rewrite Rmult_assoc, Rinv_l by lra. lra.
Qed.

Lemma odds_of_odds o : 0 < o → odds (of_odds o) = o.
Proof. intros Ho. unfold odds, of_odds. field. lra. Qed.

Lemma of_odds_odds p : open_unit p → of_odds (odds p) = p.
Proof. intros [H0 H1]. unfold odds, of_odds. field. lra. Qed.

Lemma posterior_step_open p lr : open_unit p → open_unit (posterior_step p lr).
Proof.
  intros Hp. apply of_odds_open. apply Rmult_lt_0_compat.
  - by apply odds_pos.
  - pose proof (clamp_lr_band lr). lra.
Qed.

Lemma default_last_cons {A} (p q x : A) (l : list A) :
  default p (last (x :: l)) = default q (last (x :: l)).
Proof.
  revert x. induction l as [|y l IH]; intros x; [reflexivity|].
  rewrite !last_cons_cons. apply IH.
Qed.

Lemma posterior_trace_open p domain_results :
  open_unit p → Forall open_unit (posterior_trace p domain_results).
Proof.
  revert p. induction domain_results as [|[name [score lr]] rest IH]; intros p Hp.
  - constructor.
  - simpl. pose proof (posterior_step_open p lr Hp). constructor; [done|].
    by apply IH.
Qed.

Lemma posterior_trace_length p domain_results :
  length (posterior_trace p domain_results) = length domain_results.
Proof.
  revert p. induction domain_results as [|[name [score lr]] rest IH]; intros p.
  - reflexivity.
  - simpl. by rewrite IH.
Qed.

Lemma clamped_product_pos ds : 0 < clamped_product ds.
Proof.
  induction ds as [|d ds IH]; simpl; [lra|].
  apply Rmult_lt_0_compat; [|done]. pose proof (clamp_lr_band d.2.2). lra.
Qed.

Lemma clamped_product_perm ds1 ds2 :
  ds1 ≡ₚ ds2 → clamped_product ds1 = clamped_product ds2.
Proof.
  induction 1 as [|d l1 l2 _ IH|d1 d2 l|l1 l2 l3 _ IH1 _ IH2]; simpl.
  - reflexivity.
  - by rewrite IH.
  - lra.
  - by rewrite IH1.
Qed.

Lemma odds_posterior_step p lr :
  open_unit p → odds (posterior_step p lr) = odds p * clamp_lr lr.
Proof.
  intros Hp. apply odds_of_odds. apply Rmult_lt_0_compat; [by apply odds_pos|].
  pose proof (clamp_lr_band lr). lra.
Qed.

Lemma final_posterior_closed_form p ds :
  open_unit p →
  default p (last (p :: posterior_trace p ds))
  = of_odds (odds p * clamped_product ds).
Proof.
  revert p. induction ds as [|[name [score lr]] rest IH]; intros p Hp.
  - simpl. rewrite Rmult_1_r. by rewrite of_odds_odds.
  - cbn [posterior_trace]. rewrite last_cons_cons.
    rewrite (default_last_cons p (posterior_step p lr)).
    rewrite IH by (by apply posterior_step_open).
    rewrite odds_posterior_step by done. simpl. f_equal. lra.
Qed.


(** *** Any correctly rounded arithmetic *)

Section Rounded.
Context {F : Type} `{Arithmetic F} (val : F → R) (rnd : R → R).
Hypothesis contract : rounding_contract val rnd.

Lemma rnd_0 : rnd 0 = 0.
Proof. rewrite <- (val_0 val rnd contract). apply (rnd_value val rnd contract). Qed.

Lemma rnd_1 : rnd 1 = 1.
Proof. rewrite <- (val_1 val rnd contract). apply (rnd_value val rnd contract). Qed.

Lemma rnd_nonneg x : 0 <= x → 0 <= rnd x.
Proof. intros Hx. rewrite <- rnd_0. by apply (rnd_monotone val rnd contract). Qed.

Lemma lt_val_false a b : fl_lt a b = false ↔ val b <= val a.
Proof.
  pose proof (lt_val val rnd contract a b) as Hlt.
  destruct (fl_lt a b); split; intros Hx; try done.
  - assert (val a < val b) by (by apply Hlt). lra.
  - destruct (Rlt_le_dec (val a) (val b)) as [Hab|Hab]; [|done].
    apply Hlt in Hab. discriminate Hab.
Qed.

Lemma clamped_band lr : 0.5 <= val (clamped lr) <= 5.
Proof.
  pose proof (val_0_5 val rnd contract) as Hh.
  pose proof (val_5_0 val rnd contract) as Hf.
  unfold clamped, py_max, py_min.
  destruct (fl_lt fl_5_0 lr) eqn:E5.
  - destruct (fl_lt fl_0_5 fl_5_0) eqn:Eh; lra.
  - apply lt_val_false in E5.
    destruct (fl_lt fl_0_5 lr) eqn:Eh.
    + apply (lt_val val rnd contract) in Eh. lra.
    + lra.
Qed.

Lemma py_fdiv_raises a b :
  val b = 0 → py_fdiv a b = Raise ZeroDivisionError.
Proof.
  intros Hb. unfold py_fdiv.
  assert (fl_eq b fl_0 = true) as ->; [|done].
  apply (eq_val val rnd contract). by rewrite (val_0 val rnd contract).
Qed.

Lemma py_fdiv_returns a b :
  val b ≠ 0 →
  py_fdiv a b = Ok (fl_div a b) ∧ val (fl_div a b) = rnd (val a / val b).
Proof.
  intros Hb. unfold py_fdiv. split.
  - destruct (fl_eq b fl_0) eqn:E; [|done].
    apply (eq_val val rnd contract) in E.
    rewrite (val_0 val rnd contract) in E. contradiction.
  - by apply (val_div val rnd contract).
Qed.

Lemma bayes_update_at_one p lr :
  val p = 1 → bayes_update p lr = Raise ZeroDivisionError.
Proof.
  intros Hp. unfold bayes_update. rewrite py_fdiv_raises; [done|].
  rewrite (val_sub val rnd contract), (val_1 val rnd contract), Hp.
  replace (1 - 1) with 0 by lra. apply rnd_0.
Qed.

Lemma bayes_update_below_one p lr :
  closed_unit (val p) → val p ≠ 1 →
  ∃ p', bayes_update p lr = Ok p' ∧
        val p' = rnd (rnd (rnd (val p / rnd (1 - val p)) * val (clamped lr))
                      / rnd (1 + rnd (rnd (val p / rnd (1 - val p))
                                      * val (clamped lr)))) ∧
        closed_unit (val p').
Proof.
  intros [Hp0 Hp1] Hne. unfold bayes_update. fold (clamped lr).
  pose proof (clamped_band lr) as [Hc _].
  assert (0 < val (fl_sub fl_1 p)) as Hd.
  { assert (0 <= val (fl_sub fl_1 p)) as Hd0.
    { rewrite (val_sub val rnd contract), (val_1 val rnd contract).
      apply rnd_nonneg. lra. }
    destruct Hd0 as [Hd0|Hd0]; [done|]. exfalso. apply Hne.
    symmetry in Hd0. apply (sub_zero val rnd contract) in Hd0.
    by rewrite <- Hd0, (val_1 val rnd contract). }
  destruct (py_fdiv_returns p (fl_sub fl_1 p)) as [-> Ho]; [lra|].
  cbn [mbind result_bind].
  set (o := fl_div p (fl_sub fl_1 p)) in *.
  assert (0 <= val o) as Ho0.
  { rewrite Ho. apply rnd_nonneg. apply Rmult_le_pos; [done|].
    left. by apply Rinv_0_lt_compat. }
  set (o2 := fl_mul o (clamped lr)).
  assert (val o2 = rnd (val o * val (clamped lr))) as Ho2
    by apply (val_mul val rnd contract).
  assert (0 <= val o2) as Ho20.
  { rewrite Ho2. apply rnd_nonneg. apply Rmult_le_pos; lra. }
  assert (val (fl_add fl_1 o2) = rnd (1 + val o2)) as Hs.
  { by rewrite (val_add val rnd contract), (val_1 val rnd contract). }
  assert (1 <= val (fl_add fl_1 o2)) as Hs1.
  { rewrite Hs, <- rnd_1 at 1. apply (rnd_monotone val rnd contract). lra. }
  assert (val o2 <= val (fl_add fl_1 o2)) as Hs2.
  { rewrite Hs, <- (rnd_value val rnd contract o2) at 1.
    apply (rnd_monotone val rnd contract). lra. }
  destruct (py_fdiv_returns o2 (fl_add fl_1 o2)) as [-> Hq]; [lra|].
  eexists. split; [reflexivity|]. split.
  - rewrite Hq, Hs, Ho2, Ho.
    rewrite (val_sub val rnd contract), (val_1 val rnd contract). reflexivity.
  - rewrite Hq. split.
    + apply rnd_nonneg. apply Rmult_le_pos; [done|].
      left. apply Rinv_0_lt_compat. lra.
    + rewrite <- rnd_1. apply (rnd_monotone val rnd contract).
      apply (Rmult_le_reg_r (val (fl_add fl_1 o2))); [lra|].
      unfold Rdiv. rewrite Rmult_assoc, Rinv_l by lra. lra.
Qed.

Lemma bayes_loop_closed_unit ds :
  ∀ p printed,
    closed_unit (val p) → Forall (λ q, closed_unit (val q)) printed →
    match bayes_loop ds p printed with
    | Ok (final, printed') =>
        length printed' = (length printed + length ds)%nat ∧
        Forall (λ q, closed_unit (val q)) printed' ∧
        closed_unit (val final)
    | Raise e =>
        e = ZeroDivisionError ∧
        ∃ ds1 ds2 q printed1,
          ds = ds1 ++ ds2 ∧ ds2 ≠ [] ∧
          bayes_loop ds1 p printed = Ok (q, printed1) ∧ val q = 1
    end.
Proof.
  induction ds as [|[name [score lr]] rest IH]; intros p printed Hp Hall.
  - cbn [bayes_loop length]. split; [lia|done].
  - cbn [bayes_loop].
    destruct (Req_dec_T (val p) 1) as [Hone|Hne].
    + rewrite (bayes_update_at_one p lr Hone). cbn [mbind result_bind].
      split; [done|]. exists [], ((name, (score, lr)) :: rest), p, printed.
      done.
    + destruct (bayes_update_below_one p lr Hp Hne) as (p' & Hup & _ & Hp').
      rewrite Hup. cbn [mbind result_bind].
      specialize (IH p' (printed ++ [p']) Hp').
      assert (Forall (λ q, closed_unit (val q)) (printed ++ [p'])) as Hall'.
      { apply Forall_app. split; [done|]. by constructor. }
      specialize (IH Hall').
      destruct (bayes_loop rest p' (printed ++ [p'])) as [[final printed']|e].
      * destruct IH as (Hlen & Hcu & Hfin). split; [|done].
        rewrite Hlen, length_app. cbn [length]. lia.
      * destruct IH as (-> & ds1 & ds2 & q & printed1 & -> & Hne2 & Hrun & Hq).
        split; [done|].
        exists ((name, (score, lr)) :: ds1), ds2, q, printed1.
        split; [done|]. split; [done|]. split; [|done].
        cbn [bayes_loop]. rewrite Hup. exact Hrun.
Qed.

Lemma val_clamped lr : val (clamped lr) = clamp_lr (val lr).
Proof.
  pose proof (val_0_5 val rnd contract) as Hh.
  pose proof (val_5_0 val rnd contract) as Hf.
  unfold clamped, py_max, py_min, clamp_lr.
  destruct (fl_lt fl_5_0 lr) eqn:E5.
  - apply (lt_val val rnd contract) in E5.
    rewrite Rmin_right by lra.
    destruct (fl_lt fl_0_5 fl_5_0) eqn:Eh.
    + rewrite Rmax_right by lra. lra.
    + apply lt_val_false in Eh. lra.
  - apply lt_val_false in E5. rewrite Rmin_left by lra.
    destruct (fl_lt fl_0_5 lr) eqn:Eh.
    + apply (lt_val val rnd contract) in Eh. rewrite Rmax_right by lra. lra.
    + apply lt_val_false in Eh. rewrite Rmax_left by lra. lra.
Qed.

(** Without rounding an update is the step of the specification. *)
Lemma bayes_update_unrounded p lr :
  (∀ x, rnd x = x) → open_unit (val p) →
  ∃ p', bayes_update p lr = Ok p' ∧
        val p' = posterior_step (val p) (val lr) ∧ open_unit (val p').
Proof.
  intros Hid Hp.
  destruct (bayes_update_below_one p lr) as (p' & Hup & Hval & _).
  { destruct Hp. split; lra. }
  { destruct Hp. lra. }
  exists p'. split; [exact Hup|].
  assert (val p' = posterior_step (val p) (val lr)) as Heq.
  { rewrite Hval, !Hid, val_clamped. reflexivity. }
  split; [exact Heq|]. rewrite Heq. by apply posterior_step_open.
Qed.

Lemma bayes_loop_unrounded ds :
  (∀ x, rnd x = x) →
  ∀ p printed,
    open_unit (val p) → Forall (λ q, open_unit (val q)) printed →
    ∃ final printed',
      bayes_loop ds p printed = Ok (final, printed') ∧
      length printed' = (length printed + length ds)%nat ∧
      Forall (λ q, open_unit (val q)) printed' ∧
      open_unit (val final).
Proof.
  intros Hid. induction ds as [|[name [score lr]] rest IH];
    intros p printed Hp Hall.
  - exists p, printed. cbn [bayes_loop length]. split; [done|].
    split; [lia|done].
  - destruct (bayes_update_unrounded p lr Hid Hp) as (p' & Hup & _ & Hp').
    destruct (IH p' (printed ++ [p']) Hp') as (final & printed' & Hrun & Hlen & Hopen & Hfin).
    { apply Forall_app. split; [done|]. by constructor. }
    exists final, printed'. cbn [bayes_loop]. rewrite Hup.
    cbn [mbind result_bind]. split; [exact Hrun|]. split; [|done].
    rewrite Hlen, length_app. cbn [length]. lia.
Qed.


End Rounded.

(** *** The arithmetic of the reals *)

Lemma clamped_exact (lr : R) : clamped lr = clamp_lr lr.
Proof.
  unfold clamped, clamp_lr, py_max, py_min. cbn [fl_lt fl_0_5 fl_5_0 exact].
  unfold Rmax, Rmin.
  repeat case_bool_decide; repeat destruct (Rle_dec _ _); lra.
Qed.

Lemma exact_contract : rounding_contract (F := R) id id.
Proof.
  split; cbn [fl_0 fl_1 fl_0_5 fl_5_0 fl_add fl_sub fl_mul fl_div fl_lt fl_eq
              exact id].
  - intros x y Hxy. exact Hxy.
  - reflexivity.
  - reflexivity.
  - reflexivity.
  - reflexivity.
  - lra.
  - reflexivity.
  - reflexivity.
  - reflexivity.
  - reflexivity.
  - intros a b Hab. unfold id in *. lra.
  - intros a b. apply bool_decide_eq_true.
  - intros a b. apply bool_decide_eq_true.
Qed.

Lemma bayes_update_step p lr :
  open_unit p → bayes_update p lr = Ok (posterior_step p lr).
Proof.
  intros Hp. unfold bayes_update. fold (clamped lr). rewrite clamped_exact.
  unfold py_fdiv. cbn [fl_eq fl_0 fl_1 fl_sub fl_div fl_mul fl_add exact].
  rewrite bool_decide_eq_false_2 by (destruct Hp; lra).
  cbn [mbind result_bind]. fold (odds p).
  assert (0 < odds p * clamp_lr lr) as Hpos.
  { apply Rmult_lt_0_compat; [by apply odds_pos|].
    pose proof (clamp_lr_band lr). lra. }
  rewrite bool_decide_eq_false_2 by lra. reflexivity.
Qed.

Lemma bayes_loop_trace domain_results p printed :
  open_unit p →
  bayes_loop domain_results p printed
  = Ok (default p (last (p :: posterior_trace p domain_results)),
        printed ++ posterior_trace p domain_results).
Proof.
  revert p printed. induction domain_results as [|[name [score lr]] rest IH];
    intros p printed Hp.
  - cbn [bayes_loop posterior_trace]. by rewrite app_nil_r.
  - cbn [bayes_loop posterior_trace]. rewrite bayes_update_step by done.
    cbn [mbind result_bind]. rewrite IH by (by apply posterior_step_open).
    rewrite <- app_assoc. rewrite last_cons_cons. cbn [app].
    f_equal. f_equal. apply default_last_cons.
Qed.

Lemma bayes_loop_ratios {F} `{Arithmetic F}
    (ds1 ds2 : list (string * (F * F))) :
  clamped_ratios ds1 = clamped_ratios ds2 →
  ∀ p printed, bayes_loop ds1 p printed = bayes_loop ds2 p printed.
Proof.
  revert ds2. induction ds1 as [|[n1 [s1 lr1]] ds1 IH];
    intros [|[n2 [s2 lr2]] ds2] Heq p printed; try done.
  unfold clamped_ratios in Heq. rewrite !fmap_cons in Heq.
  injection Heq as Hc Hrest. cbn [snd] in Hc.
  cbn [bayes_loop].
  assert (bayes_update p lr1 = bayes_update p lr2) as ->.
  { unfold bayes_update. fold (clamped lr1) (clamped lr2). by rewrite Hc. }
  destruct (bayes_update p lr2) as [p'|e]; [|done].
  cbn [mbind result_bind]. by apply IH.
Qed.

(** C9, amended.  In the arithmetic of the reals, for every prior
    strictly between 0 and 1, two lists of evidence domains that are
    permutations of each other give the same final posterior, the one of
    the odds of the prior multiplied by the product of the clamped ratios.
    In Python's floats the result of [bayesian_convergence] is determined
    by the sequence of the clamped ratios in the order of the list: two
    lists with the same sequence give the same result, whatever their
    names, scores and ratios outside the band are. *)
Theorem posterior_order_and_rounding (prior : R)
    (domains1 domains2 : list (string * (R * R))) :
  open_unit prior → domains1 ≡ₚ domains2 →
  (∃ final printed1 printed2,
     bayesian_convergence_from prior domains1 = Ok (final, printed1) ∧
     bayesian_convergence_from prior domains2 = Ok (final, printed2) ∧
     final = of_odds (odds prior * clamped_product domains1)) ∧
  (∀ float_domains1 float_domains2 : list (string * (float * float)),
     clamped_ratios float_domains1 = clamped_ratios float_domains2 →
     bayesian_convergence float_domains1
     = bayesian_convergence float_domains2).
Proof.
  intros Hp Hperm. split.
  - unfold bayesian_convergence_from.
    rewrite !bayes_loop_trace by done.
    rewrite !final_posterior_closed_form by done.
    rewrite (clamped_product_perm _ _ Hperm).
    eexists _, _, _. split; [reflexivity|]. split; reflexivity.
  - intros fd1 fd2 Heq. unfold bayesian_convergence, bayesian_convergence_from.
    by apply bayes_loop_ratios.
Qed.

Lemma prior_open : open_unit 0.10.
Proof. unfold open_unit. lra. Qed.

(** The source's prior 0.10 and two domains in both orders, on the reals;
    and, in Python's floats, two domains whose ratios are both clamped to
    5.0, in both orders. *)
Lemma posterior_order_and_rounding_witness :
  open_unit 0.10 ∧ two_domains ≡ₚ reverse two_domains ∧
  (∃ final printed1 printed2,
     bayesian_convergence two_domains = Ok (final, printed1) ∧
     bayesian_convergence (reverse two_domains) = Ok (final, printed2) ∧
     final = of_odds (odds 0.10 * clamped_product two_domains)) ∧
  clamped_ratios capped_domains = clamped_ratios (reverse capped_domains) ∧
  bayesian_convergence capped_domains
  = bayesian_convergence (reverse capped_domains).
Proof.
  assert (two_domains ≡ₚ reverse two_domains) as Hperm
    by (symmetry; apply reverse_Permutation).
  assert (clamped_ratios capped_domains
          = clamped_ratios (reverse capped_domains)) as Hcap
    by (vm_compute; reflexivity).
  split; [exact prior_open|]. split; [exact Hperm|].
  destruct (posterior_order_and_rounding 0.10 _ _ prior_open Hperm)
    as [Hexact Hfloat].
  split; [exact Hexact|]. split; [exact Hcap|].
  exact (Hfloat _ _ Hcap).
Defined.

(** *** A fixed-point arithmetic *)

Lemma Int_part_unique x z : IZR z <= x < IZR z + 1 → Int_part x = z.
Proof.
  intros [Hl Hu]. destruct (base_Int_part x) as [Hb1 Hb2].
  assert (Int_part x < z + 1)%Z as H1.
  { apply lt_IZR. rewrite plus_IZR. lra. }
  assert (z < Int_part x + 1)%Z as H2.
  { apply lt_IZR. rewrite plus_IZR. lra. }
  lia.
Qed.

Lemma Int_part_monotone x y : x <= y → (Int_part x ≤ Int_part y)%Z.
Proof.
  intros Hxy. destruct (base_Int_part x) as [Hx1 Hx2].
  destruct (base_Int_part y) as [Hy1 Hy2].
  assert (Int_part x < Int_part y + 1)%Z as H1.
  { apply lt_IZR. rewrite plus_IZR. lra. }
  lia.
Qed.

Lemma Int_part_quotient n d : (0 < d)%Z → Int_part (IZR n / IZR d) = (n / d)%Z.
Proof.
  intros Hd. apply Int_part_unique.
  pose proof (Z.div_mod n d ltac:(lia)) as Hdm.
  pose proof (Z.mod_pos_bound n d Hd) as [Hm0 Hm1].
  assert (0 < IZR d) as Hd' by (by apply IZR_lt).
  assert (IZR n = IZR d * IZR (n / d) + IZR (n `mod` d)) as Hn.
  { rewrite <- mult_IZR, <- plus_IZR. by f_equal. }
  apply IZR_le in Hm0. apply IZR_lt in Hm1.
  split.
  - apply (Rmult_le_reg_r (IZR d)); [done|].
    unfold Rdiv. rewrite Rmult_assoc, Rinv_l by lra. nra.
  - apply (Rmult_lt_reg_r (IZR d)); [done|].
    unfold Rdiv. rewrite Rmult_assoc, Rinv_l by lra. nra.
Qed.

Lemma fixed_rnd_val a : fixed_rnd (fixed_val a) = fixed_val a.
Proof.
  unfold fixed_rnd, fixed_val. f_equal. f_equal.
  apply Int_part_unique. lra.
Qed.

Lemma fixed_rnd_ratio n d :
  (0 < d)%Z →
  fixed_rnd (IZR n / IZR d) = fixed_val ((2048 * n + d) / (2 * d)).
Proof.
  intros Hd. unfold fixed_rnd, fixed_val. f_equal. f_equal.
  rewrite <- Int_part_quotient by lia. f_equal.
  assert (0 < IZR d) as Hd' by (by apply IZR_lt).
  rewrite plus_IZR, !mult_IZR. field. lra.
Qed.

Lemma fixed_point_contract : rounding_contract fixed_val fixed_rnd.
Proof.
  split; cbn [fl_0 fl_1 fl_0_5 fl_5_0 fl_add fl_sub fl_mul fl_div fl_lt fl_eq
              fixed_point].
  - intros x y Hxy. unfold fixed_rnd.
    apply Rmult_le_compat_r; [lra|]. apply IZR_le, Int_part_monotone. lra.
  - exact fixed_rnd_val.
  - unfold fixed_val. lra.
  - unfold fixed_val. lra.
  - unfold fixed_val. lra.
  - unfold fixed_val. lra.
  - intros a b. rewrite <- fixed_rnd_val. f_equal. unfold fixed_val.
    rewrite plus_IZR. lra.
  - intros a b. rewrite <- fixed_rnd_val. f_equal. unfold fixed_val.
    rewrite minus_IZR. lra.
  - intros a b. unfold fixed_rnd, fixed_val at 1. f_equal. f_equal.
    rewrite <- (Int_part_quotient _ 1024) by lia. f_equal.
    unfold fixed_val. rewrite plus_IZR, mult_IZR. lra.
  - intros a b Hb. unfold fixed_div.
    assert (b ≠ 0%Z) as Hb0.
    { intros ->. apply Hb. unfold fixed_val. lra. }
    assert (IZR b ≠ 0) as Hb' by (by apply not_0_IZR).
    destruct (Z.ltb_spec 0 b) as [Hpos|Hneg].
    + rewrite <- fixed_rnd_ratio by done. f_equal. unfold fixed_val.
      field. done.
    + replace (- 2048 * a - b)%Z with (2048 * (- a) + (- b))%Z by lia.
      replace (- 2 * b)%Z with (2 * (- b))%Z by lia.
      rewrite <- fixed_rnd_ratio by lia. f_equal. unfold fixed_val.
      rewrite !opp_IZR. field. done.
  - intros a b Hab. unfold fixed_val in Hab.
    assert (IZR (a - b) = 0) as Hz by lra.
    apply eq_IZR in Hz. by replace a with b by lia.
  - intros a b. unfold fixed_val. rewrite Z.ltb_lt. split.
    + intros Hab%IZR_lt. lra.
    + intros Hab. apply lt_IZR. lra.
  - intros a b. unfold fixed_val. rewrite Z.eqb_eq. split.
    + by intros ->.
    + intros Hab. apply eq_IZR. lra.
Qed.

Lemma fixed_saturates :
  bayesian_convergence (fixed_domains 7)
  = Ok (1024%Z, [364; 752; 955; 1009; 1021; 1023; 1024]%Z) ∧
  bayesian_convergence (fixed_domains 8) = Raise ZeroDivisionError.
Proof. split; vm_compute; reflexivity. Qed.

Lemma fixed_prior_closed : closed_unit (fixed_val 102).
Proof. unfold closed_unit, fixed_val. lra. Qed.


(** C9, counterexample.  In Python's floats, from the prior 0.10, the
    ratios 3.6 and 2.2 give 0.46808510638297884 in this order and
    0.46808510638297873 in the other; the ratios 4.5 and 2.0 give a
    posterior below 0.5, verdict UNCERTAIN, in this order and 0.5, verdict
    LIKELY, in the other. *)
Lemma order_changes_posterior :
  two_float_domains ≡ₚ reverse two_float_domains ∧
  edge_domains ≡ₚ reverse edge_domains ∧
  (∃ printed, bayesian_convergence two_float_domains
              = Ok (0.46808510638297884%float, printed)) ∧
  (∃ printed, bayesian_convergence (reverse two_float_domains)
              = Ok (0.46808510638297873%float, printed)) ∧
  fl_lt 0.46808510638297873%float 0.46808510638297884%float = true ∧
  (∃ final printed, bayesian_convergence edge_domains = Ok (final, printed) ∧
                    verdict_of final = UNCERTAIN) ∧
  (∃ final printed, bayesian_convergence (reverse edge_domains)
                    = Ok (final, printed) ∧
                    verdict_of final = LIKELY).
Proof.
  split; [symmetry; apply reverse_Permutation|].
  split; [symmetry; apply reverse_Permutation|].
  split; [eexists; vm_compute; reflexivity|].
  split; [eexists; vm_compute; reflexivity|].
  split; [vm_compute; reflexivity|].
  split; eexists _, _; (split; [vm_compute; reflexivity|vm_compute; reflexivity]).
Qed.

(** ** The bootstrap engine (C5) *)

Lemma map_result_Ok {A B} (f : A → result B) (g : A → B) (xs : list A) :
  Forall (λ x, f x = Ok (g x)) xs → map_result f xs = Ok (g <$> xs).
Proof.
  induction 1 as [|x xs Hx _ IH]; [reflexivity|].
  simpl. rewrite Hx. simpl. rewrite IH. reflexivity.
Qed.

Lemma insert_sorted_perm x l : insert_sorted x l ≡ₚ x :: l.
Proof.
  induction l as [|y l IH]; simpl; [done|].
  case_decide; [done|]. rewrite IH. apply Permutation_swap.
Qed.

Lemma sorted_perm l : sorted l ≡ₚ l.
Proof.
  induction l as [|x l IH]; simpl; [done|].
  fold (sorted l). rewrite insert_sorted_perm. by rewrite IH.
Qed.

Lemma sorted_length l : length (sorted l) = length l.
Proof. by rewrite sorted_perm. Qed.

Lemma insert_sorted_ascending x l :
  StronglySorted Rle l → StronglySorted Rle (insert_sorted x l).
Proof.
  induction 1 as [|y l Hl IH Hy]; simpl.
  - repeat constructor.
  - case_decide as Hxy.
    + constructor; [by constructor|]. constructor; [done|].
      eapply Forall_impl; [exact Hy|]. intros z Hz. simpl in Hz. lra.
    + constructor; [done|].
      rewrite insert_sorted_perm. constructor; [lra|done].
Qed.

Lemma sorted_ascending l : StronglySorted Rle (sorted l).
Proof.
  induction l as [|x l IH]; simpl; [constructor|].
  by apply insert_sorted_ascending.
Qed.

Lemma insert_ranked_perm x l : insert_ranked x l ≡ₚ x :: l.
Proof.
  induction l as [|y l IH]; simpl; [done|].
  case_decide; [done|]. rewrite IH. apply Permutation_swap.
Qed.

Lemma sorted_by_score_desc_perm l : sorted_by_score_desc l ≡ₚ l.
Proof.
  induction l as [|x l IH]; simpl; [done|].
  fold (sorted_by_score_desc l). rewrite insert_ranked_perm. by rewrite IH.
Qed.

Lemma list_index_ok name names : name ∈ names → is_ok (list_index name names).
Proof.
  induction names as [|n rest IH]; intros Hin.
  - by apply elem_of_nil in Hin.
  - simpl. case_decide as Hn; [done|].
    apply elem_of_cons in Hin as [->|Hin]; [done|].
    apply IH, is_ok_Ok in Hin as [i ->]. done.
Qed.

Lemma resample_mean_spec dims indices :
  indices ≠ [] →
  Forall (λ i, (0 ≤ i < Z.of_nat (length dims))%Z) indices →
  resample_mean dims indices = Ok (mean_at dims indices).
Proof.
  intros Hne Hall. unfold resample_mean.
  rewrite (map_result_Ok _ (λ i, nth (Z.to_nat i) dims 0)).
  - simpl. unfold py_div. rewrite length_fmap.
    rewrite decide_False; [reflexivity|].
    destruct indices; [done|]. rewrite length_cons, S_INR.
    pose proof (pos_INR (length indices)). lra.
  - eapply Forall_impl; [exact Hall|]. intros i Hi. simpl.
    destruct (py_index_Ok dims i Hi) as (x & -> & Hx).
    f_equal. symmetry. by apply nth_lookup_Some.
Qed.

Lemma score_family_shape name fd scores overall :
  StatisticalControls.score_family name fd = Ok (scores, overall) →
  scores.*1 = dimension_labels.
Proof.
  intros (s1 & s2 & s3 & s4 & s5 & s6 & s7 & s8 & _ & _ & _ & _ & _ & _ &
          _ & _ & -> & _)%score_family_Ok.
  reflexivity.
Qed.

Lemma score_all_spec families :
  NoDup families.*1 →
  Forall (λ p, is_ok (StatisticalControls.score_family p.1 p.2)) families →
  ∀ acc, ∃ fds,
    score_all families acc = Ok fds ∧
    (∀ fname fd scores overall,
       (fname, fd) ∈ families →
       StatisticalControls.score_family fname fd = Ok (scores, overall) →
       fds !! fname = Some scores.*2) ∧
    (∀ k, k ∉ families.*1 → fds !! k = acc !! k).
Proof.
  induction families as [|[fname fd] rest IH]; intros Hnd Hok acc.
  - exists acc. split; [done|]. split; [|done].
    intros ???? Hin. by apply elem_of_nil in Hin.
  - rewrite fmap_cons in Hnd. apply NoDup_cons in Hnd as [Hnotin Hnd].
    apply Forall_cons in Hok as [Hfd Hok]. simpl in Hfd.
    apply is_ok_Ok in Hfd as [[scores ov] Hfd].
    destruct (IH Hnd Hok (<[fname := scores.*2]> acc)) as (fds & Hrun & Hin & Hout).
    exists fds. split; [|split].
    + simpl. rewrite Hfd. exact Hrun.
    + intros f d s o Hmem Hs. apply elem_of_cons in Hmem as [[= -> ->]|Hmem].
      * rewrite Hout by done. rewrite lookup_insert_eq.
        rewrite Hfd in Hs. by injection Hs as <- <-.
      * by eapply Hin.
    + intros k Hk. rewrite fmap_cons in Hk. apply not_elem_of_cons in Hk as [Hk1 Hk2].
      rewrite Hout by done. by rewrite lookup_insert_ne.
Qed.

Lemma bootstrap_families_spec n_dims names fds indices :
  NoDup names → (0 < n_dims)%nat → valid_indices n_dims indices →
  (∀ fname, fname ∈ names →
     ∃ dims, fds !! fname = Some dims ∧ length dims = n_dims) →
  ∀ iter scores,
    (∀ fname, fname ∈ names → is_Some (scores !! fname)) →
    ∃ iter' scores',
      bootstrap_families names fds indices iter scores = Ok (iter', scores') ∧
      iter'.*1 = iter.*1 ++ names ∧
      (∀ fname dims prev,
         fname ∈ names → fds !! fname = Some dims → scores !! fname = Some prev →
         scores' !! fname = Some (prev ++ [mean_at dims indices])) ∧
      (∀ k, k ∉ names → scores' !! k = scores !! k).
Proof.
  intros Hnd HD [Hlen Hidx] Hdims.
  induction names as [|fname rest IH]; intros iter scores Hsc.
  - exists iter, scores. split; [done|]. split; [by rewrite app_nil_r|].
    split; [|done]. intros ??? Hin. by apply elem_of_nil in Hin.
  - apply NoDup_cons in Hnd as [Hnotin Hnd].
    destruct (Hdims fname) as (dims & Hfd & Hdl); [left|].
    destruct (Hsc fname) as [so_far Hso]; [left|].
    assert (resample_mean dims indices = Ok (mean_at dims indices)) as Hrm.
    { apply resample_mean_spec.
      - intros ->. simpl in Hlen. lia.
      - by rewrite Hdl. }
    destruct (IH Hnd) with
      (iter := iter ++ [(fname, mean_at dims indices)])
      (scores := <[fname := so_far ++ [mean_at dims indices]]> scores)
      as (iter' & scores' & Hrun & Hnames & Hin & Hout).
    { intros f Hf. apply Hdims. by right. }
    { intros f Hf. rewrite lookup_insert_ne by (intros ->; done).
      apply Hsc. by right. }
    exists iter', scores'. split; [|split; [|split]].
    + simpl. rewrite Hfd. simpl. rewrite Hrm. simpl. rewrite Hso. simpl.
      exact Hrun.
    + rewrite Hnames, fmap_app. simpl. by rewrite <- app_assoc.
    + intros f d prev Hf Hd Hp. apply elem_of_cons in Hf as [->|Hf].
      * rewrite Hout by done. rewrite lookup_insert_eq.
        rewrite Hfd in Hd. injection Hd as <-.
        rewrite Hso in Hp. by injection Hp as <-.
      * apply Hin; [done|done|].
        rewrite lookup_insert_ne by (intros ->; done). done.
    + intros k Hk. apply not_elem_of_cons in Hk as [Hk1 Hk2].
      rewrite Hout by done. by rewrite lookup_insert_ne.
Qed.

Section BootstrapFacts.
Context {G : Type} (randint : Z → Z → G → Z * G).
Hypothesis randint_ok : randint_contract randint.

Lemma draw_indices_valid n_dims k g :
  (0 < n_dims)%nat →
  length (draw_indices randint n_dims k g).1 = k ∧
  Forall (λ i, (0 ≤ i < Z.of_nat n_dims)%Z) (draw_indices randint n_dims k g).1.
Proof.
  intros HD. revert g. induction k as [|k IH]; intros g.
  - simpl. split; [done|constructor].
  - simpl. pose proof (randint_ok 0%Z (Z.of_nat n_dims - 1)%Z g) as Hr.
    destruct (randint 0%Z (Z.of_nat n_dims - 1)%Z g) as [i g1].
    specialize (IH g1). destruct (draw_indices randint n_dims k g1) as [rest g2].
    simpl in *. destruct IH as [IH1 IH2]. split; [by rewrite IH1|].
    constructor; [lia|done].
Qed.

Lemma trial_draws_valid n_dims k g :
  (0 < n_dims)%nat →
  length (trial_draws randint n_dims k g) = k ∧
  Forall (valid_indices n_dims) (trial_draws randint n_dims k g).
Proof.
  intros HD. revert g. induction k as [|k IH]; intros g.
  - simpl. split; [done|constructor].
  - simpl. pose proof (draw_indices_valid n_dims n_dims g HD) as Hv.
    destruct (draw_indices randint n_dims n_dims g) as [indices g1].
    destruct (IH g1) as [IH1 IH2]. simpl in *. split; [by rewrite IH1|].
    constructor; [done|done].
Qed.

Lemma bootstrap_trials_spec n_dims names fds :
  (0 < n_dims)%nat → NoDup names → "Hurro-Urartian"%string ∈ names →
  (∀ fname, fname ∈ names →
     ∃ dims, fds !! fname = Some dims ∧ length dims = n_dims) →
  ∀ k st g,
    (∀ fname, fname ∈ names → is_Some (bootstrap_scores st !! fname)) →
    ∃ st' g',
      bootstrap_trials randint k names fds n_dims st g = Ok (st', g') ∧
      (∀ fname dims prev,
         fname ∈ names → fds !! fname = Some dims →
         bootstrap_scores st !! fname = Some prev →
         bootstrap_scores st' !! fname
         = Some (prev ++ (mean_at dims <$> trial_draws randint n_dims k g))).
Proof.
  intros HD Hnd Hh Hdims. induction k as [|k IH]; intros st g Hsc.
  - exists st, g. split; [done|]. intros f d p _ _ Hp. simpl.
    by rewrite app_nil_r.
  - cbn [bootstrap_trials trial_draws].
    pose proof (draw_indices_valid n_dims n_dims g HD) as Hv.
    destruct (draw_indices randint n_dims n_dims g) as [indices g1].
    simpl in Hv.
    destruct (bootstrap_families_spec n_dims names fds indices Hnd HD Hv Hdims
                [] (bootstrap_scores st) Hsc)
      as (iter' & scores' & Hrun & Hnames & Hin & Hout).
    rewrite Hrun. cbn [mbind result_bind].
    assert (is_ok (list_index "Hurro-Urartian" (sorted_by_score_desc iter').*1))
      as [pos Hpos]%is_ok_Ok.
    { apply list_index_ok. rewrite sorted_by_score_desc_perm, Hnames. done. }
    rewrite Hpos. cbn [mbind result_bind].
    match goal with |- context [bootstrap_trials _ _ _ _ _ ?s _] =>
      destruct (IH s g1) as (st' & g' & Hrest & Hfinal) end.
    { simpl. intros f Hf. destruct (Hsc f Hf) as [prev Hprev].
      destruct (Hdims f Hf) as (dims & Hd & _).
      rewrite (Hin f dims prev Hf Hd Hprev). by eexists. }
    exists st', g'. split; [exact Hrest|].
    intros f dims prev Hf Hd Hprev.
    rewrite (Hfinal f dims (prev ++ [mean_at dims indices]) Hf Hd).
    + rewrite fmap_cons, <- app_assoc. reflexivity.
    + simpl. by apply Hin.
Qed.

End BootstrapFacts.

Lemma map_result_is_ok {A B} (f : A → result B) (xs : list A) :
  Forall (λ x, is_ok (f x)) xs → is_ok (map_result f xs).
Proof.
  induction 1 as [|x xs Hx _ IH]; [done|].
  simpl. apply is_ok_Ok in Hx as [y ->]. apply is_ok_Ok in IH as [ys ->]. done.
Qed.

Lemma map_result_elem {A B} (f : A → result B) (xs : list A) (ys : list B) x :
  map_result f xs = Ok ys → x ∈ xs → ∃ y, f x = Ok y ∧ y ∈ ys.
Proof.
  revert ys. induction xs as [|x' xs IH]; intros ys Hrun Hin.
  - by apply elem_of_nil in Hin.
  - simpl in Hrun. apply bind_Ok in Hrun as (y & Hy & Hrun).
    apply bind_Ok in Hrun as (ys' & Hys & [= <-]).
    apply elem_of_cons in Hin as [->|Hin].
    + exists y. split; [done|left].
    + destruct (IH ys' Hys Hin) as (y' & Hy' & Hiny'). exists y'.
      split; [done|by right].
Qed.

Lemma map_result_keys {A} (f : string → result (string * A)) xs ys :
  (∀ x y, f x = Ok y → y.1 = x) → map_result f xs = Ok ys → ys.*1 = xs.
Proof.
  intros Hf. revert ys. induction xs as [|x xs IH]; intros ys Hrun.
  - simpl in Hrun. by injection Hrun as <-.
  - simpl in Hrun. apply bind_Ok in Hrun as (y & Hy & Hrun).
    apply bind_Ok in Hrun as (ys' & Hys & [= <-]).
    rewrite fmap_cons, (IH ys' Hys), (Hf x y Hy). reflexivity.
Qed.

Lemma percentile_index_bounds (q : R) (n : nat) :
  0 <= q < 1 → (0 < n)%nat →
  (0 ≤ py_int (q * INR n) < Z.of_nat n)%Z.
Proof.
  intros Hq Hn. apply lt_INR in Hn. simpl in Hn.
  assert (0 <= q * INR n) as Hnn by (apply Rmult_le_pos; lra).
  pose proof (py_int_floor_spec _ Hnn) as [Hlo Hhi].
  assert (q * INR n < INR n) as Hlt by nra.
  set (k := py_int (q * INR n)) in *.
  split.
  - destruct (Z_lt_le_dec k 0) as [Hneg|Hge]; [|exact Hge].
    exfalso. assert (k ≤ -1)%Z as H1 by lia.
    apply IZR_le in H1. lra.
  - apply lt_IZR. rewrite <- INR_IZR_INZ. lra.
Qed.

Lemma confidence_interval_spec (n_iterations : nat) (trials : list R) :
  length trials = n_iterations → (0 < n_iterations)%nat →
  ∃ mean ci_low ci_high,
    confidence_interval n_iterations trials = Ok (mean, ci_low, ci_high) ∧
    sorted trials !! Z.to_nat (py_int (0.025 * INR n_iterations)) = Some ci_low ∧
    sorted trials !! Z.to_nat (py_int (0.975 * INR n_iterations)) = Some ci_high.
Proof.
  intros Hlen Hn. unfold confidence_interval.
  assert (length (sorted trials) = n_iterations) as Hsl
    by (by rewrite sorted_length).
  unfold py_div. rewrite decide_False.
  2:{ rewrite Hsl. apply lt_INR in Hn. simpl in Hn. lra. }
  cbn [mbind result_bind].
  pose proof (percentile_index_bounds 0.025 n_iterations) as Hlo.
  pose proof (percentile_index_bounds 0.975 n_iterations) as Hhi.
  destruct (py_index_Ok (sorted trials) (py_int (0.025 * INR n_iterations)))
    as (lo & -> & Hlo'); [rewrite Hsl; apply Hlo; [lra|done]|].
  destruct (py_index_Ok (sorted trials) (py_int (0.975 * INR n_iterations)))
    as (hi & -> & Hhi'); [rewrite Hsl; apply Hhi; [lra|done]|].
  cbn [mbind result_bind]. by eexists _, _, _.
Qed.

Lemma list_to_map_empty_lists (names : list string) fname :
  fname ∈ names →
  (list_to_map ((λ f, (f, [])) <$> names) : gmap string (list R)) !! fname
  = Some [].
Proof.
  intros Hin. induction names as [|n rest IH]; [by apply elem_of_nil in Hin|].
  rewrite fmap_cons. cbn [list_to_map foldr]. fold (list_to_map (M := gmap string (list R)) ((λ f, (f, [])) <$> rest)).
  destruct (decide (n = fname)) as [->|Hne].
  - by rewrite lookup_insert_eq.
  - rewrite lookup_insert_ne by done. apply IH.
    apply elem_of_cons in Hin as [->|Hin]; done.
Qed.

Section Calls.
Context {G : Type} (randint : Z → Z → G → Z * G).

Lemma randint_calls_length a b k g :
  length (randint_calls randint a b k g).1 = k.
Proof.
  revert g. induction k as [|k IH]; intros g; [done|].
  cbn [randint_calls fst length]. by rewrite IH.
Qed.

Lemma randint_calls_app a b k1 k2 g :
  randint_calls randint a b (k1 + k2) g
  = ((randint_calls randint a b k1 g).1
     ++ (randint_calls randint a b k2 (randint_calls randint a b k1 g).2).1,
     (randint_calls randint a b k2 (randint_calls randint a b k1 g).2).2).
Proof.
  revert g. induction k1 as [|k1 IH]; intros g.
  - cbn [Nat.add randint_calls fst snd app]. by destruct (randint_calls _ _ _ _ _).
  - cbn [Nat.add randint_calls fst snd]. rewrite IH. reflexivity.
Qed.

Lemma draw_indices_calls n_dims k g :
  draw_indices randint n_dims k g
  = randint_calls randint 0 (Z.of_nat n_dims - 1) k g.
Proof.
  revert g. induction k as [|k IH]; intros g; [done|].
  cbn [draw_indices randint_calls].
  destruct (randint 0%Z (Z.of_nat n_dims - 1)%Z g) as [i g1]. cbn [fst snd].
  rewrite IH. by destruct (randint_calls _ _ _ _ _).
Qed.

Lemma block_0 {A} n (l1 l2 : list A) :
  length l1 = n → block n 0 (l1 ++ l2) = l1.
Proof.
  intros Hl. unfold block. rewrite Nat.mul_0_l, drop_0.
  by rewrite take_app_length'.
Qed.

Lemma block_S {A} n i (l1 l2 : list A) :
  length l1 = n → block n (S i) (l1 ++ l2) = block n i l2.
Proof.
  intros Hl. unfold block. f_equal.
  replace (S i * n)%nat with (n + i * n)%nat by lia.
  rewrite <- drop_drop. by rewrite drop_app_length'.
Qed.

Lemma trial_draws_blocks n_dims iterations g :
  trial_draws randint n_dims iterations g
  = (λ i, block n_dims i
            (randint_calls randint 0 (Z.of_nat n_dims - 1)
               (iterations * n_dims) g).1)
    <$> seq 0 iterations.
Proof.
  revert g. induction iterations as [|k IH]; intros g; [done|].
  cbn [trial_draws]. rewrite draw_indices_calls.
  change (S k * n_dims)%nat with (n_dims + k * n_dims)%nat.
  rewrite randint_calls_app. cbn [fst].
  pose proof (randint_calls_length 0 (Z.of_nat n_dims - 1) n_dims g) as Hl.
  destruct (randint_calls randint 0 (Z.of_nat n_dims - 1) n_dims g)
    as [indices g1]. cbn [fst snd] in *.
  rewrite IH. cbn [seq fmap list_fmap]. rewrite block_0 by done.
  f_equal. rewrite <- fmap_S_seq, <- list_fmap_compose.
  apply list_fmap_ext. intros j i _. cbn. by rewrite block_S.
Qed.

Lemma bootstrap_trials_generator k names fds n_dims st g st' g' :
  bootstrap_trials randint k names fds n_dims st g = Ok (st', g') →
  g' = (randint_calls randint 0 (Z.of_nat n_dims - 1) (k * n_dims) g).2.
Proof.
  revert st g. induction k as [|k IH]; intros st g Hrun.
  - cbn in Hrun. by injection Hrun as _ <-.
  - cbn [bootstrap_trials] in Hrun. rewrite draw_indices_calls in Hrun.
    change (S k * n_dims)%nat with (n_dims + k * n_dims)%nat.
    rewrite randint_calls_app. cbn [snd].
    destruct (randint_calls randint 0 (Z.of_nat n_dims - 1) n_dims g)
      as [indices g1]. cbn [fst snd].
    apply bind_Ok in Hrun as ([iter scores] & _ & Hrun).
    apply bind_Ok in Hrun as (pos & _ & Hrun).
    by apply IH in Hrun.
Qed.

End Calls.

Section BootstrapTheorem.
Context {G : Type} (randint : Z → Z → G → Z * G).
Hypothesis randint_ok : randint_contract randint.

(** C5.  When every family of the table is scored and at least one trial
    is run, [run_bootstrap_test] returns.  It calls [random.randint(0, D - 1)]
    [N * D] times, [D] being the number of dimensions and [N] the number of
    trials, and leaves the generator in the state after these calls; the
    [D] results of the [i]-th block of calls are the index list of trial
    [i].  That one list is applied to the score vector of every family,
    and the family's score of the trial is the mean of the resampled
    values.  The bounds reported for a family are the entries of its sorted
    trial scores, in ascending order, at the positions [floor(0.025 * N)]
    and [floor(0.975 * N)]. *)
Theorem bootstrap_shares_draws (LANGUAGE_FAMILIES : list (string * family_data))
    (n_iterations : nat) (g : G) :
  NoDup LANGUAGE_FAMILIES.*1 →
  "Hurro-Urartian"%string ∈ LANGUAGE_FAMILIES.*1 →
  all_scored LANGUAGE_FAMILIES →
  (0 < n_iterations)%nat →
  let D := length dimension_labels in
  let calls := randint_calls randint 0 (Z.of_nat D - 1) (n_iterations * D) g in
  let draws := (λ i, block D i calls.1) <$> seq 0 n_iterations in
  let k_low := py_int (0.025 * INR n_iterations) in
  let k_high := py_int (0.975 * INR n_iterations) in
  ∃ report,
    run_bootstrap_test randint LANGUAGE_FAMILIES n_iterations g
    = Ok (report, calls.2) ∧
    length calls.1 = (n_iterations * D)%nat ∧
    length draws = n_iterations ∧
    Forall (valid_indices D) draws ∧
    IZR k_low <= 0.025 * INR n_iterations < IZR k_low + 1 ∧
    IZR k_high <= 0.975 * INR n_iterations < IZR k_high + 1 ∧
    ∀ fname fdata scores overall,
      (fname, fdata) ∈ LANGUAGE_FAMILIES →
      StatisticalControls.score_family fname fdata = Ok (scores, overall) →
      let trials := mean_at scores.*2 <$> draws in
      trial_scores report !! fname = Some trials ∧
      StronglySorted Rle (sorted trials) ∧
      sorted trials ≡ₚ trials ∧
      ∃ mean ci_low ci_high,
        (fname, (mean, ci_low, ci_high)) ∈ intervals report ∧
        sorted trials !! Z.to_nat k_low = Some ci_low ∧
        sorted trials !! Z.to_nat k_high = Some ci_high.
Proof.
  intros Hnd Hh Hok Hn D calls draws k_low k_high.
  assert (length calls.1 = (n_iterations * D)%nat) as Hcl
    by apply randint_calls_length.
  subst draws calls.
  rewrite <- (trial_draws_blocks randint D n_iterations g).
  set (draws := trial_draws randint D n_iterations g).
  set (names := LANGUAGE_FAMILIES.*1) in *.
  assert (0 < D)%nat as HD by (subst D; simpl; lia).
  destruct (score_all_spec LANGUAGE_FAMILIES Hnd Hok ∅) as (fds & Hall & Hin & _).
  assert (∀ fname, fname ∈ names →
            ∃ fdata scores overall,
              (fname, fdata) ∈ LANGUAGE_FAMILIES ∧
              StatisticalControls.score_family fname fdata = Ok (scores, overall))
    as Hscored.
  { intros fname Hf. apply list_elem_of_fmap in Hf as ([f fd] & -> & Hmem).
    unfold all_scored in Hok. rewrite Forall_forall in Hok.
    pose proof (Hok _ Hmem) as [[s o] Hs]%is_ok_Ok. by exists fd, s, o. }
  assert (∀ fname, fname ∈ names →
            ∃ dims, fds !! fname = Some dims ∧ length dims = D) as Hdims.
  { intros fname Hf. destruct (Hscored fname Hf) as (fd & s & o & Hmem & Hs).
    exists s.*2. split; [by eapply Hin|].
    rewrite length_fmap, <- (length_fmap fst), (score_family_shape _ _ _ _ Hs).
    reflexivity. }
  destruct (Hdims _ Hh) as (hd & Hhd & Hhl).
  set (st0 := {| bootstrap_scores :=
                   list_to_map ((λ fname, (fname, [])) <$> names);
                 hurrian_rank := []; hurrian_wins := 0 |}).
  destruct (bootstrap_trials_spec randint randint_ok D names fds HD Hnd Hh Hdims
              n_iterations st0 g) as (st & g' & Hloop & Hfinal).
  { intros fname Hf. simpl. rewrite list_to_map_empty_lists by done. by eexists. }
  assert (∀ fname dims, fname ∈ names → fds !! fname = Some dims →
            bootstrap_scores st !! fname = Some (mean_at dims <$> draws)) as Hst.
  { intros fname dims Hf Hd.
    rewrite (Hfinal fname dims [] Hf Hd); [done|].
    simpl. by apply list_to_map_empty_lists. }
  pose proof (trial_draws_valid randint randint_ok D n_iterations g HD)
    as [Hdl Hdv].
  fold draws in Hdl, Hdv.
  assert (is_ok (map_result (report_key (bootstrap_scores st)) names)) as Hkeyed.
  { apply map_result_is_ok, Forall_forall. intros fname Hf.
    destruct (Hdims fname Hf) as (dims & Hd & _).
    unfold report_key. rewrite (Hst fname dims Hf Hd). cbn [getitem mbind result_bind].
    unfold py_div. rewrite decide_False; [done|].
    rewrite length_fmap, Hdl. apply lt_INR in Hn. simpl in Hn. lra. }
  apply is_ok_Ok in Hkeyed as [keyed Hkeyed].
  assert (keyed.*1 = names) as Hkn.
  { eapply map_result_keys; [|exact Hkeyed].
    intros x y. unfold report_key.
    intros (s & _ & (m & _ & [= <-])%bind_Ok)%bind_Ok. reflexivity. }
  assert ((sorted_by_score_desc keyed).*1 ≡ₚ names) as Hperm.
  { by rewrite sorted_by_score_desc_perm, Hkn. }
  assert (∀ fname, fname ∈ names →
            ∃ dims mean ci_low ci_high,
              fds !! fname = Some dims ∧
              report_row n_iterations (bootstrap_scores st) fname
              = Ok (fname, (mean, ci_low, ci_high)) ∧
              sorted (mean_at dims <$> draws) !! Z.to_nat k_low = Some ci_low ∧
              sorted (mean_at dims <$> draws) !! Z.to_nat k_high = Some ci_high)
    as Hrow.
  { intros fname Hf. destruct (Hdims fname Hf) as (dims & Hd & _).
    destruct (confidence_interval_spec n_iterations (mean_at dims <$> draws))
      as (mean & lo & hi & Hci & Hlo & Hhi); [by rewrite length_fmap|done|].
    exists dims, mean, lo, hi. split; [done|]. split; [|done].
    unfold report_row. rewrite (Hst fname dims Hf Hd).
    cbn [getitem mbind result_bind]. rewrite Hci. reflexivity. }
  assert (is_ok (map_result (report_row n_iterations (bootstrap_scores st))
                   (sorted_by_score_desc keyed).*1)) as Hrows.
  { apply map_result_is_ok, Forall_forall. intros fname Hf.
    rewrite Hperm in Hf. destruct (Hrow fname Hf) as (? & ? & ? & ? & _ & -> & _).
    done. }
  apply is_ok_Ok in Hrows as [rows Hrows].
  pose proof (bootstrap_trials_generator randint _ _ _ _ _ _ _ _ Hloop) as Hg.
  subst g'.
  eexists. split.
  { unfold run_bootstrap_test. fold names. rewrite Hall. cbn [mbind result_bind].
    rewrite Hhd. cbn [getitem mbind result_bind]. rewrite Hhl.
    fold st0. rewrite Hloop. cbn [mbind result_bind].
    rewrite Hkeyed. cbn [mbind result_bind].
    rewrite Hrows. cbn [mbind result_bind].
    unfold py_div. rewrite decide_False.
    2:{ apply lt_INR in Hn. simpl in Hn. lra. }
    reflexivity. }
  split; [exact Hcl|]. split; [exact Hdl|]. split; [exact Hdv|].
  split. { apply py_int_floor_spec. apply Rmult_le_pos; [lra|apply pos_INR]. }
  split. { apply py_int_floor_spec. apply Rmult_le_pos; [lra|apply pos_INR]. }
  intros fname fdata scores overall Hmem Hs trials.
  assert (fname ∈ names) as Hf.
  { apply list_elem_of_fmap. by exists (fname, fdata). }
  pose proof (Hin _ _ _ _ Hmem Hs) as Hd.
  cbn [trial_scores intervals]. split; [by apply Hst|].
  split; [apply sorted_ascending|]. split; [apply sorted_perm|].
  destruct (Hrow fname Hf) as (dims & mean & lo & hi & Hd' & Hr & Hlo & Hhi).
  rewrite Hd in Hd'. injection Hd' as <-.
  exists mean, lo, hi. split; [|done].
  assert (fname ∈ (sorted_by_score_desc keyed).*1) as Hf' by (by rewrite Hperm).
  destruct (map_result_elem _ _ _ _ Hrows Hf') as (y & Hy & Hiny).
  rewrite Hr in Hy. by injection Hy as <-.
Qed.


End BootstrapTheorem.

Lemma counter_randint_contract : randint_contract counter_randint.
Proof.
  intros a b g Hab. unfold counter_randint. cbn [fst].
  pose proof (Z.mod_pos_bound (Z.of_nat g) (b - a + 1)). lia.
Qed.

Lemma one_family_scored : all_scored one_family.
Proof.
  apply List.Forall_cons; [|apply List.Forall_nil].
  apply score_family_total, Hurro_Urartian_complete.
Qed.

(** The counter generator walks through the eight positions in each
    trial. *)
Example counter_trial_draws :
  trial_draws counter_randint 8 2 0%nat
  = [[0; 1; 2; 3; 4; 5; 6; 7]; [0; 1; 2; 3; 4; 5; 6; 7]]%Z.
Proof. vm_compute. reflexivity. Qed.

Lemma Semitic_complete : complete Semitic.
Proof.
  unfold complete, Semitic; simpl.
  repeat split; by eexists.
Qed.

Lemma two_families_scored : all_scored two_families.
Proof.
  apply List.Forall_cons; [|apply List.Forall_cons; [|apply List.Forall_nil]].
  - apply score_family_total, Hurro_Urartian_complete.
  - apply score_family_total, Semitic_complete.
Qed.

Lemma two_families_names : NoDup two_families.*1.
Proof. apply (bool_decide_unpack _). vm_compute. exact I. Qed.

Lemma two_families_hurrian :
  ("Hurro-Urartian"%string, Hurro_Urartian) ∈ two_families.
Proof. apply list_elem_of_here. Qed.

Lemma quadratic_randint_contract : randint_contract quadratic_randint.
Proof.
  intros a b g Hab. unfold quadratic_randint. cbn [fst].
  pose proof (Z.mod_pos_bound (Z.of_nat (g * g) / 3) (b - a + 1)). lia.
Qed.

(** Sixteen calls of the quadratic generator, and their two blocks. *)
Example quadratic_calls :
  randint_calls quadratic_randint 0 (Z.of_nat (length dimension_labels) - 1)
    (2 * length dimension_labels) 0%nat
  = ([0; 0; 1; 3; 5; 0; 4; 0; 5; 3; 1; 0; 0; 0; 1; 3]%Z, 16%nat).
Proof. vm_compute. reflexivity. Qed.

(** Two trials over a table of two families, with the quadratic
    generator: both families are resampled at the same positions. *)
Lemma bootstrap_shares_draws_witness :
  randint_contract quadratic_randint ∧
  NoDup two_families.*1 ∧
  "Hurro-Urartian"%string ∈ two_families.*1 ∧
  all_scored two_families ∧
  (0 < 2)%nat ∧
  ∃ report,
    run_bootstrap_test quadratic_randint two_families 2 0%nat
    = Ok (report, 16%nat) ∧
    ∀ fname fdata scores overall,
      (fname, fdata) ∈ two_families →
      StatisticalControls.score_family fname fdata = Ok (scores, overall) →
      trial_scores report !! fname
      = Some (mean_at scores.*2
                <$> [[0; 0; 1; 3; 5; 0; 4; 0]; [5; 3; 1; 0; 0; 0; 1; 3]]%Z).
Proof.
  assert ("Hurro-Urartian"%string ∈ two_families.*1) as Hin.
  { apply list_elem_of_here. }
  assert (0 < 2)%nat as Hn by lia.
  split; [exact quadratic_randint_contract|].
  split; [exact two_families_names|].
  split; [exact Hin|]. split; [exact two_families_scored|]. split; [exact Hn|].
  destruct (bootstrap_shares_draws quadratic_randint quadratic_randint_contract
              two_families 2 0%nat two_families_names Hin two_families_scored Hn)
    as (report & Hrun & _ & _ & _ & _ & _ & Hfam).
  rewrite quadratic_calls in Hrun, Hfam.
  exists report. split; [exact Hrun|].
  intros fname fdata scores overall Hmem Hs.
  destruct (Hfam fname fdata scores overall Hmem Hs) as [Ht _].
  exact Ht.
Defined.

(** * Further properties of the engines *)

(** ** Scoring: full marks, completeness, empty maps, the expanded vocabulary *)

Lemma log2_nonpos x : 0 < x <= 1 → log2 x <= 0.
Proof.
  intros [H0 H1]. unfold log2.
  assert (ln x <= 0) as Hln.
  { destruct H1 as [H1| ->]; [|rewrite ln_1; lra].
    pose proof (ln_increasing x 1 H0 H1) as Hi. rewrite ln_1 in Hi. lra. }
  assert (0 < ln 2) as H2 by (pose proof ln_lt_2; lra).
  apply Rinv_0_lt_compat in H2.
  unfold Rdiv. nra.
Qed.

Lemma vowel_term_nonpos t r : 0 < t → 0 < r → t <= r → t * log2 (t / r) <= 0.
Proof.
  intros Ht Hr Htr.
  assert (log2 (t / r) <= 0) as Hl.
  { apply log2_nonpos. split.
    - by apply Rdiv_lt_0_compat.
    - apply (Rmult_le_reg_r r); [done|]. unfold Rdiv.
      rewrite Rmult_assoc, Rinv_l by lra. lra. }
  nra.
Qed.

Lemma vowel_distance_fold_nonpos target reference vs acc :
  (∀ v, v ∈ vs → dominates target reference v) → acc <= 0 →
  fold_left
    (fun dist v =>
       let t := get0 target v / 100 in
       let r := get0 reference v / 100 in
       if bool_decide (0 < t) && bool_decide (0 < r)
       then dist + t * log2 (t / r)
       else dist) vs acc <= 0.
Proof.
  revert acc. induction vs as [|v vs IH]; intros acc Hd Hacc; [done|].
  cbn [fold_left]. apply IH.
  - intros v' Hv'. apply Hd. by right.
  - cbv zeta. destruct (bool_decide (0 < get0 target v / 100)) eqn:Ht;
      destruct (bool_decide (0 < get0 reference v / 100)) eqn:Hr;
      cbn [andb]; try done.
    apply bool_decide_eq_true_1 in Ht, Hr.
    destruct (Hd v) as [Hn|Hle]; [left|lra|].
    pose proof (vowel_term_nonpos (get0 target v / 100) (get0 reference v / 100)
                  Ht Hr) as Hterm.
    lra.
Qed.

Lemma log2_neg x : 0 < x < 1 → log2 x < 0.
Proof.
  intros [H0 H1]. unfold log2.
  pose proof (ln_increasing x 1 H0 H1) as Hi. rewrite ln_1 in Hi.
  assert (0 < ln 2) as H2 by (pose proof ln_lt_2; lra).
  apply Rinv_0_lt_compat in H2.
  unfold Rdiv. nra.
Qed.

Lemma vowel_term_neg t r : 0 < t → t < r → t * log2 (t / r) < 0.
Proof.
  intros Ht Htr.
  assert (log2 (t / r) < 0) as Hl.
  { apply log2_neg. split.
    - apply Rdiv_lt_0_compat; lra.
    - apply (Rmult_lt_reg_r r); [lra|]. unfold Rdiv.
      rewrite Rmult_assoc, Rinv_l by lra. lra. }
  nra.
Qed.

Lemma vowel_distance_fold_neg target reference vs acc :
  (∀ v, v ∈ vs → dominates target reference v) → acc <= 0 →
  (acc < 0 ∨ ∃ v, v ∈ vs ∧ 0 < get0 target v < get0 reference v) →
  fold_left
    (fun dist v =>
       let t := get0 target v / 100 in
       let r := get0 reference v / 100 in
       if bool_decide (0 < t) && bool_decide (0 < r)
       then dist + t * log2 (t / r)
       else dist) vs acc < 0.
Proof.
  revert acc. induction vs as [|v vs IH]; intros acc Hd Hacc Hs.
  - cbn [fold_left]. destruct Hs as [Hs|(v & Hv & _)]; [done|].
    by apply elem_of_nil in Hv.
  - cbn [fold_left]. cbv zeta.
    assert (dominates target reference v) as Hdv by (apply Hd; left).
    assert (∀ v', v' ∈ vs → dominates target reference v') as Hd'
      by (intros v' Hv'; apply Hd; by right).
    destruct (bool_decide (0 < get0 target v / 100)) eqn:Ht;
      destruct (bool_decide (0 < get0 reference v / 100)) eqn:Hr;
      cbn [andb].
    + apply bool_decide_eq_true_1 in Ht, Hr.
      destruct Hdv as [Hn|Hle]; [lra|].
      pose proof (vowel_term_nonpos (get0 target v / 100)
                    (get0 reference v / 100) Ht Hr) as Hterm.
      apply IH; [done|lra|].
      destruct Hs as [Hs|(v' & Hv' & Hstrict)]; [left; lra|].
      apply elem_of_cons in Hv' as [->|Hv']; [|right; by exists v'].
      left.
      pose proof (vowel_term_neg (get0 target v / 100)
                    (get0 reference v / 100)) as Hneg.
      lra.
    + apply bool_decide_eq_true_1 in Ht. apply bool_decide_eq_false_1 in Hr.
      apply IH; [done|done|].
      destruct Hs as [Hs|(v' & Hv' & Hstrict)]; [by left|].
      apply elem_of_cons in Hv' as [->|Hv']; [exfalso; lra|right; by exists v'].
    + apply bool_decide_eq_false_1 in Ht.
      apply IH; [done|done|].
      destruct Hs as [Hs|(v' & Hv' & Hstrict)]; [by left|].
      apply elem_of_cons in Hv' as [->|Hv']; [exfalso; lra|right; by exists v'].
    + apply bool_decide_eq_false_1 in Ht.
      apply IH; [done|done|].
      destruct Hs as [Hs|(v' & Hv' & Hstrict)]; [by left|].
      apply elem_of_cons in Hv' as [->|Hv']; [exfalso; lra|right; by exists v'].
Qed.

(** X1.  When every vowel has, in the candidate's distribution in use, a
    weight that is at least the target's or is not positive, the distance
    to the target is not positive and the vowel score is the full 100; when
    moreover some vowel of positive target weight has a larger weight in the
    candidate, the distance is negative, so the value before the clamp
    exceeds 100: the clamp hides by how much the candidate exceeds the
    target. *)
Theorem score_vowels_full_marks (fd : family_data) (bv : gmap string R) :
  best_vowels fd = Ok bv →
  (∀ v, v ∈ five_vowels → dominates LINEAR_A_vowels bv v) →
  vowel_distance LINEAR_A_vowels bv <= 0 ∧ score_vowels fd = Ok 100 ∧
  ((∃ v, v ∈ five_vowels ∧ 0 < get0 LINEAR_A_vowels v < get0 bv v) →
   vowel_distance LINEAR_A_vowels bv < 0 ∧
   100 < 100 - vowel_distance LINEAR_A_vowels bv * 500).
Proof.
  intros Hbv Hd.
  assert (vowel_distance LINEAR_A_vowels bv <= 0) as Hdist.
  { unfold vowel_distance. apply vowel_distance_fold_nonpos; [exact Hd|lra]. }
  split; [exact Hdist|]. split.
  - unfold score_vowels. rewrite Hbv. cbn [mbind result_bind]. f_equal.
    rewrite Rmax_right by lra. apply Rmin_left. lra.
  - intros Hs.
    assert (vowel_distance LINEAR_A_vowels bv < 0) as Hneg.
    { unfold vowel_distance.
      apply vowel_distance_fold_neg; [exact Hd|lra|by right]. }
    split; [exact Hneg|lra].
Qed.

Lemma generous_vowels_weights :
  get0 generous_vowels "a" = 45 ∧ get0 generous_vowels "i" = 21 ∧
  get0 generous_vowels "u" = 18 ∧ get0 generous_vowels "e" = 15 ∧
  get0 generous_vowels "o" = 5.
Proof. repeat split; reflexivity. Qed.

Lemma score_vowels_full_marks_witness :
  best_vowels generous_vowels_profile = Ok generous_vowels ∧
  vowel_distance LINEAR_A_vowels generous_vowels < 0 ∧
  score_vowels generous_vowels_profile = Ok 100.
Proof.
  destruct generous_vowels_weights as (Ha & Hi & Hu & He & Ho).
  destruct (score_vowels_full_marks generous_vowels_profile generous_vowels
              eq_refl) as (_ & Hscore & Hstrict).
  - intros v Hv. right. unfold five_vowels in Hv.
    repeat (apply elem_of_cons in Hv as [->|Hv]);
      [rewrite LA_a, Ha|rewrite LA_i, Hi|rewrite LA_u, Hu|rewrite LA_e, He
      |rewrite LA_o, Ho|by apply elem_of_nil in Hv]; lra.
  - split; [reflexivity|]. split; [|exact Hscore].
    apply Hstrict. exists "a"%string. split; [left|].
    rewrite LA_a, Ha. lra.
Defined.

Lemma dict_mean_Ok_nonempty (d : gmap string R) m :
  py_div (py_sum (values d)) (INR (len d)) = Ok m → d ≠ ∅.
Proof.
  intros [Hn _]%py_div_Ok ->. apply Hn. unfold len. rewrite map_size_empty.
  reflexivity.
Qed.

Lemma dict_mean_empty :
  py_div (py_sum (values (∅ : gmap string R))) (INR (len (∅ : gmap string R)))
  = Raise ZeroDivisionError.
Proof.
  unfold py_div, len. rewrite map_size_empty. cbn [INR].
  by rewrite decide_True.
Qed.

(** X2.  [score_family] of the statistical controls returns exactly on
    the complete profiles: a vowel map, a feature map, nonempty
    case-similarity and vocabulary maps and the four scalars; on any other
    profile it raises. *)
Theorem score_family_scored_iff_complete (family_name : string)
    (fd : family_data) :
  is_ok (StatisticalControls.score_family family_name fd) ↔ complete fd.
Proof.
  split; [|apply score_family_total].
  intros [[scores overall] Hrun]%is_ok_Ok.
  apply score_family_Ok in Hrun
    as (s1 & s2 & s3 & s4 & s5 & s6 & s7 & s8 & H1 & H2 & H3 & H4 & H5 & H6 &
        H7 & H8 & _ & _).
  unfold complete. repeat split.
  - unfold score_vowels in H1. apply bind_Ok in H1 as (bv & -> & _). done.
  - destruct (features fd) eqn:Hf; [by eexists|].
    rewrite score_features_missing in H2 by done. discriminate H2.
  - unfold score_cases in H3. apply bind_Ok in H3 as (m & Hm%getitem_Ok & Hd).
    exists m. split; [done|]. by eapply dict_mean_Ok_nonempty.
  - unfold StatisticalControls.score_vocabulary in H4.
    apply bind_Ok in H4 as (m & Hm%getitem_Ok & Hd).
    exists m. split; [done|]. by eapply dict_mean_Ok_nonempty.
  - by eexists.
  - by eexists.
  - by eexists.
  - by eexists.
Qed.

Lemma score_vowels_ok fd : is_Some (vowels fd) → is_ok (score_vowels fd).
Proof.
  intros [v Hv]. unfold score_vowels, best_vowels. rewrite Hv.
  destruct (hattusha_vowels fd) as [h|]; [destruct (truthy h)|]; done.
Qed.

(** X3.  A profile whose vowel and feature maps are present and whose
    case-similarity map is present but empty is not scored: the mean over
    the empty map divides by zero, and both pipelines raise
    [ZeroDivisionError] (where an absent map raises [KeyError]).  The same
    happens in the vocabulary scorers on an empty vocabulary map. *)
Theorem empty_map_divides_by_zero
    (EXPANDED_VOCABULARY : list ControlValidation.vocabulary_item)
    (family_name : string) (fd : family_data) (use_expanded_vocab : bool) :
  is_Some (vowels fd) → is_Some (features fd) →
  case_similarity fd = Some ∅ →
  score_cases fd = Raise ZeroDivisionError ∧
  StatisticalControls.score_family family_name fd = Raise ZeroDivisionError ∧
  ControlValidation.score_family EXPANDED_VOCABULARY family_name fd
    use_expanded_vocab = Raise ZeroDivisionError ∧
  (vocabulary_matches fd = Some ∅ →
   StatisticalControls.score_vocabulary fd = Raise ZeroDivisionError ∧
   ControlValidation.score_vocabulary_original fd = Raise ZeroDivisionError).
Proof.
  intros Hv Hf Hc.
  assert (score_cases fd = Raise ZeroDivisionError) as Hcases.
  { unfold score_cases. rewrite Hc. cbn [getitem mbind result_bind].
    apply dict_mean_empty. }
  apply score_vowels_ok, is_ok_Ok in Hv as [s1 H1].
  apply score_features_ok, is_ok_Ok in Hf as [s2 H2].
  split; [exact Hcases|]. split; [|split].
  - unfold StatisticalControls.score_family.
    rewrite H1, H2, Hcases. reflexivity.
  - unfold ControlValidation.score_family.
    rewrite H1, H2, Hcases. reflexivity.
  - intros H. split.
    + unfold StatisticalControls.score_vocabulary. rewrite H.
      cbn [getitem mbind result_bind]. apply dict_mean_empty.
    + unfold ControlValidation.score_vocabulary_original. rewrite H.
      apply dict_mean_empty.
Qed.

Lemma empty_map_divides_by_zero_witness :
  StatisticalControls.score_family "Hurro-Urartian" no_cases_profile
  = Raise ZeroDivisionError.
Proof.
  refine (proj1 (proj2 (empty_map_divides_by_zero [] "Hurro-Urartian"
                          no_cases_profile false _ _ eq_refl))).
  - eexists. reflexivity.
  - eexists. reflexivity.
Defined.

Lemma expanded_fold (EV : list ControlValidation.vocabulary_item) name t c :
  fold_left
    (fun '(total, count) item =>
       (total + get0 (ControlValidation.scores item) name, S count))
    EV (t, c)
  = (t + py_sum ((λ item, get0 (ControlValidation.scores item) name) <$> EV),
     (c + length EV)%nat).
Proof.
  revert t c. induction EV as [|item EV IH]; intros t c.
  - cbn [fold_left]. rewrite fmap_nil, py_sum_nil. cbn [length].
    f_equal; [lra|lia].
  - cbn [fold_left]. rewrite IH, fmap_cons, py_sum_cons, length_cons.
    f_equal; [lra|lia].
Qed.

Lemma expanded_mean_eq (EV : list ControlValidation.vocabulary_item) name :
  ControlValidation.score_vocabulary_expanded EV name
  = Ok (if decide (EV = []) then 0
        else py_sum ((λ item, get0 (ControlValidation.scores item) name) <$> EV)
             / INR (length EV)).
Proof.
  unfold ControlValidation.score_vocabulary_expanded.
  rewrite expanded_fold.
  destruct EV as [|item rest] eqn:E.
  - rewrite decide_True by done. reflexivity.
  - rewrite (decide_False (P := _ = [])) by done.
    rewrite bool_decide_eq_true_2 by (cbn; lia).
    unfold py_div. rewrite Nat.add_0_l.
    rewrite decide_False; [f_equal; lra|].
    rewrite length_cons, S_INR. pose proof (pos_INR (length rest)). lra.
Qed.

(** X4.  The expanded vocabulary score of a family is the mean, over all
    the items of the table, of the item's score for the family with 0 for
    an item that does not list the family; it is 0 on an empty table, never
    raises, and is a percentage when the listed scores are. *)
Theorem score_vocabulary_expanded_mean
    (EXPANDED_VOCABULARY : list ControlValidation.vocabulary_item)
    (family_name : string) :
  Forall (λ item, in_range (get0 (ControlValidation.scores item) family_name))
         EXPANDED_VOCABULARY →
  ∃ s,
    ControlValidation.score_vocabulary_expanded EXPANDED_VOCABULARY family_name
    = Ok s ∧
    s = (if decide (EXPANDED_VOCABULARY = []) then 0
         else py_sum ((λ item, get0 (ControlValidation.scores item) family_name)
                        <$> EXPANDED_VOCABULARY)
              / INR (length EXPANDED_VOCABULARY)) ∧
    in_range s.
Proof.
  intros Hall. eexists. split; [apply expanded_mean_eq|]. split; [reflexivity|].
  destruct (decide (EXPANDED_VOCABULARY = [])) as [->|Hne].
  - unfold in_range. lra.
  - apply (mean_in_range
             ((λ item, get0 (ControlValidation.scores item) family_name)
                <$> EXPANDED_VOCABULARY)).
    + by apply Forall_fmap.
    + unfold py_div. rewrite length_fmap.
      rewrite decide_False; [done|].
      destruct EXPANDED_VOCABULARY as [|item rest]; [done|].
      rewrite length_cons, S_INR. pose proof (pos_INR (length rest)). lra.
Qed.

Lemma score_vocabulary_expanded_mean_witness :
  ∃ s, ControlValidation.score_vocabulary_expanded [first_vocabulary_item]
         "Linear_B" = Ok s ∧ in_range s.
Proof.
  destruct (score_vocabulary_expanded_mean [first_vocabulary_item] "Linear_B")
    as (s & Hs & _ & Hr).
  - apply List.Forall_cons; [|apply List.Forall_nil].
    vm_compute. split; lra.
  - exists s. exact (conj Hs Hr).
Defined.

(** X5.  A family name that no item of the expanded table lists gets the
    vocabulary score 0, without an error: a name that differs from the
    table's key (as ["Linear_B_Control"] differs from ["Linear_B"]) is
    scored as if every word failed to match. *)
Theorem score_vocabulary_expanded_unknown_family
    (EXPANDED_VOCABULARY : list ControlValidation.vocabulary_item)
    (family_name : string) :
  (∀ item, item ∈ EXPANDED_VOCABULARY →
           ControlValidation.scores item !! family_name = None) →
  ControlValidation.score_vocabulary_expanded EXPANDED_VOCABULARY family_name
  = Ok 0.
Proof.
  intros Habs. rewrite expanded_mean_eq. f_equal.
  destruct (decide (EXPANDED_VOCABULARY = [])) as [|Hne]; [done|].
  assert (py_sum ((λ item, get0 (ControlValidation.scores item) family_name)
                    <$> EXPANDED_VOCABULARY) = 0) as ->.
  { clear Hne.
    induction EXPANDED_VOCABULARY as [|item rest IH]; [apply py_sum_nil|].
    rewrite fmap_cons, py_sum_cons. rewrite IH.
    - unfold get0. rewrite Habs by left. cbn [default]. lra.
    - intros i Hi. apply Habs. by right. }
  unfold Rdiv. lra.
Qed.

Lemma score_vocabulary_expanded_unknown_family_witness :
  ControlValidation.score_vocabulary_expanded [first_vocabulary_item]
    "Linear_B_Control" = Ok 0 ∧
  ControlValidation.scores first_vocabulary_item !! "Linear_B"%string = Some 30.
Proof.
  split; [|reflexivity].
  apply score_vocabulary_expanded_unknown_family.
  intros item Hitem. apply list_elem_of_singleton in Hitem as ->.
  vm_compute. reflexivity.
Defined.

(** ** The baseline ranking *)

Section RankingFacts.
Context {A : Type} (key : A → R).

Lemma insert_desc_by_perm x l : insert_desc_by key x l ≡ₚ x :: l.
Proof.
  induction l as [|y l IH]; simpl; [done|].
  case_decide; [done|]. rewrite IH. apply Permutation_swap.
Qed.

Lemma sorted_desc_by_perm l : sorted_desc_by key l ≡ₚ l.
Proof.
  induction l as [|x l IH]; simpl; [done|].
  fold (sorted_desc_by key l). rewrite insert_desc_by_perm. by rewrite IH.
Qed.

Lemma insert_desc_by_descending x l :
  StronglySorted (λ a b, key b <= key a) l →
  StronglySorted (λ a b, key b <= key a) (insert_desc_by key x l).
Proof.
  induction 1 as [|y l Hl IH Hy]; simpl.
  - repeat constructor.
  - case_decide as Hxy.
    + constructor; [by constructor|]. constructor; [done|].
      eapply Forall_impl; [exact Hy|]. intros z Hz. simpl in Hz. lra.
    + constructor; [done|].
      rewrite insert_desc_by_perm. constructor; [lra|done].
Qed.

Lemma sorted_desc_by_descending l :
  StronglySorted (λ a b, key b <= key a) (sorted_desc_by key l).
Proof.
  induction l as [|x l IH]; simpl; [constructor|].
  by apply insert_desc_by_descending.
Qed.

(** The first entry of a ranking has a maximal key. *)
Lemma ranking_head_max l top :
  ranked_at (sorted_desc_by key l) 0 = Ok top →
  top ∈ l ∧ ∀ x, x ∈ l → key x <= key top.
Proof.
  unfold ranked_at. pose proof (sorted_desc_by_descending l) as Hs.
  pose proof (sorted_desc_by_perm l) as Hp.
  destruct (sorted_desc_by key l) as [|t rest] eqn:E; [discriminate|].
  cbn. intros [= <-]. split.
  - rewrite <- Hp. left.
  - intros x Hx. rewrite <- Hp in Hx. apply elem_of_cons in Hx as [->|Hx]; [lra|].
    apply StronglySorted_inv in Hs as [_ Hall].
    rewrite Forall_forall in Hall. by apply Hall.
Qed.

(** An entry whose key is strictly the largest is ranked first. *)
Lemma ranking_head_strict l top x :
  ranked_at (sorted_desc_by key l) 0 = Ok top →
  x ∈ l → (∀ y, y ∈ l → y = x ∨ key y < key x) → top = x.
Proof.
  intros Htop Hx Hmax. apply ranking_head_max in Htop as [Hin Hle].
  destruct (Hmax top Hin) as [|Hlt]; [done|].
  pose proof (Hle x Hx). lra.
Qed.

End RankingFacts.

Lemma sorted_by_score_desc_generic (items : list (string * R)) :
  sorted_by_score_desc items = sorted_desc_by snd items.
Proof.
  unfold sorted_by_score_desc, sorted_desc_by.
  induction items as [|x l IH]; [reflexivity|].
  cbn [foldr]. rewrite IH. generalize (foldr (insert_desc_by snd) [] l).
  intros s. induction s as [|y s IHs]; [reflexivity|].
  cbn [insert_ranked insert_desc_by]. case_decide; [reflexivity|].
  by rewrite IHs.
Qed.

Lemma insert_by_name_perm {A} (x : string * A) l : insert_by_name x l ≡ₚ x :: l.
Proof.
  induction l as [|y l IH]; simpl; [done|].
  destruct (String.leb _ _); [done|]. rewrite IH. apply Permutation_swap.
Qed.

Lemma sorted_by_name_perm {A} (l : list (string * A)) : sorted_by_name l ≡ₚ l.
Proof.
  induction l as [|x l IH]; simpl; [done|].
  fold (sorted_by_name l). rewrite insert_by_name_perm. by rewrite IH.
Qed.

Lemma Forall2_names {A B} (fams : list (string * A)) (entries : list (string * B)) :
  Forall2 (λ fam entry, entry.1 = fam.1) fams entries → entries.*1 = fams.*1.
Proof.
  induction 1 as [|fam entry fams entries Hn _ IH]; [reflexivity|].
  by rewrite !fmap_cons, IH, Hn.
Qed.

Lemma score_each_spec families :
  all_scored families →
  ∀ acc, ∃ results,
    score_each families acc = Ok (acc ++ results) ∧
    Forall2 (λ fam entry,
               entry.1 = fam.1 ∧
               StatisticalControls.score_family fam.1 fam.2 = Ok entry.2)
            families results.
Proof.
  induction families as [|[name data] rest IH]; intros Hok acc.
  - exists []. split; [by rewrite app_nil_r|constructor].
  - apply Forall_cons in Hok as [Hfd Hok]. simpl in Hfd.
    apply is_ok_Ok in Hfd as [[scores ov] Hfd].
    destruct (IH Hok (acc ++ [(name, (scores, ov))])) as (results & Hrun & Hall).
    exists ((name, (scores, ov)) :: results). split.
    + simpl. rewrite Hfd. cbn [mbind result_bind]. rewrite Hrun.
      by rewrite <- app_assoc.
    + constructor; [done|done].
Qed.

(** X6.  On a nonempty table of distinct, scored families the baseline
    returns: [results] names exactly the families of the table; [ranked]
    is a rearrangement of [results] in descending order of the overall
    score; the printed gap is the top score minus the second score (minus 0
    when there is one family), so it is not negative when there are two or
    more; the band is STRONG exactly when the gap is at least 15 and WEAK
    exactly when it is below 8. *)
Theorem baseline_ranking (LANGUAGE_FAMILIES : list (string * family_data)) :
  NoDup LANGUAGE_FAMILIES.*1 →
  all_scored LANGUAGE_FAMILIES → LANGUAGE_FAMILIES ≠ [] →
  ∃ results ranked gap sig,
    run_baseline_comparison LANGUAGE_FAMILIES = Ok (results, ranked, gap, sig) ∧
    results.*1 ≡ₚ LANGUAGE_FAMILIES.*1 ∧
    ranked ≡ₚ results ∧
    StronglySorted (λ a b : string * scored, b.2.2 <= a.2.2) ranked ∧
    (∃ top, ranked !! 0%nat = Some top ∧
            gap = top.2.2 - default 0 (snd ∘ snd <$> ranked !! 1%nat)) ∧
    ((1 < length LANGUAGE_FAMILIES)%nat → 0 <= gap) ∧
    (sig = STRONG ↔ 15 <= gap) ∧ (sig = WEAK ↔ gap < 8).
Proof.
  intros _ Hok Hne. unfold run_baseline_comparison.
  assert (all_scored (sorted_by_name LANGUAGE_FAMILIES)) as Hok'.
  { unfold all_scored. by rewrite sorted_by_name_perm. }
  destruct (score_each_spec _ Hok' []) as (results & Hrun & Hall).
  rewrite Hrun. cbn [app mbind result_bind].
  assert (results.*1 = (sorted_by_name LANGUAGE_FAMILIES).*1) as Hnames.
  { eapply Forall2_names, Forall2_impl; [exact Hall|]. by intros ?? [? _]. }
  assert (length results = length LANGUAGE_FAMILIES) as Hlen.
  { rewrite <- (length_fmap fst), Hnames, length_fmap.
    by rewrite sorted_by_name_perm. }
  set (key := λ x : string * scored, x.2.2).
  pose proof (sorted_desc_by_perm key results) as Hperm.
  pose proof (sorted_desc_by_descending key results) as Hsorted.
  assert (length (sorted_desc_by key results) = length LANGUAGE_FAMILIES) as Hlen'.
  { by rewrite Hperm. }
  destruct (sorted_desc_by key results) as [|top rest] eqn:E.
  { exfalso. destruct LANGUAGE_FAMILIES; [done|discriminate]. }
  assert ((if decide (1 < length (top :: rest))%nat
           then second ← ranked_at (top :: rest) 1; Ok second.2.2
           else Ok 0)
          = Ok (default 0 (snd ∘ snd <$> (top :: rest) !! 1%nat))) as Hsecond.
  { destruct rest as [|sec rest']; cbn [length].
    - rewrite decide_False by lia. reflexivity.
    - rewrite decide_True by lia. reflexivity. }
  rewrite Hsecond. clear Hsecond.
  remember (default 0 (snd ∘ snd <$> (top :: rest) !! 1%nat)) as sec_score
    eqn:Hsec_score.
  cbn [ranked_at lookup list_lookup mbind result_bind].
  eexists _, _, _, _. split; [reflexivity|].
  split. { rewrite Hnames. by rewrite sorted_by_name_perm. }
  split; [done|]. split; [done|]. split.
  { exists top. split; [reflexivity|]. by rewrite Hsec_score. }
  split.
  { intros Hlen2. destruct rest as [|sec rest']; [cbn in Hlen'; lia|].
    apply StronglySorted_inv in Hsorted as [_ Hall'].
    apply Forall_cons in Hall' as [Hsec _]. subst key.
    cbn in Hsec_score, Hsec. subst sec_score. lra. }
  split.
  - split.
    + case_decide as H15; [intros _; lra|]. case_decide; discriminate.
    + intros H. by rewrite decide_True by lra.
  - split.
    + intros H. case_decide; [discriminate|]. case_decide; [discriminate|lra].
    + intros H. rewrite decide_False by lra. by rewrite decide_False by lra.
Qed.

Lemma baseline_ranking_witness :
  ∃ results ranked gap sig,
    run_baseline_comparison two_families = Ok (results, ranked, gap, sig) ∧
    ranked ≡ₚ results ∧ 0 <= gap.
Proof.
  destruct (baseline_ranking two_families two_families_names
              two_families_scored)
    as (results & ranked & gap & sig & Hrun & _ & Hperm & _ & _ & Hgap & _).
  - discriminate.
  - exists results, ranked, gap, sig.
    refine (conj Hrun (conj Hperm (Hgap _))). cbn. lia.
Defined.

(** ** The ablation table *)

Lemma drop_dimension_absent d (l : list (string * R)) :
  d ∉ l.*1 → drop_dimension d l = l.
Proof.
  unfold drop_dimension. induction l as [|[k v] l IH]; intros Hd; [done|].
  rewrite fmap_cons in Hd. apply not_elem_of_cons in Hd as [Hk Hd].
  rewrite filter_cons. cbn [fst]. rewrite decide_True by done.
  by rewrite IH.
Qed.

Lemma drop_dimension_present d s (l : list (string * R)) :
  NoDup l.*1 → (d, s) ∈ l →
  py_sum (drop_dimension d l).*2 = py_sum l.*2 - s ∧
  S (length (drop_dimension d l)) = length l.
Proof.
  induction l as [|[k v] l IH]; intros Hnd Hin.
  - by apply elem_of_nil in Hin.
  - rewrite fmap_cons in Hnd. apply NoDup_cons in Hnd as [Hk Hnd].
    cbn [fst] in Hk. unfold drop_dimension. rewrite filter_cons. cbn [fst].
    destruct (decide (k = d)) as [->|Hne].
    + rewrite decide_False by (intros H; by apply H).
      fold (drop_dimension d l). rewrite drop_dimension_absent by done.
      apply elem_of_cons in Hin as [[= <-]|Hin].
      * rewrite fmap_cons, py_sum_cons. cbn [snd length]. split; [lra|done].
      * exfalso. apply Hk. apply list_elem_of_fmap. by exists (d, s).
    + rewrite decide_True by done. fold (drop_dimension d l).
      apply elem_of_cons in Hin as [[= -> ->]|Hin]; [done|].
      destruct (IH Hnd Hin) as [Hsum Hlen].
      rewrite !fmap_cons, !py_sum_cons. cbn [snd length]. rewrite Hsum, Hlen.
      split; [lra|done].
Qed.

Lemma dimension_labels_NoDup : NoDup dimension_labels.
Proof. apply (bool_decide_unpack _). vm_compute. exact I. Qed.

Lemma score_family_total_sum name fd scores overall :
  StatisticalControls.score_family name fd = Ok (scores, overall) →
  scores.*1 = dimension_labels ∧ length scores = 8%nat ∧
  py_sum scores.*2 = 8 * overall.
Proof.
  intros (s1 & s2 & s3 & s4 & s5 & s6 & s7 & s8 & _ & _ & _ & _ & _ & _ & _ &
          _ & -> & [Hn ->]%py_div_Ok)%score_family_Ok.
  split; [reflexivity|]. split; [reflexivity|].
  cbn [zip zip_with dimension_labels fmap list_fmap snd].
  replace (INR 8) with 8 by (simpl; lra). lra.
Qed.

(** The reduced average of one family, as the loop body computes it. *)
Lemma lookup_item_elem {A} name (v : A) (items : list (string * A)) :
  NoDup items.*1 → (name, v) ∈ items → lookup_item name items = Ok v.
Proof.
  induction items as [|[n w] items IH]; intros Hnd Hin.
  - by apply elem_of_nil in Hin.
  - rewrite fmap_cons in Hnd. apply NoDup_cons in Hnd as [Hn Hnd].
    cbn [lookup_item]. apply elem_of_cons in Hin as [[= -> ->]|Hin].
    + by rewrite decide_True.
    + rewrite decide_False; [by apply IH|].
      intros ->. apply Hn. apply list_elem_of_fmap. by exists (name, v).
Qed.

Lemma Forall2_elem_l {A B} (P : A → B → Prop) l1 l2 x :
  Forall2 P l1 l2 → x ∈ l1 → ∃ y, y ∈ l2 ∧ P x y.
Proof.
  induction 1 as [|a b l1 l2 Hab _ IH]; intros Hx.
  - by apply elem_of_nil in Hx.
  - apply elem_of_cons in Hx as [->|Hx].
    + exists b. split; [left|done].
    + destruct (IH Hx) as (y & Hy & HP). exists y. split; [by right|done].
Qed.

Lemma Forall2_elem_r {A B} (P : A → B → Prop) l1 l2 y :
  Forall2 P l1 l2 → y ∈ l2 → ∃ x, x ∈ l1 ∧ P x y.
Proof.
  induction 1 as [|a b l1 l2 Hab _ IH]; intros Hy.
  - by apply elem_of_nil in Hy.
  - apply elem_of_cons in Hy as [->|Hy].
    + exists a. split; [left|done].
    + destruct (IH Hy) as (x & Hx & HP). exists x. split; [by right|done].
Qed.

Lemma table_entry_unique (scores : list (string * R)) d s1 s2 :
  NoDup scores.*1 → (d, s1) ∈ scores → (d, s2) ∈ scores → s1 = s2.
Proof.
  induction scores as [|[k v] rest IH]; intros Hnd H1 H2.
  - by apply elem_of_nil in H1.
  - rewrite fmap_cons in Hnd. apply NoDup_cons in Hnd as [Hk Hnd].
    apply elem_of_cons in H1 as [H1|H1], H2 as [H2|H2].
    + congruence.
    + injection H1 as -> ->. exfalso. apply Hk.
      apply list_elem_of_fmap. by exists (k, s2).
    + injection H2 as -> ->. exfalso. apply Hk.
      apply list_elem_of_fmap. by exists (k, s1).
    + by apply IH.
Qed.

Section AblationFacts.
Variable ops : float_ops.

(** The reduced average of one family, as the loop body computes it. *)
Lemma reduced_average_computed name fd scores overall d :
  StatisticalControls.score_family name fd = Ok (scores, overall) →
  d ∈ dimension_labels →
  ∃ r, rounded_div ops (float_sum ops (drop_dimension d scores).*2)
              (INR (length (drop_dimension d scores))) = Ok r ∧
       reduced_average ops (name, fd) d r.
Proof.
  intros Hs Hd. pose proof (score_family_total_sum _ _ _ _ Hs) as (Hl & Hlen & _).
  assert (∃ s, (d, s) ∈ scores) as [s Hin].
  { rewrite <- Hl in Hd. apply list_elem_of_fmap in Hd as ([d' s] & -> & Hin).
    by exists s. }
  assert (NoDup scores.*1) as Hnd by (rewrite Hl; apply dimension_labels_NoDup).
  destruct (drop_dimension_present d s scores Hnd Hin) as [_ Hlen'].
  assert (length (drop_dimension d scores) = 7%nat) as Hseven by lia.
  eexists. split.
  - unfold rounded_div. rewrite Hseven. replace (INR 7) with 7 by (simpl; lra).
    rewrite decide_False by lra. reflexivity.
  - exists scores, overall. split; [done|].
    fold (drop_dimension d scores). unfold rounded_div. rewrite Hseven.
    replace (INR 7) with 7 by (simpl; lra).
    rewrite decide_False by lra. reflexivity.
Qed.

Lemma reduced_average_unique fam d r1 r2 :
  reduced_average ops fam d r1 → reduced_average ops fam d r2 → r1 = r2.
Proof.
  intros (sc1 & ov1 & H1 & Hr1) (sc2 & ov2 & H2 & Hr2).
  rewrite H1 in H2. injection H2 as <- <-.
  rewrite Hr1 in Hr2. by injection Hr2.
Qed.

(** In exact arithmetic the reduced average has a closed form. *)
Lemma reduced_average_exact name fd scores overall d r :
  ops = exact_ops →
  StatisticalControls.score_family name fd = Ok (scores, overall) →
  reduced_average ops (name, fd) d r → d ∈ dimension_labels →
  ∃ s, (d, s) ∈ scores ∧ r = (8 * overall - s) / 7.
Proof.
  intros -> Hs (sc & ov & Hs' & Hr) Hd. cbn [fst snd] in Hs'.
  rewrite Hs in Hs'. injection Hs' as <- <-.
  pose proof (score_family_total_sum _ _ _ _ Hs) as (Hl & Hlen & Hsum).
  assert (∃ s, (d, s) ∈ scores) as [s Hin].
  { rewrite <- Hl in Hd. apply list_elem_of_fmap in Hd as ([d' s] & -> & Hin).
    by exists s. }
  assert (NoDup scores.*1) as Hnd by (rewrite Hl; apply dimension_labels_NoDup).
  destruct (drop_dimension_present d s scores Hnd Hin) as [Hsum' Hlen'].
  exists s. split; [done|].
  fold (drop_dimension d scores) in Hr.
  assert (length (drop_dimension d scores) = 7%nat) as Hseven by lia.
  unfold rounded_div in Hr. rewrite Hseven in Hr.
  replace (INR 7) with 7 in Hr by (simpl; lra).
  rewrite decide_False in Hr by lra. injection Hr as <-.
  cbn [float_div float_sum exact_ops]. rewrite Hsum', Hsum. reflexivity.
Qed.

Lemma ablate_families_spec families d :
  all_scored families → d ∈ dimension_labels →
  ∀ acc, ∃ entries,
    ablate_families ops families d acc = Ok (acc ++ entries) ∧
    Forall2 (λ fam entry, entry.1 = fam.1 ∧ reduced_average ops fam d entry.2)
            families entries.
Proof.
  intros Hok Hd. induction families as [|[fname fdata] rest IH]; intros acc.
  - exists []. split; [by rewrite app_nil_r|constructor].
  - apply Forall_cons in Hok as [Hfd Hok]. cbn [fst snd] in Hfd.
    apply is_ok_Ok in Hfd as [[scores ov] Hfd].
    destruct (reduced_average_computed _ _ _ _ d Hfd Hd) as (r & Hr & Hred).
    destruct (IH Hok (acc ++ [(fname, r)])) as (entries & Hrun & Hall).
    exists ((fname, r) :: entries). split.
    + cbn [ablate_families]. rewrite Hfd. cbn [mbind result_bind].
      rewrite Hr. cbn [mbind result_bind]. rewrite Hrun.
      by rewrite <- app_assoc.
    + constructor; [done|done].
Qed.

Lemma ablation_step families hurrian d :
  NoDup families.*1 → hurrian ∈ families →
  hurrian.1 = "Hurro-Urartian"%string →
  all_scored families → d ∈ dimension_labels →
  ∃ entries reduced first,
    ablate_families ops families d [] = Ok entries ∧
    lookup_item "Hurro-Urartian" entries = Ok reduced ∧
    ranked_at (sorted_by_score_desc entries) 0 = Ok first ∧
    ∀ overall,
      ablation_row_ok ops families hurrian overall
        {| drop_dim := d; hurrian_reduced := reduced;
           delta := float_sub ops reduced overall;
           still_first := bool_decide (first.1 = "Hurro-Urartian"%string) |}.
Proof.
  intros Hnd Hh Hname Hok Hd.
  destruct (ablate_families_spec families d Hok Hd []) as (entries & Hrun & Hall).
  cbn [app] in Hrun.
  assert (entries.*1 = families.*1) as Hnames.
  { eapply Forall2_names, Forall2_impl; [exact Hall|]. by intros ?? [? _]. }
  assert (NoDup entries.*1) as Hnd' by (by rewrite Hnames).
  destruct (Forall2_elem_l _ _ _ _ Hall Hh) as ([hn hr] & Hy & Hyn & Hyr).
  cbn [fst snd] in Hyn, Hyr. rewrite Hname in Hyn. subst hn.
  pose proof (lookup_item_elem _ _ _ Hnd' Hy) as Hlook.
  assert (∃ first, ranked_at (sorted_desc_by snd entries) 0 = Ok first)
    as [first Hfirst].
  { unfold ranked_at. pose proof (sorted_desc_by_perm snd entries) as Hp.
    destruct (sorted_desc_by snd entries) as [|f rest]; [|by exists f].
    apply Permutation_nil_l in Hp. subst entries. by apply elem_of_nil in Hy. }
  exists entries, hr, first. split; [done|]. split; [done|].
  split; [by rewrite sorted_by_score_desc_generic|].
  intros overall. pose proof (ranking_head_max snd entries first Hfirst)
    as [Hfin Hfmax].
  unfold ablation_row_ok. cbn [drop_dim hurrian_reduced delta still_first].
  split; [done|]. split; [done|]. split.
  - intros Hsf%bool_decide_eq_true_1 fam r Hfam Hr.
    assert (first = ("Hurro-Urartian"%string, hr)) as ->.
    { destruct first as [fn fr]. cbn [fst] in Hsf. subst fn. f_equal.
      by eapply table_entry_unique. }
    destruct (Forall2_elem_l _ _ _ _ Hall Hfam) as (e & He & _ & Her).
    rewrite (reduced_average_unique _ _ _ _ Hr Her).
    exact (Hfmax e He).
  - intros Hstrict. apply bool_decide_eq_true_2.
    rewrite (ranking_head_strict snd entries first ("Hurro-Urartian"%string, hr)
               Hfirst Hy); [reflexivity|].
    intros e He.
    destruct (Forall2_elem_r _ _ _ _ Hall He) as (fam & Hfam & Hen & Her).
    destruct (decide (fam.1 = "Hurro-Urartian"%string)) as [Heq|Hne].
    + left. destruct e as [en er]. cbn [fst snd] in *.
      rewrite Heq in Hen. subst en. f_equal. by eapply table_entry_unique.
    + right. cbn [snd]. by eapply Hstrict.
Qed.

Lemma ablation_loop_spec families hurrian overall dims :
  NoDup families.*1 → hurrian ∈ families →
  hurrian.1 = "Hurro-Urartian"%string →
  all_scored families → dims ⊆ dimension_labels →
  ∀ acc, ∃ rows,
    ablation_loop ops dims families overall acc = Ok (acc ++ rows) ∧
    drop_dim <$> rows = dims ∧
    Forall (ablation_row_ok ops families hurrian overall) rows.
Proof.
  intros Hnd Hh Hname Hok. induction dims as [|d rest IH]; intros Hsub acc.
  - exists []. split; [by rewrite app_nil_r|]. split; [done|constructor].
  - destruct (ablation_step families hurrian d Hnd Hh Hname Hok)
      as (entries & reduced & first & Hrun & Hlook & Hfirst & Hrow).
    { apply Hsub. left. }
    destruct (IH (λ x Hx, Hsub x (list_elem_of_further _ _ _ Hx))
                 (acc ++ [{| drop_dim := d; hurrian_reduced := reduced;
                             delta := float_sub ops reduced overall;
                             still_first :=
                               bool_decide (first.1 = "Hurro-Urartian"%string) |}]))
      as (rows & Hloop & Hdims & Hall).
    eexists (_ :: rows). split; [|split].
    + cbn [ablation_loop]. rewrite Hrun. cbn [mbind result_bind].
      rewrite Hlook. cbn [mbind result_bind]. rewrite Hfirst.
      cbn [mbind result_bind]. rewrite Hloop. by rewrite <- app_assoc.
    + rewrite fmap_cons, Hdims. reflexivity.
    + constructor; [apply Hrow|done].
Qed.

Lemma run_ablation_spec families hfd :
  NoDup families.*1 → ("Hurro-Urartian"%string, hfd) ∈ families →
  all_scored families →
  ∃ rows scores overall,
    run_ablation_analysis ops families = Ok rows ∧
    StatisticalControls.score_family "Hurro-Urartian" hfd = Ok (scores, overall) ∧
    drop_dim <$> rows = dimension_labels ∧
    Forall (ablation_row_ok ops families ("Hurro-Urartian"%string, hfd) overall)
           rows.
Proof.
  intros Hnd Hh Hok. unfold run_ablation_analysis.
  rewrite (lookup_item_elem _ _ _ Hnd Hh). cbn [mbind result_bind].
  pose proof Hok as Hok'. unfold all_scored in Hok'. rewrite Forall_forall in Hok'.
  pose proof (Hok' _ Hh) as [[scores ov] Hs]%is_ok_Ok. cbn [fst snd] in Hs.
  rewrite Hs. cbn [mbind result_bind].
  pose proof (score_family_total_sum _ _ _ _ Hs) as (Hl & _ & _). rewrite Hl.
  destruct (ablation_loop_spec families ("Hurro-Urartian"%string, hfd) ov
              dimension_labels Hnd Hh eq_refl Hok (λ x Hx, Hx) [])
    as (rows & Hloop & Hdims & Hall).
  exists rows, scores, ov. done.
Qed.

(** X7.  On a table of distinct, scored families holding the
    Hurro-Urartian one, the ablation returns one row per dimension of the
    score table, in its order, whatever the rounding of the float
    operations.  The row of a dimension holds the mean the ablation
    computes for Hurro-Urartian, the float sum of the scores of the other
    seven dimensions divided by their number, and the float difference
    between that mean and the overall score.  When the operations do not
    round, the two are [(8 * overall - s) / 7] and [(overall - s) / 7], [s]
    being the score on the dropped dimension. *)
Theorem ablation_delta (LANGUAGE_FAMILIES : list (string * family_data))
    (hurrian_data : family_data) :
  NoDup LANGUAGE_FAMILIES.*1 →
  ("Hurro-Urartian"%string, hurrian_data) ∈ LANGUAGE_FAMILIES →
  all_scored LANGUAGE_FAMILIES →
  ∃ rows scores overall,
    run_ablation_analysis ops LANGUAGE_FAMILIES = Ok rows ∧
    StatisticalControls.score_family "Hurro-Urartian" hurrian_data
    = Ok (scores, overall) ∧
    drop_dim <$> rows = dimension_labels ∧
    Forall (λ row,
              reduced_average ops ("Hurro-Urartian"%string, hurrian_data)
                (drop_dim row) (hurrian_reduced row) ∧
              delta row = float_sub ops (hurrian_reduced row) overall) rows ∧
    (ops = exact_ops →
     Forall (λ row,
               ∃ s, (drop_dim row, s) ∈ scores ∧
                    hurrian_reduced row = (8 * overall - s) / 7 ∧
                    delta row = (overall - s) / 7) rows).
Proof.
  intros Hnd Hh Hok.
  destruct (run_ablation_spec _ _ Hnd Hh Hok)
    as (rows & scores & ov & Hrun & Hs & Hdims & Hall).
  exists rows, scores, ov. split; [done|]. split; [done|]. split; [done|].
  split.
  - eapply Forall_impl; [exact Hall|]. by intros row (Hr & Hdelta & _).
  - intros Hid. apply Forall_forall. intros row Hrow.
    rewrite Forall_forall in Hall. destruct (Hall row Hrow) as (Hr & Hdelta & _).
    assert (drop_dim row ∈ dimension_labels) as Hd.
    { rewrite <- Hdims. apply list_elem_of_fmap. by exists row. }
    destruct (reduced_average_exact _ _ _ _ _ _ Hid Hs Hr Hd) as (s & Hin & Heq).
    exists s. split; [done|]. split; [done|].
    rewrite Hdelta, Hid, Heq. cbn [float_sub exact_ops]. lra.
Qed.

(** X8.  In every row of the ablation table, whatever the rounding of
    the float operations, the means compared being those the ablation
    computed: when the row says that Hurro-Urartian is still first, no
    family of the table has a larger computed mean without the dropped
    dimension; and when every other family has a strictly smaller one, the
    row says so. *)
Theorem ablation_still_first (LANGUAGE_FAMILIES : list (string * family_data))
    (hurrian_data : family_data) :
  NoDup LANGUAGE_FAMILIES.*1 →
  ("Hurro-Urartian"%string, hurrian_data) ∈ LANGUAGE_FAMILIES →
  all_scored LANGUAGE_FAMILIES →
  ∃ rows,
    run_ablation_analysis ops LANGUAGE_FAMILIES = Ok rows ∧
    Forall (λ row,
              reduced_average ops ("Hurro-Urartian"%string, hurrian_data)
                (drop_dim row) (hurrian_reduced row) ∧
              (still_first row = true →
               ∀ fam r, fam ∈ LANGUAGE_FAMILIES →
                        reduced_average ops fam (drop_dim row) r →
                        r <= hurrian_reduced row) ∧
              ((∀ fam r, fam ∈ LANGUAGE_FAMILIES →
                         fam.1 ≠ "Hurro-Urartian"%string →
                         reduced_average ops fam (drop_dim row) r →
                         r < hurrian_reduced row) →
               still_first row = true)) rows.
Proof.
  intros Hnd Hh Hok.
  destruct (run_ablation_spec _ _ Hnd Hh Hok)
    as (rows & scores & ov & Hrun & Hs & Hdims & Hall).
  exists rows. split; [done|].
  eapply Forall_impl; [exact Hall|].
  intros row (H0 & _ & H1 & H2). done.
Qed.

End AblationFacts.

(** The table of two families, without rounding: the closed forms. *)
Lemma ablation_delta_witness :
  NoDup two_families.*1 ∧
  ("Hurro-Urartian"%string, Hurro_Urartian) ∈ two_families ∧
  all_scored two_families ∧
  ∃ rows scores overall,
    run_ablation_analysis exact_ops two_families = Ok rows ∧
    StatisticalControls.score_family "Hurro-Urartian" Hurro_Urartian
    = Ok (scores, overall) ∧
    drop_dim <$> rows = dimension_labels ∧
    Forall (λ row,
              ∃ s, (drop_dim row, s) ∈ scores ∧
                   hurrian_reduced row = (8 * overall - s) / 7 ∧
                   delta row = (overall - s) / 7) rows.
Proof.
  split; [exact two_families_names|]. split; [exact two_families_hurrian|].
  split; [exact two_families_scored|].
  destruct (ablation_delta exact_ops two_families Hurro_Urartian
              two_families_names two_families_hurrian two_families_scored)
    as (rows & scores & overall & Hrun & Hs & Hdims & _ & Hexact).
  exists rows, scores, overall.
  exact (conj Hrun (conj Hs (conj Hdims (Hexact eq_refl)))).
Defined.

(** The table of two families, every mean rounded to a whole number. *)
Lemma ablation_still_first_witness :
  NoDup two_families.*1 ∧
  ("Hurro-Urartian"%string, Hurro_Urartian) ∈ two_families ∧
  all_scored two_families ∧
  ∃ rows,
    run_ablation_analysis whole_ops two_families = Ok rows ∧
    Forall (λ row,
              still_first row = true →
              ∀ fam r, fam ∈ two_families →
                       reduced_average whole_ops fam (drop_dim row) r →
                       r <= hurrian_reduced row) rows.
Proof.
  split; [exact two_families_names|]. split; [exact two_families_hurrian|].
  split; [exact two_families_scored|].
  destruct (ablation_still_first whole_ops two_families Hurro_Urartian
              two_families_names two_families_hurrian two_families_scored)
    as (rows & Hrun & Hall).
  exists rows. split; [exact Hrun|].
  exact (Forall_impl _ _ _ Hall (λ row Hrow, proj1 (proj2 Hrow))).
Defined.

Lemma filter_split_length {A} (P : A → Prop) `{∀ x, Decision (P x)} (l : list A) :
  (length (filter P l) + length (filter (λ x, ¬ P x) l) = length l)%nat.
Proof.
  induction l as [|x l IH]; [done|].
  rewrite !filter_cons. destruct (decide (P x)) as [Hx|Hx].
  - rewrite decide_False by tauto. cbn [length]. lia.
  - rewrite decide_True by done. cbn [length]. lia.
Qed.

Lemma filter_all_length {A} (P : A → Prop) `{∀ x, Decision (P x)} (l : list A) :
  length (filter P l) = length l ↔ Forall P l.
Proof.
  split.
  - induction l as [|x l IH]; [constructor|].
    rewrite filter_cons. destruct (decide (P x)) as [Hx|Hx]; cbn [length].
    + intros Hl. constructor; [done|]. apply IH. lia.
    + intros Hl. pose proof (length_filter P l). lia.
  - intros Hall. induction Hall as [|x l Hx _ IH]; [done|].
    rewrite filter_cons, decide_True by done. cbn [length]. by rewrite IH.
Qed.

(** X9.  The verdict under the ablation table: ROBUST exactly when every
    row says still first; LARGELY_ROBUST exactly when one row does not;
    FRAGILE otherwise, and then it lists, in order, the dimensions of the
    rows that do not, which are two or more. *)
Theorem ablation_verdict_counts (ablation_results : list ablation_row) :
  (verdict_of_ablation ablation_results = ROBUST
   ↔ Forall (λ r, still_first r = true) ablation_results) ∧
  (verdict_of_ablation ablation_results = LARGELY_ROBUST
   ↔ length (filter (λ r, still_first r ≠ true) ablation_results) = 1%nat) ∧
  (∀ critical, verdict_of_ablation ablation_results = FRAGILE critical →
     critical = drop_dim <$> filter (λ r, still_first r ≠ true) ablation_results ∧
     (2 ≤ length critical)%nat).
Proof.
  pose proof (filter_split_length (λ r, still_first r = true) ablation_results)
    as Hsplit.
  pose proof (filter_all_length (λ r, still_first r = true) ablation_results)
    as Hall.
  unfold verdict_of_ablation. cbv zeta.
  destruct (decide (length (filter (λ r, still_first r = true) ablation_results)
                    = length ablation_results)) as [Heq|Hne].
  - split; [|split].
    + split; [intros _; by apply Hall|done].
    + split; [discriminate|]. intros H1. lia.
    + intros c Hc. discriminate Hc.
  - pose proof (length_filter (λ r, still_first r = true) ablation_results).
    destruct (decide (Z.of_nat (length ablation_results) - 1
                      ≤ Z.of_nat (length (filter (λ r, still_first r = true)
                                            ablation_results)))%Z) as [H1|H1].
    + split; [|split].
      * split; [discriminate|]. intros Hf. apply Hall in Hf. contradiction.
      * split; [intros _; lia|done].
      * intros c Hc. discriminate Hc.
    + split; [|split].
      * split; [discriminate|]. intros Hf. apply Hall in Hf. contradiction.
      * split; [discriminate|]. intros Hone. lia.
      * intros c [= <-]. split; [done|]. rewrite length_fmap. lia.
Qed.

(** ** Bootstrap intervals and errors *)

Lemma py_index_elem {A} (l : list A) (i : Z) x : py_index l i = Ok x → x ∈ l.
Proof.
  unfold py_index. case_decide; [|discriminate].
  destruct (l !! _) as [y|] eqn:Hy; [|discriminate].
  intros [= <-]. by eapply list_elem_of_lookup_2.
Qed.

Lemma py_index_nonneg {A} (l : list A) (i : Z) x :
  (0 ≤ i)%Z → py_index l i = Ok x → l !! Z.to_nat i = Some x.
Proof.
  intros Hi. unfold py_index. rewrite (decide_False (P := (i < 0)%Z)) by lia.
  case_decide; [|discriminate].
  destruct (l !! _) as [y|] eqn:Hy; [|discriminate]. by intros [= <-].
Qed.

Lemma map_result_Forall {A B} (f : A → result B) (P : B → Prop) xs ys :
  (∀ x y, x ∈ xs → f x = Ok y → P y) → map_result f xs = Ok ys → Forall P ys.
Proof.
  revert ys. induction xs as [|x xs IH]; intros ys Hf Hrun.
  - simpl in Hrun. injection Hrun as <-. constructor.
  - simpl in Hrun. apply bind_Ok in Hrun as (y & Hy & Hrun).
    apply bind_Ok in Hrun as (ys' & Hys & [= <-]).
    constructor.
    + eapply Hf; [left|done].
    + apply IH; [|done]. intros x' y' Hx'. apply Hf. by right.
Qed.

Lemma mean_between xs m a b :
  Forall (λ x, a <= x <= b) xs →
  py_div (py_sum xs) (INR (length xs)) = Ok m → a <= m <= b.
Proof.
  intros Hxs [Hn ->]%py_div_Ok.
  assert (a * INR (length xs) <= py_sum xs <= b * INR (length xs)) as [Hlo Hhi].
  { clear Hn. induction Hxs as [|x xs Hx _ IH].
    - rewrite py_sum_nil. simpl. lra.
    - rewrite py_sum_cons, length_cons, S_INR. lra. }
  assert (0 < INR (length xs)) as Hpos.
  { pose proof (pos_INR (length xs)). lra. }
  split.
  - apply (Rmult_le_reg_r (INR (length xs))); [done|].
    unfold Rdiv. rewrite Rmult_assoc, Rinv_l by done. lra.
  - apply (Rmult_le_reg_r (INR (length xs))); [done|].
    unfold Rdiv. rewrite Rmult_assoc, Rinv_l by done. lra.
Qed.

Lemma resample_mean_between dims indices m a b :
  Forall (λ x, a <= x <= b) dims →
  resample_mean dims indices = Ok m → a <= m <= b.
Proof.
  intros Hd. unfold resample_mean.
  intros (resampled & Hres & Hm)%bind_Ok.
  eapply mean_between; [|exact Hm].
  eapply map_result_Forall; [|exact Hres].
  intros i x _ Hx%py_index_elem. rewrite Forall_forall in Hd. by apply Hd.
Qed.

Lemma StronglySorted_lookup_le (l : list R) i j x y :
  StronglySorted Rle l → (i ≤ j)%nat →
  l !! i = Some x → l !! j = Some y → x <= y.
Proof.
  intros Hs. revert i j. induction Hs as [|z l Hs IH Hz]; intros i j Hij Hi Hj.
  - by rewrite lookup_nil in Hi.
  - destruct i as [|i], j as [|j]; simpl in *.
    + injection Hi as <-. injection Hj as <-. lra.
    + injection Hi as <-. rewrite Forall_forall in Hz. apply Hz.
      by eapply list_elem_of_lookup_2.
    + lia.
    + eapply IH; [|done|done]. lia.
Qed.

Lemma percentile_index_mono (n : nat) :
  (0 ≤ py_int (0.025 * INR n) ≤ py_int (0.975 * INR n))%Z.
Proof.
  pose proof (pos_INR n) as Hn.
  assert (0 <= 0.025 * INR n) as H1 by nra.
  assert (0 <= 0.975 * INR n) as H2 by nra.
  pose proof (py_int_floor_spec _ H1) as [Ha Hb].
  pose proof (py_int_floor_spec _ H2) as [Hc Hd].
  set (k1 := py_int (0.025 * INR n)) in *.
  set (k2 := py_int (0.975 * INR n)) in *.
  clearbody k1 k2. split.
  - destruct (Z_lt_le_dec k1 0) as [Hneg|Hge]; [|exact Hge].
    exfalso. assert (k1 ≤ -1)%Z as Hle by lia.
    apply IZR_le in Hle. lra.
  - assert (IZR k1 < IZR (k2 + 1)) as Hlt by (rewrite plus_IZR; lra).
    apply lt_IZR in Hlt. lia.
Qed.

Lemma confidence_interval_bounds (n_iterations : nat) (trials : list R)
    mean ci_low ci_high a b :
  Forall (λ x, a <= x <= b) trials →
  confidence_interval n_iterations trials = Ok (mean, ci_low, ci_high) →
  ci_low <= ci_high ∧ a <= ci_low ∧ ci_high <= b ∧ a <= mean <= b.
Proof.
  intros Hall. unfold confidence_interval.
  intros (m & Hm & (lo & Hlo & (hi & Hhi & [= <- <- <-])%bind_Ok)%bind_Ok)%bind_Ok.
  assert (Forall (λ x, a <= x <= b) (sorted trials)) as Hs
    by (by rewrite sorted_perm).
  pose proof (percentile_index_mono n_iterations) as [H0 Hle].
  pose proof (py_index_nonneg _ _ _ H0 Hlo) as Hlo'.
  assert (0 ≤ py_int (0.975 * INR n_iterations))%Z as H0' by lia.
  pose proof (py_index_nonneg _ _ _ H0' Hhi) as Hhi'.
  rewrite Forall_forall in Hs.
  pose proof (Hs lo (py_index_elem _ _ _ Hlo)) as [? ?].
  pose proof (Hs hi (py_index_elem _ _ _ Hhi)) as [? ?].
  split; [|split; [done|split; [done|]]].
  - eapply (StronglySorted_lookup_le (sorted trials)); [apply sorted_ascending| |done|done].
    lia.
  - eapply mean_between; [|exact Hm]. by apply Forall_forall.
Qed.

(** X10.  For a nonempty list of trial scores, as many as the iteration
    count, the report loop returns a mean and two bounds with the lower
    bound at most the upper bound, and all three between any two numbers
    that bound the trial scores. *)
Theorem confidence_interval_ordered (n_iterations : nat) (trials : list R)
    (a b : R) :
  length trials = n_iterations → (0 < n_iterations)%nat →
  Forall (λ x, a <= x <= b) trials →
  ∃ mean ci_low ci_high,
    confidence_interval n_iterations trials = Ok (mean, ci_low, ci_high) ∧
    ci_low <= ci_high ∧ a <= ci_low ∧ ci_high <= b ∧ a <= mean <= b.
Proof.
  intros Hlen Hn Hall.
  destruct (confidence_interval_spec n_iterations trials Hlen Hn)
    as (mean & lo & hi & Hci & _ & _).
  exists mean, lo, hi. split; [exact Hci|].
  exact (confidence_interval_bounds _ _ _ _ _ _ _ Hall Hci).
Qed.

Lemma confidence_interval_ordered_witness :
  ∃ mean ci_low ci_high,
    confidence_interval 2 [3; 1] = Ok (mean, ci_low, ci_high) ∧
    ci_low <= ci_high ∧ 1 <= mean <= 3.
Proof.
  destruct (confidence_interval_ordered 2 [3; 1] 1 3)
    as (mean & lo & hi & Hci & Hle & _ & _ & Hm).
  - reflexivity.
  - lia.
  - apply List.Forall_cons; [lra|].
    apply List.Forall_cons; [lra|apply List.Forall_nil].
  - exists mean, lo, hi. exact (conj Hci (conj Hle Hm)).
Defined.

Lemma score_family_scores_in_range name fd scores overall :
  entries_in_range fd →
  StatisticalControls.score_family name fd = Ok (scores, overall) →
  Forall in_range scores.*2.
Proof.
  intros Hr (s1 & s2 & s3 & s4 & s5 & s6 & s7 & s8 & H1 & H2 & H3 & H4 & H5 &
             H6 & H7 & H8 & -> & _)%score_family_Ok.
  pose proof Hr as (Hc & Hv & Hg & Ht & Hs & Hrel).
  cbn [zip zip_with dimension_labels fmap list_fmap snd].
  repeat (apply List.Forall_cons); try apply List.Forall_nil.
  - by eapply score_vowels_in_range.
  - by eapply score_features_in_range.
  - by eapply score_cases_in_range.
  - by eapply score_vocabulary_in_range.
  - by apply Hg.
  - by apply Ht.
  - by apply Hs.
  - by apply Hrel.
Qed.

Lemma score_all_in_range families acc fds :
  Forall (λ p, entries_in_range p.2) families →
  lists_in_range acc →
  score_all families acc = Ok fds → lists_in_range fds.
Proof.
  revert acc. induction families as [|[fname fd] rest IH]; intros acc Hr Hacc Hrun.
  - simpl in Hrun. by injection Hrun as <-.
  - apply Forall_cons in Hr as [Hfd Hr]. simpl in Hfd, Hrun.
    apply bind_Ok in Hrun as ([scores ov] & Hs & Hrun).
    eapply IH; [done| |exact Hrun].
    apply map_Forall_insert_2; [|done].
    by eapply score_family_scores_in_range.
Qed.

Lemma bootstrap_families_in_range names fds indices iter scores iter' scores' :
  lists_in_range fds → lists_in_range scores →
  bootstrap_families names fds indices iter scores = Ok (iter', scores') →
  lists_in_range scores'.
Proof.
  intros Hfds. revert iter scores.
  induction names as [|fname rest IH]; intros iter scores Hsc Hrun.
  - simpl in Hrun. by injection Hrun as _ <-.
  - simpl in Hrun.
    apply bind_Ok in Hrun as (dims & Hd%getitem_Ok & Hrun).
    apply bind_Ok in Hrun as (avg & Havg & Hrun).
    apply bind_Ok in Hrun as (so_far & Hso%getitem_Ok & Hrun).
    eapply IH; [|exact Hrun].
    apply map_Forall_insert_2; [|done].
    apply Forall_app. split; [by apply (Hsc fname)|].
    constructor; [|constructor].
    eapply (resample_mean_between dims indices avg 0 100); [|done].
    by apply (Hfds fname).
Qed.

Section BootstrapRange.
Context {G : Type} (randint : Z → Z → G → Z * G).

Lemma bootstrap_trials_in_range k names fds n_dims st g st' g' :
  lists_in_range fds → lists_in_range (bootstrap_scores st) →
  bootstrap_trials randint k names fds n_dims st g = Ok (st', g') →
  lists_in_range (bootstrap_scores st') ∧
  (hurrian_wins st' ≤ hurrian_wins st + k)%nat.
Proof.
  intros Hfds. revert st g. induction k as [|k IH]; intros st g Hst Hrun.
  - simpl in Hrun. injection Hrun as <- <-. split; [done|lia].
  - cbn [bootstrap_trials] in Hrun.
    destruct (draw_indices randint n_dims n_dims g) as [indices g1].
    apply bind_Ok in Hrun as ([iter scores] & Hfam & Hrun).
    apply bind_Ok in Hrun as (pos & Hpos & Hrun).
    apply IH in Hrun as [Hr Hw].
    + split; [done|]. cbn [hurrian_wins] in Hw. case_decide; lia.
    + cbn [bootstrap_scores].
      exact (bootstrap_families_in_range _ _ _ _ _ _ _ Hfds Hst Hfam).
Qed.

Lemma empty_lists_in_range (names : list string) :
  lists_in_range (list_to_map ((λ fname, (fname, [])) <$> names)).
Proof.
  intros k l Hkl. apply elem_of_list_to_map_2 in Hkl.
  apply list_elem_of_fmap in Hkl as (f & [= _ ->] & _). constructor.
Qed.

Lemma bootstrap_report_range
    (LANGUAGE_FAMILIES : list (string * family_data)) (n_iterations : nat)
    (g g' : G) (report : bootstrap_report) :
  Forall (λ p, entries_in_range p.2) LANGUAGE_FAMILIES →
  run_bootstrap_test randint LANGUAGE_FAMILIES n_iterations g = Ok (report, g') →
  lists_in_range (trial_scores report) ∧
  Forall (λ row, row.2.1.2 <= row.2.2 ∧ in_range row.2.1.1 ∧
                 in_range row.2.1.2 ∧ in_range row.2.2) (intervals report) ∧
  in_range (win_pct report) ∧
  (0 < n_iterations)%nat.
Proof.
  intros Hr. unfold run_bootstrap_test.
  intros (fds & Hfds & (hd & Hhd & ([st g1] & Hloop & (keyed & Hkeyed &
          (rows & Hrows & (wins & Hwins & [= <- <-])%bind_Ok)%bind_Ok)%bind_Ok)
          %bind_Ok)%bind_Ok)%bind_Ok.
  cbn [trial_scores intervals win_pct].
  apply score_all_in_range in Hfds; [|done|apply map_Forall_empty].
  apply bootstrap_trials_in_range in Hloop as [Hst Hw];
    [|done|apply empty_lists_in_range].
  cbn [hurrian_wins] in Hw.
  apply py_div_Ok in Hwins as [Hn ->].
  assert (0 < n_iterations)%nat as Hpos.
  { destruct n_iterations; [|lia]. exfalso. apply Hn. reflexivity. }
  split; [done|]. split; [|split; [|done]].
  - eapply map_result_Forall; [|exact Hrows].
    intros fname row _. unfold report_row.
    intros (s & Hs%getitem_Ok & ([[mean lo] hi] & Hci & [= <-])%bind_Ok)%bind_Ok.
    cbn [fst snd].
    pose proof (confidence_interval_bounds n_iterations s mean lo hi 0 100
                  (Hst fname s Hs) Hci) as (H1 & H2 & H3 & H4).
    assert (lo <= 100 ∧ 0 <= hi) as [? ?] by lra.
    unfold in_range. repeat split; lra.
  - apply le_INR in Hw. rewrite Nat.add_0_l in Hw.
    pose proof (pos_INR (hurrian_wins st)) as H0.
    apply lt_INR in Hpos. cbn [INR] in Hpos.
    assert (0 <= INR (hurrian_wins st) / INR n_iterations <= 1) as [Ha Hb].
    { split.
      - apply Rmult_le_pos; [done|]. left. by apply Rinv_0_lt_compat.
      - apply (Rmult_le_reg_r (INR n_iterations)); [done|].
        unfold Rdiv. rewrite Rmult_assoc, Rinv_l by lra. lra. }
    unfold in_range. lra.
Qed.

Hypothesis randint_ok : randint_contract randint.

Lemma bootstrap_run_returns (LANGUAGE_FAMILIES : list (string * family_data))
    (n_iterations : nat) (g : G) :
  NoDup LANGUAGE_FAMILIES.*1 →
  "Hurro-Urartian"%string ∈ LANGUAGE_FAMILIES.*1 →
  all_scored LANGUAGE_FAMILIES →
  (0 < n_iterations)%nat →
  ∃ report g',
    run_bootstrap_test randint LANGUAGE_FAMILIES n_iterations g
    = Ok (report, g').
Proof.
  intros Hnd Hh Hok Hn.
  set (names := LANGUAGE_FAMILIES.*1) in *.
  set (D := length dimension_labels).
  assert (0 < D)%nat as HD by (subst D; cbn; lia).
  destruct (score_all_spec LANGUAGE_FAMILIES Hnd Hok ∅) as (fds & Hall & Hin & _).
  assert (∀ fname, fname ∈ names →
            ∃ dims, fds !! fname = Some dims ∧ length dims = D) as Hdims.
  { intros fname Hf. apply list_elem_of_fmap in Hf as ([f fd] & -> & Hmem).
    unfold all_scored in Hok. rewrite Forall_forall in Hok.
    pose proof (Hok _ Hmem) as [[s o] Hs]%is_ok_Ok. cbn [fst snd] in Hs.
    exists s.*2. split; [by eapply Hin|].
    rewrite length_fmap, <- (length_fmap fst), (score_family_shape _ _ _ _ Hs).
    reflexivity. }
  destruct (Hdims _ Hh) as (hd & Hhd & Hhl).
  set (st0 := {| bootstrap_scores :=
                   list_to_map ((λ fname, (fname, [])) <$> names);
                 hurrian_rank := []; hurrian_wins := 0 |}).
  destruct (bootstrap_trials_spec randint randint_ok D names fds HD Hnd Hh Hdims
              n_iterations st0 g) as (st & g' & Hloop & Hfinal).
  { intros fname Hf. cbn [bootstrap_scores st0].
    rewrite list_to_map_empty_lists by done. by eexists. }
  pose proof (trial_draws_valid randint randint_ok D n_iterations g HD)
    as [Hdl _].
  assert (∀ fname, fname ∈ names →
            ∃ trials, bootstrap_scores st !! fname = Some trials ∧
                      length trials = n_iterations) as Hst.
  { intros fname Hf. destruct (Hdims fname Hf) as (dims & Hd & _).
    eexists. split.
    - apply (Hfinal fname dims [] Hf Hd). cbn [bootstrap_scores st0].
      by apply list_to_map_empty_lists.
    - cbn [app]. by rewrite length_fmap. }
  assert (INR n_iterations ≠ 0) as Hn0.
  { apply lt_INR in Hn. cbn [INR] in Hn. lra. }
  assert (is_ok (map_result (report_key (bootstrap_scores st)) names)) as Hkeyed.
  { apply map_result_is_ok, Forall_forall. intros fname Hf.
    destruct (Hst fname Hf) as (trials & Ht & Hl).
    unfold report_key. rewrite Ht. cbn [getitem mbind result_bind].
    unfold py_div. rewrite decide_False; [done|]. by rewrite Hl. }
  apply is_ok_Ok in Hkeyed as [keyed Hkeyed].
  assert (keyed.*1 = names) as Hkn.
  { eapply map_result_keys; [|exact Hkeyed].
    intros x y. unfold report_key.
    intros (s & _ & (m & _ & [= <-])%bind_Ok)%bind_Ok. reflexivity. }
  assert (is_ok (map_result (report_row n_iterations (bootstrap_scores st))
                   (sorted_by_score_desc keyed).*1)) as Hrows.
  { apply map_result_is_ok, Forall_forall. intros fname Hf.
    rewrite sorted_by_score_desc_perm, Hkn in Hf.
    destruct (Hst fname Hf) as (trials & Ht & Hl).
    destruct (confidence_interval_spec n_iterations trials Hl Hn)
      as (mean & lo & hi & Hci & _).
    unfold report_row. rewrite Ht. cbn [getitem mbind result_bind].
    rewrite Hci. done. }
  apply is_ok_Ok in Hrows as [rows Hrows].
  eexists _, g'.
  unfold run_bootstrap_test. fold names. rewrite Hall. cbn [mbind result_bind].
  rewrite Hhd. cbn [getitem mbind result_bind]. rewrite Hhl.
  fold D st0. rewrite Hloop. cbn [mbind result_bind].
  rewrite Hkeyed. cbn [mbind result_bind].
  rewrite Hrows. cbn [mbind result_bind].
  unfold py_div. rewrite decide_False by done.
  reflexivity.
Qed.

(** X11.  With a generator that keeps [random.randint]'s range, a table of
    distinct, scored families holding the Hurro-Urartian one, stored
    entries in [0,100] and at least one trial: the bootstrap returns a
    report in which every trial score, every mean and both bounds of every
    interval, and the win percentage lie in [0,100], and each lower bound
    is at most its upper bound. *)
Theorem bootstrap_report_in_range
    (LANGUAGE_FAMILIES : list (string * family_data)) (n_iterations : nat)
    (g : G) :
  NoDup LANGUAGE_FAMILIES.*1 →
  "Hurro-Urartian"%string ∈ LANGUAGE_FAMILIES.*1 →
  all_scored LANGUAGE_FAMILIES →
  Forall (λ p, entries_in_range p.2) LANGUAGE_FAMILIES →
  (0 < n_iterations)%nat →
  ∃ report g',
    run_bootstrap_test randint LANGUAGE_FAMILIES n_iterations g
    = Ok (report, g') ∧
    lists_in_range (trial_scores report) ∧
    Forall (λ row, row.2.1.2 <= row.2.2 ∧ in_range row.2.1.1 ∧
                   in_range row.2.1.2 ∧ in_range row.2.2) (intervals report) ∧
    in_range (win_pct report).
Proof.
  intros Hnd Hh Hok Hr Hn.
  destruct (bootstrap_run_returns LANGUAGE_FAMILIES n_iterations g Hnd Hh Hok Hn)
    as (report & g' & Hrun).
  exists report, g'. split; [exact Hrun|].
  destruct (bootstrap_report_range _ _ _ _ _ Hr Hrun) as (H1 & H2 & H3 & _).
  exact (conj H1 (conj H2 H3)).
Qed.

End BootstrapRange.

Section BootstrapErrors.
Context {G : Type} (randint : Z → Z → G → Z * G).

Lemma map_result_head_raises {A B} (f : A → result B) x xs e :
  f x = Raise e → map_result f (x :: xs) = Raise e.
Proof. intros H. simpl. by rewrite H. Qed.

(** X12.  With zero iterations the bootstrap raises [ZeroDivisionError]
    (the mean of an empty list of trial scores), whatever the generator,
    instead of returning an empty report. *)
Theorem bootstrap_zero_iterations
    (LANGUAGE_FAMILIES : list (string * family_data)) (g : G) :
  NoDup LANGUAGE_FAMILIES.*1 →
  "Hurro-Urartian"%string ∈ LANGUAGE_FAMILIES.*1 →
  all_scored LANGUAGE_FAMILIES →
  run_bootstrap_test randint LANGUAGE_FAMILIES 0 g = Raise ZeroDivisionError.
Proof.
  intros Hnd Hh Hok. unfold run_bootstrap_test.
  destruct (score_all_spec LANGUAGE_FAMILIES Hnd Hok ∅) as (fds & -> & Hin & _).
  cbn [mbind result_bind].
  apply list_elem_of_fmap in Hh as ([f fd] & Hf & Hmem). simpl in Hf. subst f.
  unfold all_scored in Hok. rewrite Forall_forall in Hok.
  pose proof (Hok _ Hmem) as [[s o] Hs]%is_ok_Ok. simpl in Hs.
  rewrite (Hin _ _ _ _ Hmem Hs). cbn [getitem mbind result_bind bootstrap_trials].
  cbn [bootstrap_scores].
  destruct (LANGUAGE_FAMILIES.*1) as [|first rest] eqn:Hnames.
  { destruct LANGUAGE_FAMILIES; [by apply elem_of_nil in Hmem|discriminate]. }
  rewrite (map_result_head_raises _ _ _ ZeroDivisionError); [reflexivity|].
  unfold report_key. rewrite list_to_map_empty_lists by left.
  cbn [getitem mbind result_bind length INR]. rewrite py_sum_nil.
  unfold py_div. by rewrite decide_True.
Qed.

(** X13.  On a table without a family named ["Hurro-Urartian"] the
    bootstrap raises [KeyError] on that name before any trial is run. *)
Theorem bootstrap_needs_hurrian
    (LANGUAGE_FAMILIES : list (string * family_data)) (n_iterations : nat)
    (g : G) :
  NoDup LANGUAGE_FAMILIES.*1 →
  all_scored LANGUAGE_FAMILIES →
  "Hurro-Urartian"%string ∉ LANGUAGE_FAMILIES.*1 →
  run_bootstrap_test randint LANGUAGE_FAMILIES n_iterations g
  = Raise (KeyError "Hurro-Urartian").
Proof.
  intros Hnd Hok Hh. unfold run_bootstrap_test.
  destruct (score_all_spec LANGUAGE_FAMILIES Hnd Hok ∅) as (fds & -> & _ & Hout).
  cbn [mbind result_bind]. rewrite (Hout _ Hh), lookup_empty. reflexivity.
Qed.

End BootstrapErrors.

Lemma one_family_in_range : Forall (λ p, entries_in_range p.2) one_family.
Proof.
  apply List.Forall_cons; [exact Hurro_Urartian_in_range|apply List.Forall_nil].
Qed.

Lemma one_family_names :
  NoDup one_family.*1 ∧ "Hurro-Urartian"%string ∈ one_family.*1.
Proof.
  split.
  - apply (bool_decide_unpack _). vm_compute. exact I.
  - apply list_elem_of_here.
Qed.

Lemma bootstrap_report_in_range_witness :
  ∃ report g',
    run_bootstrap_test counter_randint one_family 2 0%nat = Ok (report, g') ∧
    in_range (win_pct report).
Proof.
  destruct (bootstrap_report_in_range counter_randint counter_randint_contract
              one_family 2 0%nat (proj1 one_family_names)
              (proj2 one_family_names) one_family_scored one_family_in_range)
    as (report & g' & Hrun & _ & _ & Hw).
  - lia.
  - exists report, g'. exact (conj Hrun Hw).
Defined.

Lemma bootstrap_zero_iterations_witness :
  run_bootstrap_test counter_randint one_family 0 0%nat
  = Raise ZeroDivisionError.
Proof.
  exact (bootstrap_zero_iterations counter_randint one_family 0%nat
           (proj1 one_family_names) (proj2 one_family_names)
           one_family_scored).
Defined.

Lemma bootstrap_needs_hurrian_witness :
  run_bootstrap_test counter_randint [("Semitic"%string, Semitic)] 2 0%nat
  = Raise (KeyError "Hurro-Urartian").
Proof.
  apply bootstrap_needs_hurrian.
  - apply (bool_decide_unpack _). vm_compute. exact I.
  - apply List.Forall_cons; [|apply List.Forall_nil].
    apply score_family_total, Semitic_complete.
  - apply (bool_decide_unpack _). vm_compute. exact I.
Defined.

(** ** The similarity measure of the chance control *)

Lemma bigrams_empty_iff (w : string) :
  bigrams w = ∅ ↔ (String.length w < 2)%nat.
Proof.
  unfold bigrams. split.
  - intros H. destruct (String.length w - 1)%nat as [|n] eqn:E; [lia|].
    exfalso. cbn [seq fmap list_fmap list_to_set] in H.
    assert (String.substring 0 2 w ∈ (∅ : gset string)) as Hin.
    { rewrite <- H. apply elem_of_union_l, elem_of_singleton. reflexivity. }
    by apply not_elem_of_empty in Hin.
  - intros H. replace (String.length w - 1)%nat with 0%nat by lia. reflexivity.
Qed.

Lemma phonetic_similarity_nonempty w1 w2 :
  bigrams w1 ≠ ∅ → bigrams w2 ≠ ∅ →
  phonetic_similarity w1 w2
  = INR (size (bigrams w1 ∩ bigrams w2))
    / INR (Nat.max (size (bigrams w1)) (size (bigrams w2))) ∧
  (0 < Nat.max (size (bigrams w1)) (size (bigrams w2)))%nat.
Proof.
  intros H1 H2. unfold phonetic_similarity.
  rewrite !bool_decide_eq_false_2 by done. split; [reflexivity|].
  pose proof (nonempty_size_pos _ H1). lia.
Qed.

Lemma phonetic_similarity_empty w1 w2 :
  bigrams w1 = ∅ ∨ bigrams w2 = ∅ → phonetic_similarity w1 w2 = 0.
Proof.
  intros H. unfold phonetic_similarity.
  destruct H as [H|H]; rewrite (bool_decide_eq_true_2 _ H);
    [reflexivity|by rewrite orb_true_r].
Qed.

(** X14.  The similarity measure of the chance control is symmetric and
    lies in [0,1]; it is 1 exactly when the two words have the same,
    nonempty, set of bigrams; a word of fewer than two characters has
    similarity 0 with every word, itself included; a word of two or more
    characters has similarity 1 with itself. *)
Theorem phonetic_similarity_measure (w1 w2 : string) :
  phonetic_similarity w1 w2 = phonetic_similarity w2 w1 ∧
  0 <= phonetic_similarity w1 w2 <= 1 ∧
  (phonetic_similarity w1 w2 = 1 ↔ bigrams w1 = bigrams w2 ∧ bigrams w1 ≠ ∅) ∧
  ((String.length w1 < 2)%nat → phonetic_similarity w1 w2 = 0) ∧
  ((2 ≤ String.length w1)%nat → phonetic_similarity w1 w1 = 1).
Proof.
  split; [|split; [|split; [|split]]].
  - unfold phonetic_similarity.
    rewrite (orb_comm (bool_decide (bigrams w1 = ∅))).
    rewrite (comm_L (∩) (bigrams w1)), Nat.max_comm. reflexivity.
  - destruct (decide (bigrams w1 = ∅)) as [H1|H1];
      [rewrite phonetic_similarity_empty by auto; lra|].
    destruct (decide (bigrams w2 = ∅)) as [H2|H2];
      [rewrite phonetic_similarity_empty by auto; lra|].
    destruct (phonetic_similarity_nonempty w1 w2 H1 H2) as [-> Hpos].
    assert (size (bigrams w1 ∩ bigrams w2)
            ≤ Nat.max (size (bigrams w1)) (size (bigrams w2)))%nat as Hle.
    { assert (size (bigrams w1 ∩ bigrams w2) ≤ size (bigrams w1))%nat
        by apply subseteq_size, intersection_subseteq_l.
      lia. }
    apply le_INR in Hle. apply lt_INR in Hpos. cbn [INR] in Hpos.
    split.
    + apply Rmult_le_reg_r with (INR (Nat.max (size (bigrams w1)) (size (bigrams w2))));
        [done|].
      unfold Rdiv. rewrite Rmult_assoc, Rinv_l by lra.
      pose proof (pos_INR (size (bigrams w1 ∩ bigrams w2))). lra.
    + apply Rmult_le_reg_r with (INR (Nat.max (size (bigrams w1)) (size (bigrams w2))));
        [done|].
      unfold Rdiv. rewrite Rmult_assoc, Rinv_l by lra. lra.
  - split.
    + intros Hone.
      destruct (decide (bigrams w1 = ∅)) as [H1|H1];
        [rewrite phonetic_similarity_empty in Hone by auto; lra|].
      destruct (decide (bigrams w2 = ∅)) as [H2|H2];
        [rewrite phonetic_similarity_empty in Hone by auto; lra|].
      destruct (phonetic_similarity_nonempty w1 w2 H1 H2) as [Heq Hpos].
      rewrite Heq in Hone. split; [|done].
      assert (INR (size (bigrams w1 ∩ bigrams w2))
              = INR (Nat.max (size (bigrams w1)) (size (bigrams w2)))) as Hsz.
      { apply lt_INR in Hpos. cbn [INR] in Hpos.
        apply (Rmult_eq_compat_r
                 (INR (Nat.max (size (bigrams w1)) (size (bigrams w2))))) in Hone.
        unfold Rdiv in Hone. rewrite Rmult_assoc, Rinv_l in Hone by lra. lra. }
      apply INR_eq in Hsz.
      assert (bigrams w1 ∩ bigrams w2 = bigrams w1) as E1.
      { apply set_subseteq_size_eq; [apply intersection_subseteq_l|lia]. }
      assert (bigrams w1 ∩ bigrams w2 = bigrams w2) as E2.
      { apply set_subseteq_size_eq; [apply intersection_subseteq_r|lia]. }
      congruence.
    + intros [Heq Hne].
      assert (bigrams w2 ≠ ∅) as Hne2 by (by rewrite <- Heq).
      destruct (phonetic_similarity_nonempty w1 w2 Hne Hne2) as [-> Hpos].
      rewrite <- Heq. rewrite (idemp_L (∩)), Nat.max_id.
      rewrite <- Heq, Nat.max_id in Hpos.
      apply lt_INR in Hpos. cbn [INR] in Hpos. field. lra.
  - intros Hlen. apply phonetic_similarity_empty. left.
    by apply bigrams_empty_iff.
  - intros Hlen.
    assert (bigrams w1 ≠ ∅) as Hne by (rewrite bigrams_empty_iff; lia).
    destruct (phonetic_similarity_nonempty w1 w1 Hne Hne) as [-> Hpos].
    rewrite (idemp_L (∩)), Nat.max_id. rewrite Nat.max_id in Hpos.
    apply lt_INR in Hpos. cbn [INR] in Hpos. field. lra.
Qed.

(** ** What a perturbation does to the features *)

Lemma flipped_lookup feat p :
  flipped feat p !! feat = negb <$> p !! feat.
Proof.
  unfold flipped. destruct (p !! feat) as [b|] eqn:E.
  - by rewrite lookup_insert_eq.
  - by rewrite E.
Qed.

Lemma flipped_lookup_ne feat f p :
  f ≠ feat → flipped feat p !! f = p !! f.
Proof.
  intros Hne. unfold flipped. destruct (p !! feat) as [b|]; [|done].
  by rewrite lookup_insert_ne.
Qed.

Lemma flip_features_cons idx rest p feat :
  py_index feature_names idx = Ok feat →
  flip_features (idx :: rest) p = flip_features rest (flipped feat p).
Proof. intros H. cbn [flip_features]. rewrite H. reflexivity. Qed.

Lemma feature_names_NoDup : NoDup feature_names.
Proof. apply (bool_decide_unpack _). vm_compute. exact I. Qed.

Lemma flip_features_lookup flip_indices :
  NoDup flip_indices →
  Forall (λ i, (0 ≤ i < Z.of_nat (length feature_names))%Z) flip_indices →
  ∀ p, ∃ p',
    flip_features flip_indices p = Ok p' ∧
    (∀ i feat, feature_names !! i = Some feat →
               p' !! feat = if decide (Z.of_nat i ∈ flip_indices)
                            then negb <$> p !! feat else p !! feat) ∧
    (∀ feat, feat ∉ feature_names → p' !! feat = p !! feat).
Proof.
  induction flip_indices as [|idx rest IH]; intros Hnd Hall p.
  - exists p. split; [done|]. split; [|done].
    intros i feat _. rewrite decide_False; [done|]. apply not_elem_of_nil.
  - apply NoDup_cons in Hnd as [Hni Hnd]. apply Forall_cons in Hall as [Hi Hall].
    destruct (py_index_Ok feature_names idx Hi) as (f & Hf & Hlook).
    destruct (IH Hnd Hall (flipped f p)) as (p' & Hrun & Hsel & Hout).
    exists p'. split; [by rewrite (flip_features_cons _ _ _ _ Hf)|]. split.
    + intros i feat Hfeat. rewrite (Hsel i feat Hfeat).
      destruct (decide (Z.of_nat i = idx)) as [<-|Hne].
      * rewrite Nat2Z.id in Hlook. rewrite Hfeat in Hlook. injection Hlook as <-.
        rewrite (decide_False (P := Z.of_nat i ∈ rest)) by done.
        rewrite decide_True by left. apply flipped_lookup.
      * assert (feat ≠ f) as Hff.
        { intros ->. apply Hne.
          pose proof (NoDup_lookup _ _ _ _ feature_names_NoDup Hfeat Hlook). lia. }
        destruct (decide (Z.of_nat i ∈ rest)) as [Hin|Hin].
        -- rewrite decide_True by (by right). by rewrite flipped_lookup_ne.
        -- rewrite decide_False; [by rewrite flipped_lookup_ne|].
           intros [?|?]%elem_of_cons; [by apply Hne|done].
    + intros feat Hfeat. rewrite (Hout feat Hfeat).
      apply flipped_lookup_ne. intros ->. apply Hfeat.
      by eapply list_elem_of_lookup_2.
Qed.

Lemma flipped_matches_untouched (feat : string) (p : gmap string bool)
    (target : list (string * bool)) :
  feat ∉ target.*1 →
  matching_features (flipped feat p) target = matching_features p target.
Proof.
  unfold matching_features.
  induction target as [|[f v] rest IH]; intros Hni; [done|].
  rewrite fmap_cons in Hni. apply not_elem_of_cons in Hni as [Hne Hni].
  cbn [fst] in Hne. rewrite !filter_cons, (IH Hni).
  assert (feature_matches (flipped feat p) (f, v) ↔ feature_matches p (f, v))
    as Hiff.
  { unfold feature_matches. cbn [fst snd]. by rewrite flipped_lookup_ne. }
  destruct (decide (feature_matches (flipped feat p) (f, v))) as [H1|H1];
    destruct (decide (feature_matches p (f, v))) as [H2|H2];
    try reflexivity; exfalso; tauto.
Qed.

Lemma flipped_matches_le (feat : string) (p : gmap string bool)
    (target : list (string * bool)) :
  NoDup target.*1 →
  (length (matching_features (flipped feat p) target)
   ≤ S (length (matching_features p target)))%nat ∧
  (length (matching_features p target)
   ≤ S (length (matching_features (flipped feat p) target)))%nat.
Proof.
  unfold matching_features.
  induction target as [|[f v] rest IH]; intros Hnd; [cbn; lia|].
  rewrite fmap_cons in Hnd. apply NoDup_cons in Hnd as [Hf Hnd]. cbn [fst] in Hf.
  destruct (decide (f = feat)) as [->|Hne].
  - pose proof (flipped_matches_untouched feat p rest Hf) as Hrest.
    unfold matching_features in Hrest. rewrite !filter_cons, Hrest.
    destruct (decide (feature_matches (flipped feat p) (feat, v)));
      destruct (decide (feature_matches p (feat, v))); cbn [length]; lia.
  - rewrite !filter_cons.
    assert (feature_matches (flipped feat p) (f, v) ↔ feature_matches p (f, v))
      as Hiff.
    { unfold feature_matches. cbn [fst snd]. by rewrite flipped_lookup_ne. }
    specialize (IH Hnd).
    destruct (decide (feature_matches (flipped feat p) (f, v))) as [H1|H1];
      destruct (decide (feature_matches p (f, v))) as [H2|H2];
      cbn [length]; try lia; exfalso; tauto.
Qed.

Lemma flip_features_matches_le flip_indices :
  ∀ p p', flip_features flip_indices p = Ok p' →
  (length (matching_features p' LINEAR_A_features)
   ≤ length (matching_features p LINEAR_A_features) + length flip_indices)%nat ∧
  (length (matching_features p LINEAR_A_features)
   ≤ length (matching_features p' LINEAR_A_features) + length flip_indices)%nat.
Proof.
  induction flip_indices as [|idx rest IH]; intros p p' Hrun.
  - injection Hrun as <-. cbn [length]. lia.
  - cbn [flip_features] in Hrun.
    apply bind_Ok in Hrun as (feat & Hfeat & Hrun).
    apply IH in Hrun as [H1 H2].
    pose proof (flipped_matches_le feat p LINEAR_A_features feature_names_NoDup)
      as [H3 H4].
    fold (flipped feat p) in H1, H2. cbn [length]. lia.
Qed.

Section PerturbationEffects.
Context {G : Type} (sample_range : nat → Z → G → result (list Z * G)).
Hypothesis sample_ok : sample_contract sample_range.

Lemma perturb_features_returns fdata feats pct g :
  features fdata = Some feats → pct ∈ perturbation_levels →
  ∃ flip_indices p_features g',
    perturb_features sample_range fdata pct g
    = Ok (flip_indices, p_features, g') ∧
    flip_features flip_indices feats = Ok p_features ∧
    Z.of_nat (length flip_indices) = n_flip pct ∧
    NoDup flip_indices ∧
    Forall (λ i, (0 ≤ i < Z.of_nat (length feature_names))%Z) flip_indices.
Proof.
  intros Hf Hin. unfold perturb_features. rewrite Hf.
  cbn [getitem mbind result_bind].
  destruct (sample_ok (length feature_names) (n_flip pct) g
              (n_flip_bounds _ Hin)) as (l & g' & -> & Hlen & Hnd & Hall).
  cbn [mbind result_bind].
  pose proof (flip_features_ok l feats Hall) as [p' Hp']%is_ok_Ok.
  rewrite Hp'. cbn [mbind result_bind].
  by exists l, p', g'.
Qed.

(** X15.  For a rate of the sweep and a sampler that returns distinct
    positions of the range, the perturbed feature map holds, for every
    feature name of the target list, the negated value when the feature's
    position was drawn and the original value otherwise; a drawn feature
    that the family does not list stays absent, other keys are untouched,
    and the map keeps its key set. *)
Theorem perturbation_flips_selected (fdata : family_data)
    (feats : gmap string bool) (perturb_pct : R) (g : G) :
  features fdata = Some feats →
  perturb_pct ∈ perturbation_levels →
  ∃ flip_indices p_features g',
    perturb_features sample_range fdata perturb_pct g
    = Ok (flip_indices, p_features, g') ∧
    (∀ i feat, feature_names !! i = Some feat →
               p_features !! feat
               = if decide (Z.of_nat i ∈ flip_indices)
                 then negb <$> feats !! feat else feats !! feat) ∧
    (∀ feat, feat ∉ feature_names → p_features !! feat = feats !! feat) ∧
    dom p_features = dom feats.
Proof.
  intros Hf Hin.
  destruct (perturb_features_returns fdata feats perturb_pct g Hf Hin)
    as (l & p' & g' & Hrun & Hflip & _ & Hnd & Hall).
  destruct (flip_features_lookup l Hnd Hall feats) as (p'' & Hflip' & Hsel & Hout).
  rewrite Hflip in Hflip'. injection Hflip' as <-.
  exists l, p', g'. split; [done|]. split; [done|]. split; [done|].
  apply set_eq. intros k. rewrite !elem_of_dom.
  destruct (decide (k ∈ feature_names)) as [Hk|Hk].
  - apply list_elem_of_lookup in Hk as [i Hi]. rewrite (Hsel i k Hi).
    destruct (decide (Z.of_nat i ∈ l)); [|done]. by rewrite fmap_is_Some.
  - by rewrite (Hout k Hk).
Qed.

(** X16.  For a rate [r] of the sweep, the feature score of the
    perturbed profile differs from the feature score of the original by at
    most [n_flip / 14 * 100] points, hence by at most [100 * r]. *)
Theorem perturbation_moves_feature_score (fdata : family_data)
    (feats : gmap string bool) (perturb_pct : R) (g : G) :
  features fdata = Some feats →
  perturb_pct ∈ perturbation_levels →
  ∃ flip_indices p_features g' s s',
    perturb_features sample_range fdata perturb_pct g
    = Ok (flip_indices, p_features, g') ∧
    score_features fdata = Ok s ∧
    score_features (with_features fdata p_features) = Ok s' ∧
    Rabs (s' - s) <= IZR (n_flip perturb_pct) / 14 * 100 ∧
    Rabs (s' - s) <= 100 * perturb_pct.
Proof.
  intros Hf Hin.
  destruct (perturb_features_returns fdata feats perturb_pct g Hf Hin)
    as (l & p' & g' & Hrun & Hflip & Hlen & _ & _).
  exists l, p', g'. eexists _, _. split; [done|].
  split; [exact (score_features_spec fdata feats Hf)|].
  split; [exact (score_features_spec (with_features fdata p') p' eq_refl)|].
  destruct (flip_features_matches_le l feats p' Hflip) as [H1 H2].
  apply le_INR in H1, H2. rewrite plus_INR in H1, H2.
  rewrite <- Hlen, <- INR_IZR_INZ.
  change (length LINEAR_A_features) with 14%nat.
  replace (INR 14) with 14 by (cbn; lra).
  assert (Rabs (INR (length (matching_features p' LINEAR_A_features)) / 14 * 100
                - INR (length (matching_features feats LINEAR_A_features)) / 14 * 100)
          <= INR (length l) / 14 * 100) as Hb.
  { apply Rabs_le. lra. }
  split; [exact Hb|].
  etransitivity; [exact Hb|].
  assert (IZR (n_flip perturb_pct) <= 14 * perturb_pct) as Hfl.
  { unfold n_flip. rewrite feature_count.
    unfold perturbation_levels in Hin.
    assert (0 <= 14 * perturb_pct) as Hnn.
    { repeat (apply elem_of_cons in Hin as [->|Hin]); try lra.
      by apply elem_of_nil in Hin. }
    apply (py_int_floor_spec (14 * perturb_pct) Hnn). }
  rewrite INR_IZR_INZ, Hlen. lra.
Qed.

End PerturbationEffects.

Lemma one_fifth_in_sweep : 0.20 ∈ perturbation_levels.
Proof.
  unfold perturbation_levels.
  repeat (first [apply list_elem_of_here | apply list_elem_of_further]).
Qed.

Lemma perturbation_flips_selected_witness :
  ∃ flip_indices p_features g',
    perturb_features sample_first Hurro_Urartian 0.20 tt
    = Ok (flip_indices, p_features, g') ∧
    ∀ feat, feat ∉ feature_names → p_features !! feat = None.
Proof.
  destruct (perturbation_flips_selected sample_first sample_first_contract
              Hurro_Urartian _ 0.20 tt eq_refl one_fifth_in_sweep)
    as (l & p & g' & Hrun & _ & Hout & _).
  exists l, p, g'. split; [exact Hrun|].
  intros feat Hfeat. rewrite (Hout feat Hfeat).
  apply not_elem_of_list_to_map_1. exact Hfeat.
Defined.

Lemma perturbation_moves_feature_score_witness :
  ∃ flip_indices p_features g' s s',
    perturb_features sample_first Hurro_Urartian 0.20 tt
    = Ok (flip_indices, p_features, g') ∧
    score_features Hurro_Urartian = Ok s ∧
    score_features (with_features Hurro_Urartian p_features) = Ok s' ∧
    Rabs (s' - s) <= 20.
Proof.
  destruct (perturbation_moves_feature_score sample_first sample_first_contract
              Hurro_Urartian _ 0.20 tt eq_refl one_fifth_in_sweep)
    as (l & p & g' & s & s' & Hrun & Hs & Hs' & _ & Hb).
  exists l, p, g', s, s'.
  refine (conj Hrun (conj Hs (conj Hs' _))). lra.
Defined.

(** ** The weight-sensitivity test *)

Ltac settle_membership :=
  repeat match goal with
  | |- context [decide (?x ∈ ?l)] =>
      let H := fresh "Hmem" in
      destruct (decide (x ∈ l)) as [H|H];
      [ try solve [exfalso; apply (bool_decide_pack _) in H; vm_compute in H;
                   exact H]
      | try solve [exfalso; apply H;
                   repeat (first [apply list_elem_of_here
                                 | apply list_elem_of_further])] ]
  end.

Lemma weighted_score_table s1 s2 s3 s4 s5 s6 s7 s8 lw cw :
  weighted_score (zip dimension_labels [s1; s2; s3; s4; s5; s6; s7; s8]) lw cw
  = if decide (0 < 4 * lw + 4 * cw)
    then (lw * (s1 + s2 + s3 + s4) + cw * (s5 + s6 + s7 + s8))
         / (4 * lw + 4 * cw)
    else 0.
Proof.
  unfold weighted_score, dimension_labels. cbn [zip_with fold_left].
  settle_membership.
  replace (0 + lw + lw + lw + lw + cw + cw + cw + cw) with (4 * lw + 4 * cw)
    by lra.
  destruct (decide (0 < 4 * lw + 4 * cw)); [|reflexivity].
  f_equal. lra.
Qed.

Lemma group_mean_table s1 s2 s3 s4 s5 s6 s7 s8 :
  group_mean linguistic_dims
    (zip dimension_labels [s1; s2; s3; s4; s5; s6; s7; s8])
  = (s1 + s2 + s3 + s4) / 4 ∧
  group_mean cultural_dims
    (zip dimension_labels [s1; s2; s3; s4; s5; s6; s7; s8])
  = (s5 + s6 + s7 + s8) / 4.
Proof.
  unfold group_mean, dimension_labels. cbn [zip_with].
  split.
  - rewrite !filter_cons, filter_nil. cbn [fst].
    settle_membership.
    unfold py_sum. cbn [fmap list_fmap snd fold_left linguistic_dims length INR].
    lra.
  - rewrite !filter_cons, filter_nil. cbn [fst].
    settle_membership.
    unfold py_sum. cbn [fmap list_fmap snd fold_left cultural_dims length INR].
    lra.
Qed.

Lemma weighted_score_blend_eq name fd scores overall lw cw :
  StatisticalControls.score_family name fd = Ok (scores, overall) →
  (0 < lw + cw →
   weighted_score scores lw cw
   = (lw * group_mean linguistic_dims scores
      + cw * group_mean cultural_dims scores) / (lw + cw)) ∧
  (lw + cw <= 0 → weighted_score scores lw cw = 0) ∧
  overall = (group_mean linguistic_dims scores
             + group_mean cultural_dims scores) / 2.
Proof.
  intros (s1 & s2 & s3 & s4 & s5 & s6 & s7 & s8 & _ & _ & _ & _ & _ & _ &
          _ & _ & -> & Hov)%score_family_Ok.
  rewrite weighted_score_table.
  destruct (group_mean_table s1 s2 s3 s4 s5 s6 s7 s8) as [-> ->].
  apply py_div_Ok in Hov as [_ ->].
  unfold py_sum. cbn [fold_left INR]. 
  split; [|split].
  - intros Hpos. rewrite decide_True by lra. field. lra.
  - intros Hle. rewrite decide_False by lra. reflexivity.
  - cbn. lra.
Qed.

Lemma weighted_average_unique fam lw cw r1 r2 :
  weighted_average fam lw cw r1 → weighted_average fam lw cw r2 → r1 = r2.
Proof.
  intros (sc1 & ov1 & H1 & ->) (sc2 & ov2 & H2 & ->).
  rewrite H1 in H2. by injection H2 as <- <-.
Qed.

Lemma weigh_families_spec families lw cw :
  all_scored families →
  ∀ acc, ∃ entries,
    weigh_families families lw cw acc = Ok (acc ++ entries) ∧
    Forall2 (λ fam entry, entry.1 = fam.1 ∧ weighted_average fam lw cw entry.2)
            families entries.
Proof.
  intros Hok. induction families as [|[fname fdata] rest IH]; intros acc.
  - exists []. split; [by rewrite app_nil_r|constructor].
  - apply Forall_cons in Hok as [Hfd Hok]. cbn [fst snd] in Hfd.
    apply is_ok_Ok in Hfd as [[scores ov] Hfd].
    destruct (IH Hok (acc ++ [(fname, weighted_score scores lw cw)]))
      as (entries & Hrun & Hall).
    exists ((fname, weighted_score scores lw cw) :: entries). split.
    + cbn [weigh_families]. rewrite Hfd. cbn [mbind result_bind].
      rewrite Hrun. by rewrite <- app_assoc.
    + constructor; [|done]. split; [done|]. by exists scores, ov.
Qed.

Lemma run_scenario_spec families hurrian name lw cw :
  NoDup families.*1 → hurrian ∈ families →
  hurrian.1 = "Hurro-Urartian"%string →
  (1 < length families)%nat → all_scored families →
  ∃ row, run_scenario families (name, lw, cw) = Ok row ∧
         scenario_row_ok families hurrian (name, lw, cw) row.
Proof.
  intros Hnd Hh Hname Hlen Hok.
  destruct (weigh_families_spec families lw cw Hok []) as (entries & Hrun & Hall).
  cbn [app] in Hrun.
  assert (entries.*1 = families.*1) as Hnames.
  { eapply Forall2_names, Forall2_impl; [exact Hall|]. by intros ?? [? _]. }
  assert (NoDup entries.*1) as Hnd' by (by rewrite Hnames).
  destruct (Forall2_elem_l _ _ _ _ Hall Hh) as ([hn hr] & Hy & Hyn & Hyr).
  cbn [fst snd] in Hyn, Hyr. rewrite Hname in Hyn. subst hn.
  pose proof (lookup_item_elem _ _ _ Hnd' Hy) as Hlook.
  pose proof (sorted_desc_by_perm snd entries) as Hp.
  pose proof (sorted_desc_by_descending snd entries) as Hs.
  assert (length (sorted_desc_by snd entries) = length families) as Hl.
  { rewrite Hp. symmetry. by eapply Forall2_length. }
  unfold run_scenario. rewrite Hrun. cbn [mbind result_bind].
  rewrite Hlook. cbn [mbind result_bind].
  rewrite sorted_by_score_desc_generic.
  destruct (sorted_desc_by snd entries) as [|a [|b rest]] eqn:E;
    [cbn in Hl; lia|cbn in Hl; lia|].
  unfold ranked_at. cbn [lookup list_lookup mbind result_bind].
  assert (NoDup (a :: b :: rest).*1) as Hnd'' by (by rewrite Hp).
  apply StronglySorted_inv in Hs as [Hs Ha]. rewrite Forall_forall in Ha.
  apply StronglySorted_inv in Hs as [_ Hb]. rewrite Forall_forall in Hb.
  assert (∀ e, e ∈ entries ↔ e ∈ a :: b :: rest) as Hmem
    by (intros e; by rewrite Hp).
  assert (∀ fam r, fam ∈ families → weighted_average fam lw cw r →
                   ∃ e, e ∈ entries ∧ e.1 = fam.1 ∧ e.2 = r) as Hentry.
  { intros fam r Hfam Hr.
    destruct (Forall2_elem_l _ _ _ _ Hall Hfam) as (e & He & Hen & Her).
    exists e. split; [done|]. split; [done|].
    by eapply weighted_average_unique. }
  destruct (decide (a.1 = "Hurro-Urartian"%string)) as [Ha1|Ha1].
  - assert (a = ("Hurro-Urartian"%string, hr)) as ->.
    { destruct a as [an ar]. cbn [fst] in Ha1. subst an. f_equal.
      eapply table_entry_unique; [exact Hnd'| |exact Hy].
      apply Hmem. left. }
    eexists. split; [reflexivity|].
    unfold scenario_row_ok.
    cbn [scenario_name hurrian_score second gap scenario_still_first fst snd].
    assert (b.1 ≠ "Hurro-Urartian"%string) as Hb1.
    { rewrite !fmap_cons in Hnd''. apply NoDup_cons in Hnd'' as [Hni _].
      cbn [fst] in Hni. intros Heq. apply Hni. rewrite <- Heq. left. }
    split; [done|]. split; [done|]. split; [|split; [|split; [done|split]]].
    + assert (b ∈ entries) as Hbe by (apply Hmem; right; left).
      destruct (Forall2_elem_r _ _ _ _ Hall Hbe) as (fam & Hfam & Hen & Her).
      exists fam. split; [done|]. split; [by rewrite <- Hen|done].
    + intros fam r Hfam Hne Hr.
      destruct (Hentry fam r Hfam Hr) as (e & He & Hen & <-).
      apply Hmem in He. apply elem_of_cons in He as [->|He].
      { cbn [fst] in Hen. by rewrite <- Hen in Hne. }
      apply elem_of_cons in He as [->|He]; [lra|]. by apply Hb.
    + intros _. by apply bool_decide_eq_true_2.
    + intros _. assert (b.2 <= hr); [|lra].
      apply (Ha b). left.
  - eexists. split; [reflexivity|].
    unfold scenario_row_ok.
    cbn [scenario_name hurrian_score second gap scenario_still_first fst snd].
    assert (hr <= a.2) as Hle.
    { assert (("Hurro-Urartian"%string, hr) ∈ a :: b :: rest) as Hin
        by (by apply Hmem).
      apply elem_of_cons in Hin as [<-|Hin]; [cbn; lra|].
      exact (Ha _ Hin). }
    split; [done|]. split; [done|]. split; [|split; [|split; [done|split]]].
    + assert (a ∈ entries) as Hae by (apply Hmem; left).
      destruct (Forall2_elem_r _ _ _ _ Hall Hae) as (fam & Hfam & Hen & Her).
      exists fam. split; [done|]. split; [by rewrite <- Hen|done].
    + intros fam r Hfam Hne Hr.
      destruct (Hentry fam r Hfam Hr) as (e & He & Hen & <-).
      apply Hmem in He. apply elem_of_cons in He as [->|He]; [lra|].
      exact (Ha _ He).
    + intros Hgap. lra.
    + intros Hsf%bool_decide_eq_true_1. done.
Qed.

Lemma map_result_Forall2 {A B} (f : A → result B) (P : A → B → Prop) xs :
  Forall (λ x, ∃ y, f x = Ok y ∧ P x y) xs →
  ∃ ys, map_result f xs = Ok ys ∧ Forall2 P xs ys.
Proof.
  induction 1 as [|x xs (y & Hy & HP) _ (ys & Hys & Hall)].
  - exists []. split; [done|constructor].
  - exists (y :: ys). split; [|by constructor].
    cbn [map_result]. rewrite Hy. cbn [mbind result_bind]. by rewrite Hys.
Qed.

(** X17.  For a scored family, a positive linguistic weight and a
    cultural weight that is not negative, the weighted score is
    [(lw * L + cw * C) / (lw + cw)], with [L] the mean of the four
    linguistic scores and [C] the mean of the four cultural ones.  With
    equal weights it is the overall score; with cultural weight 0 it is
    [L]; with both weights 0 the guard on the total weight returns 0. *)
Theorem cultural_weighting (family_name : string) (fd : family_data)
    (scores : list (string * R)) (overall ling_weight cult_weight : R) :
  StatisticalControls.score_family family_name fd = Ok (scores, overall) →
  0 < ling_weight → 0 <= cult_weight →
  weighted_score scores ling_weight cult_weight
  = (ling_weight * group_mean linguistic_dims scores
     + cult_weight * group_mean cultural_dims scores)
    / (ling_weight + cult_weight) ∧
  weighted_score scores ling_weight ling_weight = overall ∧
  weighted_score scores ling_weight 0 = group_mean linguistic_dims scores ∧
  weighted_score scores 0 0 = 0.
Proof.
  intros Hs Hlw Hcw.
  destruct (weighted_score_blend_eq _ _ _ _ ling_weight cult_weight Hs)
    as (H1 & _ & Hov).
  destruct (weighted_score_blend_eq _ _ _ _ ling_weight ling_weight Hs)
    as (H2 & _ & _).
  destruct (weighted_score_blend_eq _ _ _ _ ling_weight 0 Hs) as (H3 & _ & _).
  destruct (weighted_score_blend_eq _ _ _ _ 0 0 Hs) as (_ & H4 & _).
  split; [apply H1; lra|]. split; [|split].
  - rewrite H2, Hov by lra. field. lra.
  - rewrite H3 by lra. field. lra.
  - apply H4. lra.
Qed.

(** X18.  For a scored family whose stored entries lie in [0,100], and
    weights that are not negative, the weighted score lies in [0,100]. *)
Theorem weighted_score_in_range (family_name : string) (fd : family_data)
    (scores : list (string * R)) (overall ling_weight cult_weight : R) :
  entries_in_range fd →
  StatisticalControls.score_family family_name fd = Ok (scores, overall) →
  0 <= ling_weight → 0 <= cult_weight →
  in_range (weighted_score scores ling_weight cult_weight).
Proof.
  intros Hfd Hs Hlw Hcw.
  pose proof (score_family_scores_in_range _ _ _ _ Hfd Hs) as Hall.
  apply score_family_Ok in Hs
    as (s1 & s2 & s3 & s4 & s5 & s6 & s7 & s8 & _ & _ & _ & _ & _ & _ &
        _ & _ & -> & _).
  rewrite weighted_score_table. unfold dimension_labels in Hall.
  cbn [zip_with fmap list_fmap snd] in Hall.
  repeat (apply Forall_cons in Hall as [? Hall]).
  unfold in_range in *.
  destruct (decide (0 < 4 * ling_weight + 4 * cult_weight)) as [Hpos|_]; [|lra].
  set (S1 := s1 + s2 + s3 + s4). set (S2 := s5 + s6 + s7 + s8).
  assert (0 <= S1 <= 400) as HS1 by (unfold S1; lra).
  assert (0 <= S2 <= 400) as HS2 by (unfold S2; lra).
  clearbody S1 S2.
  assert (0 <= ling_weight * S1 + cult_weight * S2
          <= 100 * (4 * ling_weight + 4 * cult_weight)) as [Hlo Hhi]
    by (split; nra).
  split.
  - apply Rmult_le_reg_r with (4 * ling_weight + 4 * cult_weight); [done|].
    unfold Rdiv. rewrite Rmult_assoc, Rinv_l by lra. lra.
  - apply Rmult_le_reg_r with (4 * ling_weight + 4 * cult_weight); [done|].
    unfold Rdiv. rewrite Rmult_assoc, Rinv_l by lra. lra.
Qed.

(** X19.  On a table of two or more distinct, scored families holding
    the Hurro-Urartian one, the weight test returns one line per scenario,
    in order.  Each line holds the weighted score of Hurro-Urartian; as
    runner-up a family other than Hurro-Urartian whose weighted score is
    the largest among the other families; and the gap between the two.  A
    positive gap makes the line say that Hurro-Urartian is still first,
    and when it says so the gap is not negative. *)
Theorem cultural_weight_rows (LANGUAGE_FAMILIES : list (string * family_data))
    (hurrian_data : family_data) :
  NoDup LANGUAGE_FAMILIES.*1 →
  ("Hurro-Urartian"%string, hurrian_data) ∈ LANGUAGE_FAMILIES →
  (1 < length LANGUAGE_FAMILIES)%nat →
  all_scored LANGUAGE_FAMILIES →
  ∃ rows,
    run_cultural_weight_test LANGUAGE_FAMILIES = Ok rows ∧
    Forall2 (scenario_row_ok LANGUAGE_FAMILIES
               ("Hurro-Urartian"%string, hurrian_data)) scenarios rows.
Proof.
  intros Hnd Hh Hlen Hok. unfold run_cultural_weight_test.
  rewrite (lookup_item_elem _ _ _ Hnd Hh). cbn [mbind result_bind].
  pose proof Hok as Hok'. unfold all_scored in Hok'. rewrite Forall_forall in Hok'.
  pose proof (Hok' _ Hh) as [[scores ov] Hs]%is_ok_Ok. cbn [fst snd] in Hs.
  rewrite Hs. cbn [mbind result_bind].
  apply map_result_Forall2. apply Forall_forall.
  intros [[name lw] cw] _.
  exact (run_scenario_spec _ _ name lw cw Hnd Hh eq_refl Hlen Hok).
Qed.

(** X20.  On a table holding the Hurro-Urartian family alone the weight
    test raises [IndexError]: the runner-up is read at position 1 of a
    ranking of length 1, with no guard on the length such as the baseline
    has. *)
Theorem cultural_weight_needs_rival (hurrian_data : family_data) :
  is_ok (StatisticalControls.score_family "Hurro-Urartian" hurrian_data) →
  run_cultural_weight_test [("Hurro-Urartian"%string, hurrian_data)]
  = Raise IndexError.
Proof.
  intros [[scores ov] Hs]%is_ok_Ok. unfold run_cultural_weight_test.
  cbn [lookup_item]. rewrite decide_True by done. cbn [mbind result_bind].
  rewrite Hs. cbn [mbind result_bind].
  unfold scenarios. apply map_result_head_raises.
  unfold run_scenario. cbn [weigh_families]. rewrite Hs.
  cbn [mbind result_bind app lookup_item]. rewrite decide_True by done.
  cbn [mbind result_bind sorted_by_score_desc foldr insert_ranked ranked_at
       lookup list_lookup fst].
  rewrite decide_True by done. reflexivity.
Qed.

Lemma cultural_weighting_witness :
  ∃ scores overall,
    StatisticalControls.score_family "Hurro-Urartian" Hurro_Urartian
    = Ok (scores, overall) ∧
    weighted_score scores 1 1 = overall ∧
    weighted_score scores 1 0 = group_mean linguistic_dims scores.
Proof.
  destruct (proj1 (is_ok_Ok _)
              (score_family_total "Hurro-Urartian" Hurro_Urartian
                 Hurro_Urartian_complete)) as [[scores overall] Hs].
  exists scores, overall. split; [exact Hs|].
  destruct (cultural_weighting "Hurro-Urartian" Hurro_Urartian scores overall
              1 0.5 Hs) as (_ & H1 & H2 & _).
  - lra.
  - lra.
  - exact (conj H1 H2).
Defined.

Lemma weighted_score_in_range_witness :
  ∃ scores overall,
    StatisticalControls.score_family "Hurro-Urartian" Hurro_Urartian
    = Ok (scores, overall) ∧
    in_range (weighted_score scores 1 0.25).
Proof.
  destruct (proj1 (is_ok_Ok _)
              (score_family_total "Hurro-Urartian" Hurro_Urartian
                 Hurro_Urartian_complete)) as [[scores overall] Hs].
  exists scores, overall. split; [exact Hs|].
  apply (weighted_score_in_range "Hurro-Urartian" Hurro_Urartian scores overall
           1 0.25 Hurro_Urartian_in_range Hs).
  - lra.
  - lra.
Defined.

Lemma cultural_weight_rows_witness :
  ∃ rows, run_cultural_weight_test two_families = Ok rows ∧
          length rows = 4%nat.
Proof.
  destruct (cultural_weight_rows two_families Hurro_Urartian two_families_names
              two_families_hurrian)
    as (rows & Hrun & Hall).
  - cbn. lia.
  - exact two_families_scored.
  - exists rows. split; [exact Hrun|].
    apply Forall2_length in Hall. rewrite <- Hall. reflexivity.
Defined.

Lemma cultural_weight_needs_rival_witness :
  run_cultural_weight_test one_family = Raise IndexError.
Proof.
  apply cultural_weight_needs_rival.
  apply score_family_total, Hurro_Urartian_complete.
Defined.
